(** * tmap: FPGA technology mapping of And-Inverter Graphs onto K-LUTs

    A shallow embedding of the cut-enumeration engine (Cut, CutSet,
    CutEngine), of the cover selection (TechMapper) and of the command-line
    driver, followed by the properties of the specification that were
    checked against it.

    Conventions of the embedding:
    - [unsigned int] is a [Z] in [0, 2^32); every addition, subtraction and
      shift of the source is followed by [wrap], and the value [-1] the
      source compares costs with is [UINT_MAX];
    - [std::set<unsigned int>] is [gset Z], [std::map<unsigned int, bool>]
      is [gmap Z bool], [std::vector] is [list];
    - every [throw] is a constructor of [error]; functions that can throw
      return [result];
    - the two [while] loops take a fuel argument and return [OutOfFuel]
      when it is exhausted. *)

From stdpp Require Import base numbers option list gmap sets sorting.

Local Open Scope Z_scope.

Ltac Zify.zify_post_hook ::= Z.to_euclidean_division_equations.

(** ** Machine integers *)

Definition UINT_MAX : Z := 4294967295.

Definition wrap (x : Z) : Z := x mod 4294967296.

(** ** Exceptions *)

Inductive error : Type :=
  | NotAnAndLiteral          (* "... is not a valid and-literal ..." *)
  | AndVectorIndexOutOfRange (* getAndNodeFromLiteral *)
  | RangeOverflow            (* vectorIndexFromAndLiteral *)
  | StdOutOfRange            (* std::vector::at, std::map::at *)
  | CostOutOfRange           (* Cut::set*Cost with the reserved value *)
  | EmptyCutUnion            (* Cut::operator+ *)
  | UnionCostsUndefined      (* diamondOperation *)
  | BestCutUndefined         (* getBestCut *)
  | ChildCutSetUndefined     (* phiOperation *)
  | NeitherInputNorAnd       (* generateAutoCut *)
  | CutSetRemainsUndefined   (* findCuts, sanity check *)
  | KLessThanTwo             (* CutEngine constructor *)
  | InputMalformed           (* AndInverterGraph constructor *)
  | OutOfFuel.               (* the model's loops only *)

Inductive result (A : Type) : Type :=
  | OK (a : A)
  | Err (e : error).
Arguments OK {A} a.
Arguments Err {A} e.

#[global] Instance result_ret : MRet result := λ A a, OK a.
#[global] Instance result_bind : MBind result :=
  λ A B f m, match m with OK a => f a | Err e => Err e end.

Definition is_OK {A} (r : result A) : bool :=
  match r with OK _ => true | Err _ => false end.

(** [std::vector::at] and [std::map::at]. *)
Definition vector_at {A} (v : list A) (i : Z) : result A :=
  if i <? 0 then Err StdOutOfRange
  else match v !! Z.to_nat i with
       | Some x => OK x
       | None => Err StdOutOfRange
       end.

Definition map_at (m : gmap Z bool) (key : Z) : result bool :=
  match m !! key with
  | Some b => OK b
  | None => Err StdOutOfRange
  end.

(** [std::map::operator[]] used as an rvalue: a missing key is inserted
    with the value [false]. *)
Definition map_subscript (m : gmap Z bool) (key : Z) : gmap Z bool * bool :=
  match m !! key with
  | Some b => (m, b)
  | None => (<[key := false]> m, false)
  end.

(** [std::map::emplace]: an existing key keeps its value. *)
Definition map_emplace (key : Z) (b : bool) (m : gmap Z bool) : gmap Z bool :=
  match m !! key with
  | Some _ => m
  | None => <[key := b]> m
  end.

(** Iteration over a [std::set] is in ascending order. *)
Definition ascending (X : gset Z) : list Z := merge_sort Z.le (elements X).

(** ** AndInverterGraph.cpp

    Only what the engine reads is kept: the header counts, the output
    literals and the children of the and-nodes (latch next-state literals,
    fanouts, symbols and comments are never read by the engine). *)

Record AndNode : Type := mkAndNode {
  _firstChild : Z;
  _secondChild : Z
}.

Record AndInverterGraph : Type := mkAndInverterGraph {
  _maxVariableIndex : Z;
  _numInputs : Z;
  _numLatches : Z;
  _numOutputs : Z;
  _numAnds : Z;
  _outputLiteralVector : list Z;
  _andVector : list AndNode
}.

Definition indexFromLiteral (literal : Z) : Z := Z.shiftr literal 1.

Definition literalFromIndex (index : Z) : Z := wrap (Z.shiftl index 1).

Definition nodeIsInput (aig : AndInverterGraph) (nodeLiteral : Z) : bool :=
  if nodeLiteral <=? 1 then false
  else
    let nodeVariableIndex := indexFromLiteral nodeLiteral in
    if nodeVariableIndex <=? _numInputs aig then true else false.

Definition nodeIsLatch (aig : AndInverterGraph) (nodeLiteral : Z) : bool :=
  if nodeLiteral <=? 1 then false
  else
    let nodeVariableIndex := indexFromLiteral nodeLiteral in
    if (nodeVariableIndex <=? wrap (_numInputs aig + _numLatches aig))
       && (nodeVariableIndex >? _numInputs aig)
    then true else false.

Definition nodeIsAnd (aig : AndInverterGraph) (nodeLiteral : Z) : bool :=
  if nodeLiteral <=? 1 then false
  else
    let nodeVariableIndex := indexFromLiteral nodeLiteral in
    if (nodeVariableIndex
          <=? wrap (wrap (_numInputs aig + _numLatches aig) + _numAnds aig))
       && (nodeVariableIndex >? wrap (_numInputs aig + _numLatches aig))
    then true else false.

Definition getAndNodeFromLiteral (aig : AndInverterGraph) (andLiteral : Z)
  : result AndNode :=
  if negb (nodeIsAnd aig andLiteral) then Err NotAnAndLiteral
  else
    let nodeVariableIndex := indexFromLiteral andLiteral in
    let andVectorIndex :=
      wrap (wrap (wrap (nodeVariableIndex - _numInputs aig)
                  - _numLatches aig) - 1) in
    if andVectorIndex >=? Z.of_nat (length (_andVector aig))
    then Err AndVectorIndexOutOfRange
    else vector_at (_andVector aig) andVectorIndex.

Definition getFirstAndLiteral (aig : AndInverterGraph) : Z :=
  literalFromIndex
    (wrap (wrap (wrap (0 + _numInputs aig) + _numLatches aig) + 1)).

(** The literal of an odd (negated) reference with the polarity bit
    cleared: [if (l % 2 == 1) l--;]. *)
Definition evenLiteral (literal : Z) : Z :=
  if literal mod 2 =? 1 then wrap (literal - 1) else literal.

(** ** Cut.cpp *)

Record Cut : Type := mkCut {
  _nodeVariables : gset Z;
  _areaCost : Z;
  _delayCost : Z;
  _powerCost : Z
}.

(** [Cut ()]: no variables, the three costs unset. *)
Definition Cut_default : Cut := mkCut ∅ UINT_MAX UINT_MAX UINT_MAX.

Definition getVariableSet (cut : Cut) : gset Z := _nodeVariables cut.

Definition numNodeVariables (cut : Cut) : Z :=
  wrap (Z.of_nat (size (_nodeVariables cut))).

Definition getAreaCost (cut : Cut) : Z := _areaCost cut.
Definition getDelayCost (cut : Cut) : Z := _delayCost cut.
Definition getPowerCost (cut : Cut) : Z := _powerCost cut.

Definition setAreaCost (cut : Cut) (areaCost : Z) : result Cut :=
  if areaCost =? UINT_MAX then Err CostOutOfRange
  else OK (mkCut (_nodeVariables cut) areaCost
                 (_delayCost cut) (_powerCost cut)).

Definition setDelayCost (cut : Cut) (delayCost : Z) : result Cut :=
  if delayCost =? UINT_MAX then Err CostOutOfRange
  else OK (mkCut (_nodeVariables cut) (_areaCost cut)
                 delayCost (_powerCost cut)).

Definition setPowerCost (cut : Cut) (powerCost : Z) : result Cut :=
  if powerCost =? UINT_MAX then Err CostOutOfRange
  else OK (mkCut (_nodeVariables cut) (_areaCost cut)
                 (_delayCost cut) powerCost).

Definition isEmptyCut (cut : Cut) : bool :=
  bool_decide (_nodeVariables cut = ∅).

Definition allCostsSet (cut : Cut) : bool :=
  if (_areaCost cut =? UINT_MAX) || (_delayCost cut =? UINT_MAX)
     || (_powerCost cut =? UINT_MAX)
  then false else true.

(** [Cut::operator+]. *)
Definition Cut_union (lhsCut rhsCut : Cut) : result Cut :=
  if bool_decide (_nodeVariables lhsCut = ∅)
     || bool_decide (_nodeVariables rhsCut = ∅)
  then Err EmptyCutUnion
  else
    let unionCutVariables := _nodeVariables lhsCut ∪ _nodeVariables rhsCut in
    let maxValue := UINT_MAX in
    OK (mkCut unionCutVariables maxValue maxValue maxValue).

(** [Cut::operator==]. *)
Definition Cut_eqb (lhsCut rhsCut : Cut) : bool :=
  if bool_decide (_nodeVariables lhsCut = _nodeVariables rhsCut)
  then true else false.

(** ** CutSet.cpp

    A [CutSet] is a [std::vector<Cut>]; the iterator [emplace] returns is
    the position of the cut in the vector. *)

Abbreviation CutSet := (list Cut).

Fixpoint CutSet_find (newCut : Cut) (cutSet : CutSet) : option nat :=
  match cutSet with
  | [] => None
  | it :: rest =>
      if Cut_eqb newCut it then Some 0%nat
      else S <$> CutSet_find newCut rest
  end.

Definition CutSet_emplace (cutSet : CutSet) (newCut : Cut)
  : CutSet * nat * bool :=
  match CutSet_find newCut cutSet with
  | Some it => (cutSet, it, false)
  | None => (cutSet ++ [newCut], length cutSet, true)
  end.

(** ** CutEngine.cpp *)

Inductive MappingGoal : Type := MinimizeArea | MinimizeDelay.

Record CutEngine : Type := mkCutEngine {
  _cutSetVector : list CutSet;
  _mappingGoal : MappingGoal;
  _implementationMap : gmap Z bool;
  _aig : AndInverterGraph;
  _k : Z;
  _c : Z
}.

Definition set_cutSetVector (e : CutEngine) (v : list CutSet) : CutEngine :=
  mkCutEngine v (_mappingGoal e) (_implementationMap e) (_aig e) (_k e) (_c e).

Definition set_implementationMap (e : CutEngine) (m : gmap Z bool)
  : CutEngine :=
  mkCutEngine (_cutSetVector e) (_mappingGoal e) m (_aig e) (_k e) (_c e).

(** The constructor. The loop [for (int i = first; i < last; i++)] runs over
    the and-variables; [emplace] keeps the first value of a key. *)
Definition CutEngine_new (aig : AndInverterGraph) (mappingGoal : MappingGoal)
    (k c : Z) : result CutEngine :=
  if k <? 2 then Err KLessThanTwo
  else
    let cutSetVector := replicate (Z.to_nat (_numAnds aig)) ([] : CutSet) in
    let firstAndVariable := indexFromLiteral (getFirstAndLiteral aig) in
    let lastAndVariable := wrap (firstAndVariable + _numAnds aig) in
    let implementationMap :=
      foldl (λ m i, map_emplace (literalFromIndex i) false m) ∅
            (seqZ firstAndVariable (lastAndVariable - firstAndVariable)) in
    OK (mkCutEngine cutSetVector mappingGoal implementationMap aig k c).

Definition cutAreaComparision (cutA cutB : Cut) : bool :=
  if getAreaCost cutA <? getAreaCost cutB then true
  else if getAreaCost cutA =? getAreaCost cutB then
    if getDelayCost cutA <? getDelayCost cutB then true else false
  else false.

Definition cutDelayComparision (cutA cutB : Cut) : bool :=
  if getDelayCost cutA <? getDelayCost cutB then true
  else if getDelayCost cutA =? getDelayCost cutB then
    if getAreaCost cutA <? getAreaCost cutB then true else false
  else false.

(** [std::sort (first, last, comp)]. The standard leaves the relative order
    of equivalent elements open; the model keeps them in their original
    order (insertion sort), as the specification asks. Nothing proved below
    for all inputs depends on more than the result being a rearrangement of
    the argument. *)
Fixpoint std_sort_insert (comp : Cut → Cut → bool) (x : Cut) (l : list Cut)
  : list Cut :=
  match l with
  | [] => [x]
  | y :: l' => if comp y x then y :: std_sort_insert comp x l'
               else x :: y :: l'
  end.

Fixpoint std_sort (comp : Cut → Cut → bool) (l : list Cut) : list Cut :=
  match l with
  | [] => []
  | x :: l' => std_sort_insert comp x (std_sort comp l')
  end.

Definition goalComparision (mappingGoal : MappingGoal) : Cut → Cut → bool :=
  match mappingGoal with
  | MinimizeArea => cutAreaComparision
  | MinimizeDelay => cutDelayComparision
  end.

Definition sortAndChooseBestCuts (cutSet : CutSet) (c : Z)
    (mappingGoal : MappingGoal) : CutSet :=
  let bestCuts := std_sort (goalComparision mappingGoal) cutSet in
  if Z.of_nat (length bestCuts) >? c
  then take (Z.to_nat c) bestCuts
  else bestCuts.

Definition sortCutSet (cutSet : CutSet) (mappingGoal : MappingGoal) : CutSet :=
  std_sort (goalComparision mappingGoal) cutSet.

Definition vectorIndexFromAndLiteral (e : CutEngine) (andLiteral : Z)
  : result Z :=
  let vectorIndex :=
    wrap (wrap (wrap (indexFromLiteral andLiteral - _numInputs (_aig e))
                - _numLatches (_aig e)) - 1) in
  if vectorIndex >=? Z.of_nat (length (_cutSetVector e))
  then Err RangeOverflow
  else OK vectorIndex.

Definition getCutSet (e : CutEngine) (andLiteral : Z) : result CutSet :=
  if negb (nodeIsAnd (_aig e) andLiteral) then Err NotAnAndLiteral
  else
    i ← vectorIndexFromAndLiteral e andLiteral;
    vector_at (_cutSetVector e) i.

Definition hasBestCut (e : CutEngine) (andLiteral : Z) : result bool :=
  if negb (nodeIsAnd (_aig e) andLiteral) then Err NotAnAndLiteral
  else
    i ← vectorIndexFromAndLiteral e andLiteral;
    cutSet ← vector_at (_cutSetVector e) i;
    match cutSet with [] => OK false | _ => OK true end.

Definition getBestCut (e : CutEngine) (andLiteral : Z) : result Cut :=
  if negb (nodeIsAnd (_aig e) andLiteral) then Err NotAnAndLiteral
  else
    i ← vectorIndexFromAndLiteral e andLiteral;
    cutSet ← vector_at (_cutSetVector e) i;
    match cutSet with
    | [] => Err BestCutUndefined
    | _ => vector_at cutSet 0
    end.

(** The body of the loop of [estimateUnionCutAreaCost], over the variables
    of the cut in ascending order. *)
Fixpoint collectUnimplemented (e : CutEngine) (nodes : list Z)
    (unimplementedNodes : gset Z) : result (gset Z) :=
  match nodes with
  | [] => OK unimplementedNodes
  | nodeIndex :: rest =>
      let nodeLiteral := literalFromIndex nodeIndex in
      if nodeIsAnd (_aig e) nodeLiteral then
        implemented ← map_at (_implementationMap e) nodeLiteral;
        if negb implemented
        then collectUnimplemented e rest ({[nodeLiteral]} ∪ unimplementedNodes)
        else collectUnimplemented e rest unimplementedNodes
      else collectUnimplemented e rest unimplementedNodes
  end.

Definition estimateUnionCutAreaCost (e : CutEngine) (andLiteral : Z)
    (unionCut : Cut) : result Z :=
  unimplementedNodes ←
    collectUnimplemented e (ascending (_nodeVariables unionCut)) ∅;
  OK (wrap (Z.of_nat (size unimplementedNodes))).

Definition estimateUnionCutDelayCost (cutA cutB : Cut) : Z :=
  if getDelayCost cutA >=? getDelayCost cutB
  then getDelayCost cutA else getDelayCost cutB.

Definition estimateAutoCutAreaCost (e : CutEngine) (andLiteral : Z)
  : result Z :=
  bestCut ← getBestCut e andLiteral;
  OK (getAreaCost bestCut).

Definition estimateAutoCutDelayCost (e : CutEngine) (andLiteral : Z)
  : result Z :=
  bestCut ← getBestCut e andLiteral;
  OK (wrap (1 + getDelayCost bestCut)).

Definition generateAutoCut (e : CutEngine) (nodeLiteral : Z) : result Cut :=
  if nodeIsInput (_aig e) nodeLiteral then
    OK (mkCut {[ indexFromLiteral nodeLiteral ]} 0 1 0)
  else if nodeIsAnd (_aig e) nodeLiteral then
    autoCutArea ← estimateAutoCutAreaCost e nodeLiteral;
    autoCutDelay ← estimateAutoCutDelayCost e nodeLiteral;
    OK (mkCut {[ indexFromLiteral nodeLiteral ]} autoCutArea autoCutDelay 0)
  else Err NeitherInputNorAnd.

(** The three setters applied through the iterator [emplace] returned. *)
Definition setCostsAt (diamond : CutSet) (it : nat)
    (areaCost delayCost powerCost : Z) : result CutSet :=
  cut ← vector_at diamond (Z.of_nat it);
  cut1 ← setAreaCost cut areaCost;
  cut2 ← setDelayCost cut1 delayCost;
  cut3 ← setPowerCost cut2 powerCost;
  OK (<[it := cut3]> diamond).

(** One pass through the body of the inner loop of [diamondOperation]. *)
Definition diamondBody (e : CutEngine) (andLiteral k : Z) (cutA cutB : Cut)
    (diamond : CutSet) : result CutSet :=
  unionCut ← Cut_union cutA cutB;
  if numNodeVariables unionCut >? k then OK diamond
  else if negb (allCostsSet cutA) || negb (allCostsSet cutB)
  then Err UnionCostsUndefined
  else
    let '(diamond', autoCutIterator, wasNotInTheSet) :=
      CutSet_emplace diamond unionCut in
    if wasNotInTheSet then
      unionCutAreaCost ← estimateUnionCutAreaCost e andLiteral unionCut;
      let unionCutDelayCost := estimateUnionCutDelayCost cutA cutB in
      let unionCutPowerCost := 0 in
      setCostsAt diamond' autoCutIterator
                 unionCutAreaCost unionCutDelayCost unionCutPowerCost
    else OK diamond'.

Fixpoint diamondInner (e : CutEngine) (andLiteral k : Z) (cutA : Cut)
    (cutSetB : CutSet) (diamond : CutSet) : result CutSet :=
  match cutSetB with
  | [] => OK diamond
  | cutB :: rest =>
      diamond' ← diamondBody e andLiteral k cutA cutB diamond;
      diamondInner e andLiteral k cutA rest diamond'
  end.

Fixpoint diamondOuter (e : CutEngine) (andLiteral k : Z)
    (cutSetA cutSetB : CutSet) (diamond : CutSet) : result CutSet :=
  match cutSetA with
  | [] => OK diamond
  | cutA :: rest =>
      diamond' ← diamondInner e andLiteral k cutA cutSetB diamond;
      diamondOuter e andLiteral k rest cutSetB diamond'
  end.

Definition diamondOperation (e : CutEngine) (andLiteral : Z)
    (cutSetA cutSetB : CutSet) (k : Z) : result CutSet :=
  diamondOuter e andLiteral k cutSetA cutSetB [].

(** [nodeIsAnd (l) && getCutSet (l).empty ()]. *)
Definition isUnprocessedAnd (e : CutEngine) (literal : Z) : result bool :=
  if nodeIsAnd (_aig e) literal then
    cutSet ← getCutSet e literal;
    match cutSet with [] => OK true | _ => OK false end
  else OK false.

Definition childCutSet (e : CutEngine) (childLiteral : Z) : result CutSet :=
  if nodeIsInput (_aig e) childLiteral then OK []
  else getCutSet e childLiteral.

Definition phiOperation (e : CutEngine) (andLiteral : Z) : result CutSet :=
  if negb (nodeIsAnd (_aig e) andLiteral) then Err NotAnAndLiteral
  else
    cutSet ← getCutSet e andLiteral;
    match cutSet with
    | _ :: _ =>
        i ← vectorIndexFromAndLiteral e andLiteral;
        vector_at (_cutSetVector e) i
    | [] =>
        an ← getAndNodeFromLiteral (_aig e) andLiteral;
        let firstChildLiteral := _firstChild an in
        let secondChildLiteral := _secondChild an in
        firstUnprocessed ← isUnprocessedAnd e firstChildLiteral;
        secondUnprocessed ←
          (if firstUnprocessed then OK true
           else isUnprocessedAnd e secondChildLiteral);
        if firstUnprocessed || secondUnprocessed
        then Err ChildCutSetUndefined
        else
          firstChildCutSet ← childCutSet e firstChildLiteral;
          secondChildCutSet ← childCutSet e secondChildLiteral;
          firstChildAutoCut ← generateAutoCut e firstChildLiteral;
          secondChildAutoCut ← generateAutoCut e secondChildLiteral;
          let firstChildCutSet' :=
            (CutSet_emplace firstChildCutSet firstChildAutoCut).1.1 in
          let secondChildCutSet' :=
            (CutSet_emplace secondChildCutSet secondChildAutoCut).1.1 in
          diamondOperation e andLiteral firstChildCutSet' secondChildCutSet'
                           (_k e)
    end.

(** [std::includes (best.begin (), best.end (), child.begin (), child.end ())]
    followed by the write of [false] under the child's even literal. *)
Definition absorbChild (e : CutEngine) (bestCut : Cut) (childLiteral : Z)
  : result CutEngine :=
  if nodeIsAnd (_aig e) childLiteral then
    childBestCut ← getBestCut e childLiteral;
    if bool_decide (getVariableSet childBestCut ⊆ getVariableSet bestCut)
    then OK (set_implementationMap e
               (<[evenLiteral childLiteral := false]> (_implementationMap e)))
    else OK e
  else OK e.

(** The part of the loop body of [findCuts] that follows the two [continue]
    tests. The branches [_c > 0] and [_c == 0] of the source differ only in
    the sorting function they call (the cut the second one builds from the
    two child variables is never read). *)
Definition processNode (e : CutEngine)
    (currentAndNode firstChildLiteral secondChildLiteral : Z)
  : result CutEngine :=
  currentNodeCutSet ← phiOperation e currentAndNode;
  let sortedCutSet :=
    if _c e >? 0
    then sortAndChooseBestCuts currentNodeCutSet (_c e) (_mappingGoal e)
    else sortCutSet currentNodeCutSet (_mappingGoal e) in
  i ← vectorIndexFromAndLiteral e currentAndNode;
  let e1 := set_cutSetVector e (<[Z.to_nat i := sortedCutSet]> (_cutSetVector e)) in
  bestCut ← vector_at sortedCutSet 0;
  if getAreaCost bestCut =? 0 then
    let e2 := set_implementationMap e1
                (<[currentAndNode := true]> (_implementationMap e1)) in
    e3 ← absorbChild e2 bestCut firstChildLiteral;
    absorbChild e3 bestCut secondChildLiteral
  else OK e1.

(** One iteration of [while (!processingStack.empty ())]; the head of the
    list is the top of the stack. *)
Definition findCutsStep (e : CutEngine) (currentAndNode : Z)
    (processingStack : list Z) : result (CutEngine * list Z) :=
  an ← getAndNodeFromLiteral (_aig e) currentAndNode;
  let firstChildLiteral := _firstChild an in
  let secondChildLiteral := _secondChild an in
  firstUnprocessed ← isUnprocessedAnd e firstChildLiteral;
  if (firstUnprocessed : bool)
  then OK (e, firstChildLiteral :: currentAndNode :: processingStack)
  else
    secondUnprocessed ← isUnprocessedAnd e secondChildLiteral;
    if (secondUnprocessed : bool)
    then OK (e, secondChildLiteral :: currentAndNode :: processingStack)
    else
      e' ← processNode e currentAndNode firstChildLiteral secondChildLiteral;
      OK (e', processingStack).

Fixpoint findCutsLoop (fuel : nat) (e : CutEngine) (processingStack : list Z)
  : result CutEngine :=
  match processingStack with
  | [] => OK e
  | currentAndNode :: rest =>
      match fuel with
      | O => Err OutOfFuel
      | S fuel' =>
          '(e', processingStack') ← findCutsStep e currentAndNode rest;
          findCutsLoop fuel' e' processingStack'
      end
  end.

Definition findCuts (fuel : nat) (e : CutEngine) (andLiteral : Z)
  : result (CutEngine * CutSet) :=
  if negb (nodeIsAnd (_aig e) andLiteral) then Err NotAnAndLiteral
  else
    cutSet ← getCutSet e andLiteral;
    match cutSet with
    | _ :: _ =>
        i ← vectorIndexFromAndLiteral e andLiteral;
        cutSet' ← vector_at (_cutSetVector e) i;
        OK (e, cutSet')
    | [] =>
        e' ← findCutsLoop fuel e [andLiteral];
        cutSet' ← getCutSet e' andLiteral;
        match cutSet' with
        | [] => Err CutSetRemainsUndefined
        | _ :: _ =>
            i ← vectorIndexFromAndLiteral e' andLiteral;
            cutSet'' ← vector_at (_cutSetVector e') i;
            OK (e', cutSet'')
        end
    end.

Fixpoint CutEngine_runOutputs (fuel : nat) (e : CutEngine) (outputs : list Z)
  : result CutEngine :=
  match outputs with
  | [] => OK e
  | outputLiteral :: rest =>
      if nodeIsAnd (_aig e) outputLiteral then
        '(e', _) ← findCuts fuel e outputLiteral;
        CutEngine_runOutputs fuel e' rest
      else CutEngine_runOutputs fuel e rest
  end.

Definition CutEngine_run (fuel : nat) (e : CutEngine) : result CutEngine :=
  CutEngine_runOutputs fuel e (_outputLiteralVector (_aig e)).

(** ** TechMapper.cpp

    The mapper holds a reference to the engine; the model keeps the engine
    inside the mapper's state and hands it back with it. *)

Record TechMapper : Type := mkTechMapper {
  _mappingAreaCost : Z;
  _mappingDelayCost : Z;
  _mappingPowerCost : Z;
  _mapperImplementationMap : gmap Z bool;
  _cutEngine : CutEngine
}.

Definition TechMapper_new (cutEngine : CutEngine) : TechMapper :=
  let aig := _aig cutEngine in
  let firstAndVariable := indexFromLiteral (getFirstAndLiteral aig) in
  let lastAndVariable := wrap (firstAndVariable + _numAnds aig) in
  let implementationMap :=
    foldl (λ m i, map_emplace (literalFromIndex i) false m) ∅
          (seqZ firstAndVariable (lastAndVariable - firstAndVariable)) in
  mkTechMapper 0 0 0 implementationMap cutEngine.

(** The and-literals of the variables of a cut: the loops that fill
    [currentIteration] and [nextIteration]. *)
Definition andLiteralsOf (aig : AndInverterGraph) (cut : Cut) : gset Z :=
  set_map literalFromIndex
    (filter (λ nodeIndex, nodeIsAnd aig (literalFromIndex nodeIndex) = true)
            (_nodeVariables cut)).

(** The body of [for (const auto &nodeLiteral : currentIteration)]. *)
Definition visitNode (tm : TechMapper) (nodeLiteral : Z)
    (nextIteration : gset Z) : result (TechMapper * gset Z) :=
  let '(m, implemented) :=
    map_subscript (_mapperImplementationMap tm) nodeLiteral in
  if negb implemented then
    let m' := <[nodeLiteral := true]> m in
    let area := wrap (_mappingAreaCost tm + 1) in
    nodeLiteralBestCut ← getBestCut (_cutEngine tm) nodeLiteral;
    OK (mkTechMapper area (_mappingDelayCost tm) (_mappingPowerCost tm) m'
                     (_cutEngine tm),
        nextIteration ∪ andLiteralsOf (_aig (_cutEngine tm)) nodeLiteralBestCut)
  else
    OK (mkTechMapper (_mappingAreaCost tm) (_mappingDelayCost tm)
                     (_mappingPowerCost tm) m (_cutEngine tm),
        nextIteration).

Fixpoint visitNodes (tm : TechMapper) (nodes : list Z) (nextIteration : gset Z)
  : result (TechMapper * gset Z) :=
  match nodes with
  | [] => OK (tm, nextIteration)
  | nodeLiteral :: rest =>
      '(tm', nextIteration') ← visitNode tm nodeLiteral nextIteration;
      visitNodes tm' rest nextIteration'
  end.

(** [while (!currentIteration.empty ())]. *)
Fixpoint frontierLoop (fuel : nat) (tm : TechMapper) (currentIteration : gset Z)
  : result TechMapper :=
  if bool_decide (currentIteration = ∅) then OK tm
  else
    match fuel with
    | O => Err OutOfFuel
    | S fuel' =>
        '(tm', nextIteration) ← visitNodes tm (ascending currentIteration) ∅;
        frontierLoop fuel' tm' nextIteration
    end.

(** The body of the loop of [TechMapper::run] over the output literals. *)
Definition mapOutput (fuel : nat) (tm : TechMapper) (outputLiteral : Z)
  : result TechMapper :=
  let aig := _aig (_cutEngine tm) in
  if nodeIsAnd aig outputLiteral then
    let evenOutputLiteral := evenLiteral outputLiteral in
    let '(m, implemented) :=
      map_subscript (_mapperImplementationMap tm) evenOutputLiteral in
    if negb implemented then
      '(e', _) ← findCuts fuel (_cutEngine tm) outputLiteral;
      let m' := <[evenOutputLiteral := true]> m in
      let area := wrap (_mappingAreaCost tm + 1) in
      outputBestCut ← getBestCut e' evenOutputLiteral;
      let maxDepth := getDelayCost outputBestCut in
      let delay := if _mappingDelayCost tm <? maxDepth then maxDepth
                   else _mappingDelayCost tm in
      let currentIteration := andLiteralsOf aig outputBestCut in
      frontierLoop fuel
        (mkTechMapper area delay (_mappingPowerCost tm) m' e')
        currentIteration
    else
      OK (mkTechMapper (_mappingAreaCost tm) (_mappingDelayCost tm)
                       (_mappingPowerCost tm) m (_cutEngine tm))
  else if nodeIsInput aig outputLiteral || (outputLiteral <? 2) then
    OK (mkTechMapper (wrap (_mappingAreaCost tm + 1))
                     (if _mappingDelayCost tm <? 1 then 1
                      else _mappingDelayCost tm)
                     (_mappingPowerCost tm) (_mapperImplementationMap tm)
                     (_cutEngine tm))
  else OK tm.

Fixpoint mapOutputs (fuel : nat) (tm : TechMapper) (outputs : list Z)
  : result TechMapper :=
  match outputs with
  | [] => OK tm
  | outputLiteral :: rest =>
      tm' ← mapOutput fuel tm outputLiteral;
      mapOutputs fuel tm' rest
  end.

Definition TechMapper_run (fuel : nat) (tm : TechMapper) : result TechMapper :=
  mapOutputs fuel tm (_outputLiteralVector (_aig (_cutEngine tm))).

(** ** Printing and main.cpp

    What is written to a stream is kept as a list of lines. A function that
    prints takes the lines written so far and returns them extended,
    together with the exception that interrupted it, if any. *)

Inductive OutputLine : Type :=
  | ResultsHeaderLine                       (* ">> Technology Mapping results" *)
  | LutCountLine (area : Z)                 (* "# LUT count: <area>" *)
  | LevelsLine (depth : Z)                  (* "# Levels: <depth>" *)
  | ImplementationHeaderLine                (* ">> Implementation details: " *)
  | ImplementedLine (node : Z) (cut : Cut)  (* "(<node>) => <cut>" *)
  | InterruptedLine (node : Z)              (* "(<node>) => " and no more *)
  | NotImplementedLine (node : Z)           (* "(<node>) => not implemented" *)
  | EngineHeaderLine                        (* ">> Current state of ..." *)
  | NodeHeaderLine (andLiteral : Z)         (* "Node <lit>:" and the rule *)
  | NoCutSetLine                            (* "No cut set defined." *)
  | CutLine (cut : Cut)
  | ErrorLine (e : error).                  (* "An error has ocurred. ..." *)

Definition printResults (tm : TechMapper) (os : list OutputLine)
  : list OutputLine :=
  os ++ [ResultsHeaderLine; LutCountLine (_mappingAreaCost tm);
         LevelsLine (_mappingDelayCost tm)].

(** The loop shared by [TechMapper::printImplementation] and
    [CutEngine::printImplementation], over the keys in ascending order. *)
Fixpoint printImplementationEntries (e : CutEngine) (m : gmap Z bool)
    (nodes : list Z) (os : list OutputLine) : list OutputLine * option error :=
  match nodes with
  | [] => (os, None)
  | node :: rest =>
      match m !! node with
      | Some true =>
          match getBestCut e node with
          | OK cut =>
              printImplementationEntries e m rest
                (os ++ [ImplementedLine node cut])
          | Err err => (os ++ [InterruptedLine node], Some err)
          end
      | _ => printImplementationEntries e m rest (os ++ [NotImplementedLine node])
      end
  end.

Definition printImplementation (e : CutEngine) (m : gmap Z bool)
    (os : list OutputLine) : list OutputLine * option error :=
  printImplementationEntries e m (ascending (dom m))
                             (os ++ [ImplementationHeaderLine]).

Definition andLiteralFromVectorIndex (e : CutEngine) (vectorIndex : Z)
  : result Z :=
  let andLiteral :=
    literalFromIndex
      (wrap (wrap (wrap (vectorIndex + _numInputs (_aig e))
                   + _numLatches (_aig e)) + 1)) in
  if vectorIndex >? wrap (literalFromIndex (_maxVariableIndex (_aig e)) + 1)
  then Err NotAnAndLiteral
  else OK andLiteral.

(** [operator<< (std::ostream &, const CutEngine &)]. *)
Fixpoint printCutSets (e : CutEngine) (i : Z) (cutSets : list CutSet)
    (os : list OutputLine) : list OutputLine * option error :=
  match cutSets with
  | [] => (os, None)
  | cutSet :: rest =>
      match andLiteralFromVectorIndex e i with
      | Err err => (os, Some err)
      | OK andLiteral =>
          let os' := os ++ [NodeHeaderLine andLiteral] in
          let os'' := match cutSet with
                      | [] => os' ++ [NoCutSetLine]
                      | _ => os' ++ (CutLine <$> cutSet)
                      end in
          printCutSets e (i + 1) rest os''
      end
  end.

Definition printCutEngine (e : CutEngine) (os : list OutputLine)
  : list OutputLine * option error :=
  printCutSets e 0 (_cutSetVector e) (os ++ [EngineHeaderLine]).

(** The command line after [std::atoi]: [argInputFile] is [None] when no
    path (or an empty one) is given and otherwise what the
    [AndInverterGraph] constructor does with the file; [argMode] tells
    whether the fourth argument starts with the letter d. *)
Record CommandLine : Type := mkCommandLine {
  argInputFile : option (result AndInverterGraph);
  argK : option Z;
  argC : option Z;
  argMode : option bool
}.

Record ProcessOutcome : Type := mkProcessOutcome {
  exitCode : Z;
  stdoutLines : list OutputLine;
  stderrLines : list OutputLine
}.

(** The statements of the [try] block after the argument processing: the
    lines on standard output and the exception that left the block. *)
Definition mainBody (fuel : nat) (load : result AndInverterGraph)
    (mg : MappingGoal) (k c : Z) : list OutputLine * option error :=
  match load with
  | Err err => ([], Some err)
  | OK aig =>
      match CutEngine_new aig mg (wrap k) (wrap c) with
      | Err err => ([], Some err)
      | OK cutEngine =>
          match TechMapper_run fuel (TechMapper_new cutEngine) with
          | Err err => ([], Some err)
          | OK techMapper =>
              let cutEngine' := _cutEngine techMapper in
              let os1 := printResults techMapper [] in
              match printImplementation cutEngine'
                      (_mapperImplementationMap techMapper) os1 with
              | (os2, Some err) => (os2, Some err)
              | (os2, None) =>
                  match printCutEngine cutEngine' os2 with
                  | (os3, Some err) => (os3, Some err)
                  | (os3, None) =>
                      printImplementation cutEngine'
                        (_implementationMap cutEngine') os3
                  end
              end
          end
      end
  end.

(** The argument processing: defaults 6, 0 and MinimizeArea. *)
Definition mainK (cl : CommandLine) : Z :=
  match argK cl with Some k => k | None => 6 end.

Definition mainC (cl : CommandLine) : Z :=
  match argC cl with Some c => c | None => 0 end.

Definition mainGoal (cl : CommandLine) : MappingGoal :=
  match argMode cl with
  | Some true => MinimizeDelay
  | _ => MinimizeArea
  end.

(** [main] is a function-try-block whose handler writes to [std::cerr] and
    has no [return]: control flows off the end of [main], which returns 0. *)
Definition main (fuel : nat) (cl : CommandLine) : ProcessOutcome :=
  let k := mainK cl in
  let c := mainC cl in
  let mg := mainGoal cl in
  match argInputFile cl with
  | None => mkProcessOutcome 0 [] []
  | Some load =>
      match mainBody fuel load mg k c with
      | (os, None) => mkProcessOutcome 0 os []
      | (os, Some err) => mkProcessOutcome 0 os [ErrorLine err]
      end
  end.

(** ** The integrity constraints of an AIGER design

    What the [AndInverterGraph] constructor enforces on the parsed file and
    what the width of [unsigned int] adds: the header checksum, the order of
    the literals of every and-node, and literals that fit in 32 bits. *)

Fixpoint andNodesValid (andLiteral : Z) (ands : list AndNode) : bool :=
  match ands with
  | [] => true
  | an :: rest =>
      (2 <=? _secondChild an) && (_secondChild an <=? _firstChild an)
      && (_firstChild an <? andLiteral)
      && andNodesValid (andLiteral + 2) rest
  end.

Definition integrityChecks (aig : AndInverterGraph) : bool :=
  (0 <=? _numInputs aig) && (0 <=? _numLatches aig)
  && (_numAnds aig =? Z.of_nat (length (_andVector aig)))
  && (_numOutputs aig =? Z.of_nat (length (_outputLiteralVector aig)))
  && (_maxVariableIndex aig
        =? _numInputs aig + _numLatches aig + _numAnds aig)
  && (2 * _maxVariableIndex aig + 1 <? 4294967296)
  && andNodesValid (2 * (_numInputs aig + _numLatches aig + 1))
                   (_andVector aig)
  && forallb (λ o, (0 <=? o) && (o <=? 2 * _maxVariableIndex aig + 1))
             (_outputLiteralVector aig).

(** The states an execution goes through: the engine together with the
    work stack of the call of [findCuts] in progress (the empty stack
    between calls). An engine is constructed over a design that passed the
    integrity checks; a call of [findCuts] on an and-literal without a cut
    set pushes it; every iteration of the loop is a step. *)
Inductive reachable : CutEngine → list Z → Prop :=
  | reachable_new aig mappingGoal k c e :
      integrityChecks aig = true →
      CutEngine_new aig mappingGoal k c = OK e →
      reachable e []
  | reachable_call e andLiteral :
      reachable e [] →
      getCutSet e andLiteral = OK [] →
      reachable e [andLiteral]
  | reachable_step e currentAndNode rest e' processingStack' :
      reachable e (currentAndNode :: rest) →
      findCutsStep e currentAndNode rest = OK (e', processingStack') →
      reachable e' processingStack'.

(** The cut set stored for the and-variable [v] (empty when out of range). *)
Definition cutSetOf (e : CutEngine) (v : Z) : CutSet :=
  default []
    (_cutSetVector e
       !! Z.to_nat (v - _numInputs (_aig e) - _numLatches (_aig e) - 1)).

(** The leaves of a cut that [estimateUnionCutAreaCost] counts, in the
    words of the specification: and-nodes not marked in the
    implementation map. *)
Definition countedLeaf (e : CutEngine) (v : Z) : Prop :=
  nodeIsAnd (_aig e) (literalFromIndex v) = true
  ∧ _implementationMap e !! literalFromIndex v = Some false.

#[global] Instance countedLeaf_dec e v : Decision (countedLeaf e v).
Proof. unfold countedLeaf. apply _. Defined.

Definition unimplementedLeaves (e : CutEngine) (leaves : gset Z) : gset Z :=
  filter (countedLeaf e) leaves.

(** ** The designs of the scenarios *)

(** S1: inputs 2 and 4, the and-node 6 = 4 ∧ 2, output 6. *)
Definition aigSingleAnd : AndInverterGraph :=
  mkAndInverterGraph 3 2 0 1 1 [6] [mkAndNode 4 2].

(** S3: inputs 2 and 4, and-nodes 6 = 4 ∧ 2, 8 = 6 ∧ 2, 10 = 6 ∧ 4,
    outputs 8 and 10. *)
Definition aigShared : AndInverterGraph :=
  mkAndInverterGraph 5 2 0 2 3 [8; 10]
    [mkAndNode 4 2; mkAndNode 6 2; mkAndNode 6 4].

(** S2: inputs 2, 4 and 6, and-nodes 8 = 4 ∧ 2, 10 = 8 ∧ 6, 12 = 10 ∧ 2,
    output 12. *)
Definition aigChain : AndInverterGraph :=
  mkAndInverterGraph 6 3 0 1 3 [12]
    [mkAndNode 4 2; mkAndNode 8 6; mkAndNode 10 2].

(** Input 2, latch 4, the and-node 6 = 4 ∧ 2, output 6. *)
Definition aigLatchChild : AndInverterGraph :=
  mkAndInverterGraph 3 1 1 1 1 [6] [mkAndNode 4 2].

(** Input 2 wired to the only output. *)
Definition aigWire : AndInverterGraph :=
  mkAndInverterGraph 1 1 0 1 0 [2] [].

(** Inputs 2 and 4, the and-node 6 = 4 ∧ 2, output 7 (the and-node
    negated). *)
Definition aigNegatedOutput : AndInverterGraph :=
  mkAndInverterGraph 3 2 0 1 1 [7] [mkAndNode 4 2].

(** The engine constructed over [aigLatchChild] with k = 2 and c = 0. *)
Definition engineLatchChild : CutEngine :=
  mkCutEngine [[]] MinimizeArea {[ 6 := false ]} aigLatchChild 2 0.

(** The engines constructed over [aigSingleAnd] and [aigNegatedOutput]
    with k = 2 and c = 0. *)
Definition engineSingleAnd : CutEngine :=
  mkCutEngine [[]] MinimizeArea {[ 6 := false ]} aigSingleAnd 2 0.

Definition engineNegatedOutput : CutEngine :=
  mkCutEngine [[]] MinimizeArea {[ 6 := false ]} aigNegatedOutput 2 0.

(** The engine a call of [findCuts] leaves, and the cut set it returns. *)
Definition engineAfter (r : result (CutEngine * CutSet)) (e : CutEngine)
  : CutEngine :=
  match r with OK (e', _) => e' | Err _ => e end.

Definition cutSetFound (r : result (CutEngine * CutSet)) : result CutSet :=
  p ← r; OK p.2.

(** The engine constructed over [aigShared] with k = 2 and c = 0, and the
    mapper constructed over it. *)
Definition engineShared : CutEngine :=
  mkCutEngine [[]; []; []] MinimizeArea
    {[ 6 := false; 8 := false; 10 := false ]} aigShared 2 0.

Definition mapperShared : TechMapper := TechMapper_new engineShared.

(** The value of a computation that completed. *)
Definition from_OK {A} (d : A) (r : result A) : A :=
  match r with OK a => a | Err _ => d end.

(** The full pipeline of [main]: engine, mapper, [run]. *)
Definition pipeline (fuel : nat) (aig : AndInverterGraph)
    (mappingGoal : MappingGoal) (k c : Z) : result TechMapper :=
  cutEngine ← CutEngine_new aig mappingGoal k c;
  TechMapper_run fuel (TechMapper_new cutEngine).

(** The number of output literals that are primary inputs or constants. *)
Definition directOutputs (aig : AndInverterGraph) (outputs : list Z) : Z :=
  Z.of_nat
    (length
       (filter (λ o, nodeIsAnd aig o = false
                     ∧ (nodeIsInput aig o || (o <? 2)) = true) outputs)).

(** What [printResults] reports after a run: LUT count and levels. *)
Definition report (r : result TechMapper) : result (Z * Z) :=
  tm ← r; OK (_mappingAreaCost tm, _mappingDelayCost tm).

(** Running [TechMapper::run] twice on the same object. *)
Definition runTwice (fuel : nat) (tm : TechMapper) : result TechMapper :=
  tm1 ← TechMapper_run fuel tm; TechMapper_run fuel tm1.

(** ** Well-formed cuts and engine states *)

(** The and-variables of a design. *)
Definition isAndVariable (aig : AndInverterGraph) (v : Z) : Prop :=
  _numInputs aig + _numLatches aig < v
  ≤ _numInputs aig + _numLatches aig + _numAnds aig.

(** The implementation map has an entry for every literal that
    [estimateUnionCutAreaCost] looks up. *)
Definition keys_ok (e : CutEngine) : Prop :=
  ∀ v, nodeIsAnd (_aig e) (literalFromIndex v) = true →
       is_Some (_implementationMap e !! literalFromIndex v).

(** A cut that diamond can combine: its leaves are variables (their
    literals fit in 32 bits), there is one at least, and its three costs
    are set. *)
Definition cut_input (cut : Cut) : Prop :=
  _nodeVariables cut ≠ ∅
  ∧ (∀ x, x ∈ _nodeVariables cut → 0 ≤ x < 2147483648)
  ∧ allCostsSet cut = true.

(** The cut diamond stores for the union of [cutA] and [cutB], in the
    words of the specification. *)
Definition unionCutOf (e : CutEngine) (cutA cutB : Cut) : Cut :=
  let leaves := _nodeVariables cutA ∪ _nodeVariables cutB in
  mkCut leaves (Z.of_nat (size (unimplementedLeaves e leaves)))
        (Z.max (_delayCost cutA) (_delayCost cutB)) 0.

(** Duplicates by leaf set merged, the first occurrence kept. *)
Fixpoint mergeByLeaves (acc : CutSet) (cuts : list Cut) : CutSet :=
  match cuts with
  | [] => acc
  | cut :: rest =>
      if decide (_nodeVariables cut ∈ (_nodeVariables <$> acc))
      then mergeByLeaves acc rest
      else mergeByLeaves (acc ++ [cut]) rest
  end.

Definition withinK (k : Z) (cut : Cut) : Prop :=
  Z.of_nat (size (_nodeVariables cut)) ≤ k.

#[global] Instance withinK_dec k cut : Decision (withinK k cut).
Proof. unfold withinK. apply _. Defined.

(** Diamond in the words of the specification: the pairwise unions with at
    most [k] leaves, in the order of the product, duplicates merged. *)
Definition diamondSpec (e : CutEngine) (cutSetA cutSetB : CutSet) (k : Z)
  : CutSet :=
  mergeByLeaves []
    (filter (withinK k)
       (cutSetA ≫= λ cutA, cutSetB ≫= λ cutB, [unionCutOf e cutA cutB])).

(** A cut stored for the and-variable [v] by an engine with parameter
    [k]. *)
Definition cut_ok (k v : Z) (cut : Cut) : Prop :=
  _nodeVariables cut ≠ ∅
  ∧ (∀ x, x ∈ _nodeVariables cut → 1 ≤ x < v)
  ∧ Z.of_nat (size (_nodeVariables cut)) ≤ k
  ∧ 0 ≤ _areaCost cut < UINT_MAX
  ∧ 1 ≤ _delayCost cut ≤ v
  ∧ _powerCost cut = 0.

(** The least the index computations of the engine need: a design that
    passed the integrity checks and one cut set per and-node. *)
Definition engine_shape (e : CutEngine) : Prop :=
  integrityChecks (_aig e) = true
  ∧ Z.of_nat (length (_cutSetVector e)) = _numAnds (_aig e).

(** [m'] is [m] with the entries of some and-nodes of variable below
    [bound], under their even literals, reset to [false]: what absorbing
    children does. *)
Definition falsified (aig : AndInverterGraph) (bound : Z)
    (m m' : gmap Z bool) : Prop :=
  ∀ key, m' !! key = m !! key
         ∨ ∃ v, isAndVariable aig v ∧ v < bound ∧ key = 2 * v
                ∧ m' !! key = Some false.

(** The invariant of the engine states. The last two fields say how the
    implementation map and the cut sets go together: a node without a cut
    set has never been marked, and a node that has an entry under its odd
    literal has the entry [false] under its even one. *)
Record engine_inv (e : CutEngine) : Prop := mkEngineInv {
  inv_aig : integrityChecks (_aig e) = true;
  inv_k : 2 ≤ _k e;
  inv_length : Z.of_nat (length (_cutSetVector e)) = _numAnds (_aig e);
  inv_keys : ∀ v, isAndVariable (_aig e) v →
                  is_Some (_implementationMap e !! (2 * v));
  inv_cuts : ∀ v cut, isAndVariable (_aig e) v → cut ∈ cutSetOf e v →
                      cut_ok (_k e) v cut;
  inv_odd : ∀ v, isAndVariable (_aig e) v →
                 is_Some (_implementationMap e !! (2 * v + 1)) →
                 _implementationMap e !! (2 * v) = Some false;
  inv_empty : ∀ v, isAndVariable (_aig e) v → cutSetOf e v = [] →
                   _implementationMap e !! (2 * v + 1) = None
                   ∧ _implementationMap e !! (2 * v) = Some false
}.

(** The work stack of [findCuts]: and-nodes without a cut set, each a
    descendant of the one below it. *)
Definition stack_ok (e : CutEngine) (processingStack : list Z) : Prop :=
  Forall (λ t, nodeIsAnd (_aig e) t = true
               ∧ cutSetOf e (indexFromLiteral t) = []) processingStack
  ∧ StronglySorted (λ t t', indexFromLiteral t < indexFromLiteral t')
                   processingStack.

(** ** Relations between states

    What [findCuts] leaves alone in the engine. *)

Definition same_config (e e' : CutEngine) : Prop :=
  _aig e' = _aig e ∧ _k e' = _k e ∧ _c e' = _c e
  ∧ _mappingGoal e' = _mappingGoal e
  ∧ length (_cutSetVector e') = length (_cutSetVector e).

(** What a step of [run] never undoes: the design, the nodes already
    marked, the depth reached. *)
Definition mapper_le (tm tm' : TechMapper) : Prop :=
  _aig (_cutEngine tm') = _aig (_cutEngine tm)
  ∧ (∀ key, _mapperImplementationMap tm !! key = Some true →
            _mapperImplementationMap tm' !! key = Some true)
  ∧ _mappingDelayCost tm ≤ _mappingDelayCost tm'.

(** ** Definitions for the further properties *)

Definition isCombinational (aig : AndInverterGraph) : bool :=
  if _numLatches aig =? 0 then true else false.

Definition isSequential (aig : AndInverterGraph) : bool :=
  if _numLatches aig >? 0 then true else false.

(** The cut set phi combines for a child that is an input or an and-node
    with a cut set: the child's cuts followed by its autocut. *)
Definition childCuts (e : CutEngine) (childLiteral : Z) : CutSet :=
  if nodeIsInput (_aig e) childLiteral
  then [mkCut {[ childLiteral / 2 ]} 0 1 0]
  else match cutSetOf e (childLiteral / 2) with
       | [] => []
       | bestCut :: rest =>
           (bestCut :: rest)
           ++ [mkCut {[ childLiteral / 2 ]} (_areaCost bestCut)
                     (1 + _delayCost bestCut) 0]
       end.

(** What [findCuts] stores of the cut set phi returned. *)
Definition storedCuts (e : CutEngine) (cutSet : CutSet) : CutSet :=
  if _c e >? 0
  then sortAndChooseBestCuts cutSet (_c e) (_mappingGoal e)
  else sortCutSet cutSet (_mappingGoal e).

(** The number of and-nodes without a cut set. *)
Definition unprocessed (cutSets : list CutSet) : nat :=
  length (filter (λ cutSet : CutSet, cutSet = []) cutSets).

(** Iterations that are enough for any call of [findCuts] on a design. *)
Definition enoughFuel (aig : AndInverterGraph) (fuel : nat) : Prop :=
  (_numAnds aig + 1) * (_maxVariableIndex aig + 1) ≤ Z.of_nat fuel.

(** A set of variables that separates the variable [v] from the rest of
    the design: [v] is one of them, or [v] is an and-node and the set
    separates the variables of both its children. *)
Inductive covers (aig : AndInverterGraph) (leaves : gset Z) : Z → Prop :=
  | covers_leaf v : v ∈ leaves → covers aig leaves v
  | covers_and v an :
      0 ≤ v < 2147483648 →
      getAndNodeFromLiteral aig (literalFromIndex v) = OK an →
      covers aig leaves (indexFromLiteral (_firstChild an)) →
      covers aig leaves (indexFromLiteral (_secondChild an)) →
      covers aig leaves v.

(** The value of a literal under a valuation of the variables, and the
    valuations that respect the and-nodes of a design. *)
Definition literalValue (ρ : Z → bool) (l : Z) : bool :=
  xorb (ρ (indexFromLiteral l)) (Z.odd l).

Definition respectsAnds (aig : AndInverterGraph) (ρ : Z → bool) : Prop :=
  ∀ v an, 0 ≤ v < 2147483648 →
          getAndNodeFromLiteral aig (literalFromIndex v) = OK an →
          ρ v = literalValue ρ (_firstChild an)
                && literalValue ρ (_secondChild an).

(** [cutA] does not come after [cutB] in the order of the mapping goal. *)
Definition notAfter (mappingGoal : MappingGoal) (cutA cutB : Cut) : Prop :=
  goalComparision mappingGoal cutB cutA = false.

(** A frontier of [TechMapper::run]: and-literals with a cut set, of
    variable below [bound]. *)
Definition frontier_ok (e : CutEngine) (bound : Z) (X : gset Z) : Prop :=
  ∀ l, l ∈ X → nodeIsAnd (_aig e) l = true
               ∧ cutSetOf e (l / 2) ≠ [] ∧ l / 2 < bound.

(** Every node the mapper marked has a best cut in the engine. *)
Definition marks_ok (tm : TechMapper) : Prop :=
  ∀ key, _mapperImplementationMap tm !! key = Some true →
         nodeIsAnd (_aig (_cutEngine tm)) key = true
         ∧ cutSetOf (_cutEngine tm) (key / 2) ≠ [].

(** The order of the mapping goal written out on the two costs. *)
Definition costsNotAfter (mappingGoal : MappingGoal) (cutA cutB : Cut)
  : Prop :=
  match mappingGoal with
  | MinimizeArea =>
      _areaCost cutA < _areaCost cutB
      ∨ (_areaCost cutA = _areaCost cutB ∧ _delayCost cutA ≤ _delayCost cutB)
  | MinimizeDelay =>
      _delayCost cutA < _delayCost cutB
      ∨ (_delayCost cutA = _delayCost cutB ∧ _areaCost cutA ≤ _areaCost cutB)
  end.

(** The engines constructed over [aigChain] with k = 3: without pruning
    (c = 0) and keeping one cut per node (c = 1). *)
Definition engineChain : CutEngine :=
  mkCutEngine [[]; []; []] MinimizeArea
    {[ 8 := false; 10 := false; 12 := false ]} aigChain 3 0.

Definition engineChainPruned : CutEngine :=
  mkCutEngine [[]; []; []] MinimizeArea
    {[ 8 := false; 10 := false; 12 := false ]} aigChain 3 1.

(** The three cuts [findCuts] stores for node 12 of [aigChain], k = 3. *)
Definition cutsOfNode12 : CutSet :=
  [mkCut {[ 1; 2; 3 ]} 0 1 0; mkCut {[ 1; 5 ]} 0 2 0;
   mkCut {[ 1; 3; 4 ]} 1 2 0].

(** The depth an output literal contributes to the levels [run] reports:
    the delay of its best cut for an and-node, 1 for a primary input or a
    constant, nothing for a latch. *)
Definition outputDepth (e : CutEngine) (outputLiteral : Z) : Z :=
  if nodeIsAnd (_aig e) outputLiteral then
    match getBestCut e outputLiteral with
    | OK bestCut => getDelayCost bestCut
    | Err _ => 0
    end
  else if nodeIsInput (_aig e) outputLiteral || (outputLiteral <? 2) then 1
  else 0.

Definition maxDepth (depths : list Z) : Z := foldr Z.max 0 depths.

(** Every node the mapper marked has a best cut no deeper than the levels
    counted so far. *)
Definition depth_ok (tm : TechMapper) : Prop :=
  ∀ key, _mapperImplementationMap tm !! key = Some true →
         ∃ bestCut rest,
           nodeIsAnd (_aig (_cutEngine tm)) key = true
           ∧ cutSetOf (_cutEngine tm) (key / 2) = bestCut :: rest
           ∧ _delayCost bestCut ≤ _mappingDelayCost tm.

(** A frontier of [run] whose nodes have best cuts of delay [depth] at
    most. *)
Definition frontier_depth (e : CutEngine) (depth : Z) (X : gset Z) : Prop :=
  ∀ l, l ∈ X → ∃ bestCut rest,
                 nodeIsAnd (_aig e) l = true
                 ∧ cutSetOf e (l / 2) = bestCut :: rest
                 ∧ _delayCost bestCut ≤ depth.

(** The keys of an implementation map whose entry is [true]. *)
Definition marked (m : gmap Z bool) : gset Z :=
  dom (filter (λ entry : Z * bool, entry.2 = true) m).

(** The number of nodes the mapper marked. *)
Definition markedCount (tm : TechMapper) : Z :=
  Z.of_nat (size (marked (_mapperImplementationMap tm))).

(** The mapper marks even and-literals only. *)
Definition even_marks (tm : TechMapper) : Prop :=
  ∀ key, _mapperImplementationMap tm !! key = Some true → key mod 2 = 0.

(** The test of [findCuts] for taking a child out of the implementation:
    the child is an and-node and the leaves of its best cut are among the
    leaves of the best cut of its parent. *)
Definition absorbs (e : CutEngine) (bestCut : Cut) (childLiteral : Z) : bool :=
  nodeIsAnd (_aig e) childLiteral
  && match getBestCut e childLiteral with
     | OK childBestCut =>
         bool_decide (getVariableSet childBestCut ⊆ getVariableSet bestCut)
     | Err _ => false
     end.

Definition absorbMap (e : CutEngine) (bestCut : Cut) (childLiteral : Z)
    (m : gmap Z bool) : gmap Z bool :=
  if absorbs e bestCut childLiteral
  then <[evenLiteral childLiteral := false]> m
  else m.

(** [AndInverterGraph::getFirstLatchLiteral]. *)
Definition getFirstLatchLiteral (aig : AndInverterGraph) : Z :=
  literalFromIndex (wrap (wrap (0 + _numInputs aig) + 1)).



(** [AndInverterGraph::literalFromLatchVectorIndex]; [None] stands for the
    exception "... is not a valid latch literal for the given AIG". *)
Definition literalFromLatchVectorIndex (aig : AndInverterGraph)
    (latchVectorIndex : Z) : option Z :=
  let latchLiteral :=
    literalFromIndex (wrap (wrap (latchVectorIndex + _numInputs aig) + 1)) in
  if latchLiteral >? literalFromIndex (wrap (_numInputs aig + 1))
  then None
  else Some latchLiteral.

(** A design with one input and the latches 4 and 6. *)
Definition aigTwoLatches : AndInverterGraph :=
  mkAndInverterGraph 3 1 2 0 0 [] [].

(** [Cut::unsetAreaCost] and the like, [Cut::areaCostsSet] and the like. *)
Definition unsetAreaCost (cut : Cut) : Cut :=
  mkCut (_nodeVariables cut) UINT_MAX (_delayCost cut) (_powerCost cut).

Definition unsetDelayCost (cut : Cut) : Cut :=
  mkCut (_nodeVariables cut) (_areaCost cut) UINT_MAX (_powerCost cut).

Definition unsetPowerCost (cut : Cut) : Cut :=
  mkCut (_nodeVariables cut) (_areaCost cut) (_delayCost cut) UINT_MAX.

Definition areaCostsSet (cut : Cut) : bool :=
  if _areaCost cut =? UINT_MAX then false else true.

Definition delayCostsSet (cut : Cut) : bool :=
  if _delayCost cut =? UINT_MAX then false else true.

Definition powerCostsSet (cut : Cut) : bool :=
  if _powerCost cut =? UINT_MAX then false else true.

(** The keys of the mapper's implementation map are the even literals of
    the and-nodes. *)
Definition keys_kept (tm : TechMapper) : Prop :=
  ∀ key, is_Some (_mapperImplementationMap tm !! key)
         ↔ nodeIsAnd (_aig (_cutEngine tm)) key = true ∧ key mod 2 = 0.

(** The leaves of a cut that are and-nodes. *)
Definition andLeaves (aig : AndInverterGraph) (cut : Cut) : gset Z :=
  filter (λ nodeIndex, nodeIsAnd aig (literalFromIndex nodeIndex) = true)
         (_nodeVariables cut).


(** * Properties *)

(** ** The scenarios of the specification *)

(** The engines written out above are the ones the constructor builds. *)
Lemma constructed_engines :
  CutEngine_new aigSingleAnd MinimizeArea 2 0 = OK engineSingleAnd
  ∧ CutEngine_new aigShared MinimizeArea 2 0 = OK engineShared
  ∧ CutEngine_new aigLatchChild MinimizeArea 2 0 = OK engineLatchChild
  ∧ CutEngine_new aigNegatedOutput MinimizeArea 2 0 = OK engineNegatedOutput.
Proof. repeat split; vm_compute; reflexivity. Qed.

(** S1, S2 and the second half of S3 run as the specification says. *)
Example scenario_S1 :
  report (pipeline 10 aigSingleAnd MinimizeArea 2 0) = OK (1, 1).
Proof. vm_compute. reflexivity. Qed.

Example scenario_S2 :
  report (pipeline 10 aigChain MinimizeArea 2 0) = OK (3, 3)
  ∧ report (pipeline 10 aigChain MinimizeArea 3 0) = OK (1, 1).
Proof. split; vm_compute; reflexivity. Qed.

Example scenario_S3_k3 :
  report (pipeline 10 aigShared MinimizeArea 3 0) = OK (2, 1).
Proof. vm_compute. reflexivity. Qed.

(** C1, as the code behaves: on the design with inputs 2 and 4, and-nodes
    6 = 4 ∧ 2, 8 = 6 ∧ 2, 10 = 6 ∧ 4 and outputs 8 and 10, the pipeline
    with k = 2, c = 0 and goal MinimizeArea reports LUT count 2 and
    Levels 1: both outputs are functions of the two primary inputs, and the
    cut {1, 2} is the best cut of each. *)
Theorem shared_subexpression_k2_report :
  integrityChecks aigShared = true
  ∧ report (pipeline 10 aigShared MinimizeArea 2 0) = OK (2, 1).
Proof. split; vm_compute; reflexivity. Qed.

(** C1, as stated (LUT count 3, Levels 2), does not hold. *)
Lemma shared_subexpression_k2_not_3_2 :
  report (pipeline 10 aigShared MinimizeArea 2 0) ≠ OK (3, 2).
Proof. vm_compute. discriminate. Qed.

(** ** Cut algebra *)

(** C9: the union of two cuts raises exactly when one operand has no
    variables; otherwise it is the cut of the united variable sets with the
    three costs at the reserved value, which [allCostsSet] reports as
    unset; and two cuts are equal exactly when their variable sets are. *)
Theorem Cut_union_and_equality (x y : Cut) :
  ((∃ err, Cut_union x y = Err err)
     ↔ (_nodeVariables x = ∅ ∨ _nodeVariables y = ∅))
  ∧ (∀ u, Cut_union x y = OK u
          ↔ (_nodeVariables x ≠ ∅ ∧ _nodeVariables y ≠ ∅
             ∧ u = mkCut (_nodeVariables x ∪ _nodeVariables y)
                         UINT_MAX UINT_MAX UINT_MAX))
  ∧ allCostsSet (mkCut (_nodeVariables x ∪ _nodeVariables y)
                       UINT_MAX UINT_MAX UINT_MAX) = false
  ∧ (Cut_eqb x y = true ↔ _nodeVariables x = _nodeVariables y).
Proof.
  unfold Cut_union, Cut_eqb.
  repeat split.
  - intros [err H].
    destruct (bool_decide_reflect (_nodeVariables x = ∅)); [by left|].
    destruct (bool_decide_reflect (_nodeVariables y = ∅)); [by right|].
    discriminate H.
  - intros [H | H]; exists EmptyCutUnion.
    + by rewrite (bool_decide_eq_true_2 _ H).
    + rewrite (bool_decide_eq_true_2 _ H). by rewrite orb_true_r.
  - destruct (bool_decide_reflect (_nodeVariables x = ∅)); [discriminate|done].
  - destruct (bool_decide_reflect (_nodeVariables x = ∅)); [discriminate|].
    destruct (bool_decide_reflect (_nodeVariables y = ∅)); [discriminate|done].
  - destruct (bool_decide_reflect (_nodeVariables x = ∅)); [discriminate|].
    destruct (bool_decide_reflect (_nodeVariables y = ∅)); [discriminate|].
    simpl in H. by inversion H.
  - intros (Hx & Hy & ->).
    rewrite (bool_decide_eq_false_2 _ Hx), (bool_decide_eq_false_2 _ Hy).
    reflexivity.
  - by case_bool_decide.
  - intros H. by rewrite (bool_decide_eq_true_2 _ H).
Qed.

(** ** Comparators *)

(** C4 at a failing input: two cuts with equal area and delay and one and
    two leaves. Neither comparator puts the smaller cut first; both answer
    [false] in both directions. *)
Lemma comparators_ignore_leaf_count :
  let cutA := mkCut {[ 1 ]} 0 1 0 in
  let cutB := mkCut {[ 1; 2 ]} 0 1 0 in
  numNodeVariables cutA = 1 ∧ numNodeVariables cutB = 2
  ∧ cutAreaComparision cutA cutB = false
  ∧ cutAreaComparision cutB cutA = false
  ∧ cutDelayComparision cutA cutB = false
  ∧ cutDelayComparision cutB cutA = false.
Proof. vm_compute. repeat split; reflexivity. Qed.

(** What the comparators decide: the lexicographic order on two keys. *)
Lemma comparators_two_keys (cutA cutB : Cut) :
  (cutAreaComparision cutA cutB = true
     ↔ _areaCost cutA < _areaCost cutB
       ∨ (_areaCost cutA = _areaCost cutB ∧ _delayCost cutA < _delayCost cutB))
  ∧ (cutDelayComparision cutA cutB = true
     ↔ _delayCost cutA < _delayCost cutB
       ∨ (_delayCost cutA = _delayCost cutB ∧ _areaCost cutA < _areaCost cutB)).
Proof.
  unfold cutAreaComparision, cutDelayComparision, getAreaCost, getDelayCost.
  split.
  - destruct (Z.ltb_spec (_areaCost cutA) (_areaCost cutB)); [intuition lia|].
    destruct (Z.eqb_spec (_areaCost cutA) (_areaCost cutB));
      [|intuition (lia || discriminate)].
    destruct (Z.ltb_spec (_delayCost cutA) (_delayCost cutB));
      intuition (lia || discriminate).
  - destruct (Z.ltb_spec (_delayCost cutA) (_delayCost cutB)); [intuition lia|].
    destruct (Z.eqb_spec (_delayCost cutA) (_delayCost cutB));
      [|intuition (lia || discriminate)].
    destruct (Z.ltb_spec (_areaCost cutA) (_areaCost cutB));
      intuition (lia || discriminate).
Qed.

(** ** Latch children *)

Lemma latch_is_neither_input_nor_and (aig : AndInverterGraph) (l : Z) :
  nodeIsLatch aig l = true → nodeIsInput aig l = false ∧ nodeIsAnd aig l = false.
Proof.
  unfold nodeIsLatch, nodeIsInput, nodeIsAnd.
  destruct (l <=? 1); [discriminate|].
  repeat case_match; try discriminate; try done; intros _; exfalso;
    repeat match goal with
           | H : (_ && _) = true |- _ => apply andb_true_iff in H; destruct H
           end; lia.
Qed.

(** C3, as the code behaves: a latch literal is rejected both where phi
    fetches the child's cut set and where it builds the autocut, so phi
    raises on every and-node without a cut set one of whose children is a
    latch. Only a primary input starts from an empty cut set and gets the
    autocut with area 0, delay 1 and power 0. *)
Theorem phi_rejects_latch_child (e : CutEngine) (l : Z) :
  nodeIsLatch (_aig e) l = true →
  generateAutoCut e l = Err NeitherInputNorAnd
  ∧ childCutSet e l = Err NotAnAndLiteral
  ∧ (∀ a an,
        getCutSet e a = OK [] →
        getAndNodeFromLiteral (_aig e) a = OK an →
        _firstChild an = l ∨ _secondChild an = l →
        ∃ err, phiOperation e a = Err err)
  ∧ (∀ i, nodeIsInput (_aig e) i = true →
          childCutSet e i = OK []
          ∧ generateAutoCut e i = OK (mkCut {[ indexFromLiteral i ]} 0 1 0)).
Proof.
  intros Hl.
  destruct (latch_is_neither_input_nor_and _ _ Hl) as [Hni Hna].
  assert (Hchild : childCutSet e l = Err NotAnAndLiteral).
  { unfold childCutSet, getCutSet. by rewrite Hni, Hna. }
  assert (Hunp : isUnprocessedAnd e l = OK false).
  { unfold isUnprocessedAnd. by rewrite Hna. }
  split; [unfold generateAutoCut; by rewrite Hni, Hna|].
  split; [done|].
  split.
  - intros a an Hcs Han Hor.
    unfold phiOperation.
    assert (Ha : nodeIsAnd (_aig e) a = true).
    { unfold getCutSet in Hcs. by destruct (nodeIsAnd (_aig e) a). }
    rewrite Ha, Hcs. simpl. rewrite Han. simpl.
    destruct Hor as [-> | ->].
    + rewrite Hunp. simpl.
      destruct (isUnprocessedAnd e (_secondChild an)) as [[]|]; simpl; eauto.
      rewrite Hchild. simpl. eauto.
    + destruct (isUnprocessedAnd e (_firstChild an)) as [[]|]; simpl; eauto.
      rewrite Hunp. simpl.
      destruct (childCutSet e (_firstChild an)); simpl; eauto.
      rewrite Hchild. simpl. eauto.
  - intros i Hi. unfold childCutSet, generateAutoCut. by rewrite Hi.
Qed.

Lemma phi_rejects_latch_child_witness :
  ∃ err, phiOperation engineLatchChild 6 = Err err.
Proof.
  refine (proj1 (proj2 (proj2
            (phi_rejects_latch_child engineLatchChild 4 _))) 6
            (mkAndNode 4 2) _ _ _).
  - reflexivity.
  - reflexivity.
  - reflexivity.
  - left. reflexivity.
Defined.

(** C3, as stated, does not hold: on the design with input 2, latch 4 and
    the and-node 6 = 4 ∧ 2, phi raises at node 6. *)
Lemma phi_latch_child_fails :
  integrityChecks aigLatchChild = true
  ∧ CutEngine_new aigLatchChild MinimizeArea 2 0 = OK engineLatchChild
  ∧ nodeIsLatch aigLatchChild 4 = true
  ∧ getAndNodeFromLiteral aigLatchChild 6 = OK (mkAndNode 4 2)
  ∧ phiOperation engineLatchChild 6 = Err NotAnAndLiteral
  ∧ is_OK (findCuts 10 engineLatchChild 6) = false.
Proof. repeat split; vm_compute; reflexivity. Qed.

(** ** The command-line driver *)

Lemma printImplementationEntries_extends e m nodes os :
  ∃ more, (printImplementationEntries e m nodes os).1 = os ++ more.
Proof.
  revert os. induction nodes as [|node rest IH]; intros os; simpl.
  - exists []. by rewrite app_nil_r.
  - destruct (m !! node) as [[]|].
    + destruct (getBestCut e node).
      * destruct (IH (os ++ [ImplementedLine node a])) as [more ->].
        rewrite <- app_assoc. eauto.
      * simpl. eauto.
    + destruct (IH (os ++ [NotImplementedLine node])) as [more ->].
      rewrite <- app_assoc. eauto.
    + destruct (IH (os ++ [NotImplementedLine node])) as [more ->].
      rewrite <- app_assoc. eauto.
Qed.

Lemma printImplementation_extends e m os :
  ∃ more, (printImplementation e m os).1 = os ++ more.
Proof.
  unfold printImplementation.
  destruct (printImplementationEntries_extends e m (ascending (dom m))
              (os ++ [ImplementationHeaderLine])) as [more ->].
  rewrite <- app_assoc. eauto.
Qed.

Lemma printCutSets_extends e i cutSets os :
  ∃ more, (printCutSets e i cutSets os).1 = os ++ more.
Proof.
  revert i os. induction cutSets as [|cutSet rest IH]; intros i os; simpl.
  - exists []. by rewrite app_nil_r.
  - destruct (andLiteralFromVectorIndex e i); simpl.
    + destruct cutSet.
      * destruct (IH (i + 1) ((os ++ [NodeHeaderLine a]) ++ [NoCutSetLine]))
          as [more ->].
        rewrite <- !app_assoc. eauto.
      * destruct (IH (i + 1)
                    ((os ++ [NodeHeaderLine a]) ++ (CutLine <$> c :: cutSet)))
          as [more ->].
        rewrite <- !app_assoc. eauto.
    + exists []. by rewrite app_nil_r.
Qed.

Lemma printCutEngine_extends e os :
  ∃ more, (printCutEngine e os).1 = os ++ more.
Proof.
  unfold printCutEngine.
  destruct (printCutSets_extends e 0 (_cutSetVector e)
              (os ++ [EngineHeaderLine])) as [more ->].
  rewrite <- app_assoc. eauto.
Qed.

(** C6, as the code behaves: every invocation exits with code 0. When an
    exception leaves the body, one diagnostic line with its message goes to
    standard error (and what had been printed stays on standard output);
    when the body completes, standard error is empty and standard output
    starts with the three lines of the report. *)
Theorem main_exit_code_and_streams (fuel : nat) (cl : CommandLine) :
  exitCode (main fuel cl) = 0
  ∧ match argInputFile cl with
    | None => stdoutLines (main fuel cl) = [] ∧ stderrLines (main fuel cl) = []
    | Some load =>
        match mainBody fuel load (mainGoal cl) (mainK cl) (mainC cl) with
        | (os, Some err) =>
            stdoutLines (main fuel cl) = os
            ∧ stderrLines (main fuel cl) = [ErrorLine err]
        | (os, None) =>
            stderrLines (main fuel cl) = []
            ∧ ∃ aig cutEngine techMapper more,
                load = OK aig
                ∧ CutEngine_new aig (mainGoal cl) (wrap (mainK cl))
                                (wrap (mainC cl)) = OK cutEngine
                ∧ TechMapper_run fuel (TechMapper_new cutEngine)
                  = OK techMapper
                ∧ stdoutLines (main fuel cl)
                  = [ResultsHeaderLine;
                     LutCountLine (_mappingAreaCost techMapper);
                     LevelsLine (_mappingDelayCost techMapper)] ++ more
        end
    end.
Proof.
  unfold main. split.
  - destruct (argInputFile cl) as [load|]; [|done].
    by destruct (mainBody _ _ _ _ _) as [os [err|]].
  - destruct (argInputFile cl) as [load|]; [|done].
    destruct (mainBody _ _ _ _ _) as [os [err|]] eqn:Hbody; [done|].
    split; [done|]. simpl.
    unfold mainBody in Hbody.
    destruct load as [aig|]; [|discriminate].
    destruct (CutEngine_new _ _ _ _) as [cutEngine|] eqn:Hnew; [|discriminate].
    destruct (TechMapper_run _ _) as [techMapper|] eqn:Hrun; [|discriminate].
    destruct (printImplementation_extends (_cutEngine techMapper)
                (_mapperImplementationMap techMapper)
                (printResults techMapper [])) as [more1 H1].
    destruct (printImplementation _ _ _) as [os2 [err2|]]; [discriminate|].
    destruct (printCutEngine_extends (_cutEngine techMapper) os2)
      as [more2 H2].
    destruct (printCutEngine _ _) as [os3 [err3|]]; [discriminate|].
    destruct (printImplementation_extends (_cutEngine techMapper)
                (_implementationMap (_cutEngine techMapper)) os3)
      as [more3 H3].
    rewrite Hbody in H3. simpl in H1, H2, H3. subst os os3 os2.
    exists aig, cutEngine, techMapper, (more1 ++ more2 ++ more3).
    repeat split; [done..|]. simpl.
    by rewrite <- app_assoc.
Qed.

(** C6, as stated, does not hold: with k = 1 the engine's constructor
    raises, the message goes to standard error, and the exit code is 0. *)
Lemma main_failure_exits_with_zero :
  main 10 (mkCommandLine (Some (OK aigSingleAnd)) (Some 1) None None)
  = mkProcessOutcome 0 [] [ErrorLine KLessThanTwo].
Proof. vm_compute. reflexivity. Qed.

(** ** Reasoning about [result] *)

Lemma bind_OK {A B} (m : result A) (f : A → result B) (b : B) :
  m ≫= f = OK b ↔ ∃ a, m = OK a ∧ f a = OK b.
Proof.
  destruct m as [a|err]; simpl.
  - split; [eauto|]. by intros (a' & [= <-] & H).
  - split; [discriminate|]. by intros (a' & [=] & _).
Qed.

Ltac bind_inv H :=
  let x := fresh "x" in
  let Hx := fresh "H" x in
  apply bind_OK in H as (x & Hx & H).

Tactic Notation "bind_as" hyp(H) simple_intropattern(x) ident(Hx) :=
  apply bind_OK in H as (x & Hx & H).

Lemma vector_at_OK {A} (v : list A) (i : Z) (x : A) :
  vector_at v i = OK x ↔ 0 ≤ i ∧ v !! Z.to_nat i = Some x.
Proof.
  unfold vector_at. destruct (Z.ltb_spec i 0).
  - split; [discriminate|lia].
  - destruct (v !! Z.to_nat i); split; try discriminate.
    + intros [= ->]. done.
    + by intros [_ [= ->]].
    + by intros [_ [=]].
Qed.

(** ** What [findCuts] leaves alone *)

Lemma same_config_refl e : same_config e e.
Proof. by repeat split. Qed.

Lemma same_config_trans e1 e2 e3 :
  same_config e1 e2 → same_config e2 e3 → same_config e1 e3.
Proof. unfold same_config. intuition congruence. Qed.

Lemma absorbChild_config e bestCut childLiteral e' :
  absorbChild e bestCut childLiteral = OK e' → same_config e e'.
Proof.
  unfold absorbChild. intros H.
  destruct (nodeIsAnd _ _); [|injection H as <-; apply same_config_refl].
  bind_inv H.
  case_bool_decide; injection H as <-; by repeat split.
Qed.

Lemma processNode_config e t c0 c1 e' :
  processNode e t c0 c1 = OK e' → same_config e e'.
Proof.
  unfold processNode. intros H.
  bind_inv H. bind_inv H. bind_inv H.
  set (e1 := set_cutSetVector e _) in *.
  assert (H1 : same_config e e1).
  { repeat split. simpl. by rewrite length_insert. }
  destruct (getAreaCost x1 =? 0).
  - bind_inv H.
    apply absorbChild_config in Hx2, H.
    eapply same_config_trans; [exact H1|].
    eapply same_config_trans; [|exact H].
    eapply same_config_trans; [|exact Hx2].
    by repeat split.
  - by injection H as <-.
Qed.

Lemma findCutsStep_config e t stack e' stack' :
  findCutsStep e t stack = OK (e', stack') → same_config e e'.
Proof.
  unfold findCutsStep. intros H.
  bind_inv H. bind_inv H.
  destruct x0; [injection H as <- <-; apply same_config_refl|].
  bind_inv H.
  destruct x0; [injection H as <- <-; apply same_config_refl|].
  bind_inv H. injection H as <- <-.
  by eapply processNode_config.
Qed.

Lemma findCutsLoop_config fuel e stack e' :
  findCutsLoop fuel e stack = OK e' → same_config e e'.
Proof.
  revert e stack. induction fuel as [|fuel IH]; intros e stack H.
  - destruct stack; [injection H as <-; apply same_config_refl|discriminate].
  - destruct stack as [|t rest]; [injection H as <-; apply same_config_refl|].
    simpl in H. bind_inv H. destruct x as [e1 stack1].
    eapply same_config_trans; [by eapply findCutsStep_config|by eapply IH].
Qed.

Lemma findCuts_config fuel e andLiteral e' cutSet :
  findCuts fuel e andLiteral = OK (e', cutSet) → same_config e e'.
Proof.
  unfold findCuts. intros H.
  destruct (negb _); [discriminate|].
  bind_inv H. destruct x.
  - bind_inv H. bind_inv H. destruct x0; [discriminate|].
    bind_inv H. bind_inv H. injection H as <- _.
    by eapply findCutsLoop_config.
  - bind_inv H. bind_inv H. injection H as <- _. apply same_config_refl.
Qed.

(** ** Running the mapper twice *)

Section MapperMonotone.

Lemma mapper_le_refl tm : mapper_le tm tm.
Proof. by repeat split. Qed.

Lemma mapper_le_trans tm1 tm2 tm3 :
  mapper_le tm1 tm2 → mapper_le tm2 tm3 → mapper_le tm1 tm3.
Proof.
  intros (A1 & M1 & D1) (A2 & M2 & D2).
  repeat split; [congruence|auto|lia].
Qed.

Lemma map_subscript_keeps m key m' b key' :
  map_subscript m key = (m', b) →
  m !! key' = Some true → m' !! key' = Some true.
Proof.
  unfold map_subscript. destruct (m !! key) eqn:E.
  - by intros [= <- _].
  - intros [= <- _] H. rewrite lookup_insert_ne; [done|congruence].
Qed.

Lemma map_subscript_marked m key :
  m !! key = Some true → map_subscript m key = (m, true).
Proof. unfold map_subscript. by intros ->. Qed.

Lemma visitNode_le tm nodeLiteral next tm' next' :
  visitNode tm nodeLiteral next = OK (tm', next') → mapper_le tm tm'.
Proof.
  unfold visitNode.
  destruct (map_subscript _ _) as [m implemented] eqn:Hsub.
  destruct implemented; simpl; intros H.
  - injection H as <- _. repeat split; simpl; [|lia].
    intros key. by eapply map_subscript_keeps.
  - bind_inv H. injection H as <- _. repeat split; simpl; [|lia].
    intros key Hkey.
    destruct (decide (nodeLiteral = key)) as [->|Hne].
    + apply lookup_insert_eq.
    + rewrite lookup_insert_ne by done. by eapply map_subscript_keeps.
Qed.

Lemma visitNodes_le nodes tm next tm' next' :
  visitNodes tm nodes next = OK (tm', next') → mapper_le tm tm'.
Proof.
  revert tm next. induction nodes as [|n rest IH]; intros tm next H.
  - injection H as <- _. apply mapper_le_refl.
  - simpl in H. bind_inv H. destruct x as [tm1 next1].
    eapply mapper_le_trans; [by eapply visitNode_le|by eapply IH].
Qed.

Lemma frontierLoop_le fuel tm current tm' :
  frontierLoop fuel tm current = OK tm' → mapper_le tm tm'.
Proof.
  revert tm current. induction fuel as [|fuel IH]; intros tm current H;
    simpl in H; case_bool_decide;
    try (injection H as <-; apply mapper_le_refl); try discriminate.
  bind_inv H. destruct x as [tm1 next1].
  eapply mapper_le_trans; [by eapply visitNodes_le|by eapply IH].
Qed.

(** One output of the first run: nothing is undone, an and-output ends
    marked under its even literal, and an output wired to an input or a
    constant leaves the depth at 1 or more. *)
Lemma mapOutput_post fuel tm o tm' :
  mapOutput fuel tm o = OK tm' →
  mapper_le tm tm'
  ∧ (nodeIsAnd (_aig (_cutEngine tm)) o = true →
     _mapperImplementationMap tm' !! evenLiteral o = Some true)
  ∧ (nodeIsAnd (_aig (_cutEngine tm)) o = false →
     (nodeIsInput (_aig (_cutEngine tm)) o || (o <? 2)) = true →
     1 ≤ _mappingDelayCost tm').
Proof.
  unfold mapOutput. intros H.
  destruct (nodeIsAnd _ o) eqn:Hand.
  - destruct (map_subscript _ _) as [m implemented] eqn:Hsub.
    destruct implemented; simpl in H.
    + injection H as <-. split; [|split; [|done]].
      * repeat split; simpl; [|lia].
        intros key. by eapply map_subscript_keeps.
      * intros _. simpl. unfold map_subscript in Hsub.
        destruct (_ !! evenLiteral o) as [[]|] eqn:E;
          by injection Hsub as <-.
    + bind_as H [e' cs] Hx. bind_as H best Hbest.
      pose proof (frontierLoop_le _ _ _ _ H) as (Ha & Hm & Hd).
      simpl in Ha, Hm, Hd.
      apply findCuts_config in Hx as (Haig & _).
      split; [|split; [|done]].
      * repeat split; [congruence| |].
        -- intros key Hkey. apply Hm.
           destruct (decide (evenLiteral o = key)) as [->|Hne].
           ++ apply lookup_insert_eq.
           ++ rewrite lookup_insert_ne by done.
              by eapply map_subscript_keeps.
        -- destruct (Z.ltb_spec (_mappingDelayCost tm) (getDelayCost best));
             lia.
      * intros _. apply Hm, lookup_insert_eq.
  - destruct (nodeIsInput _ o || (o <? 2)) eqn:Hdirect.
    + injection H as <-. simpl.
      split; [|split; [done|]].
      * repeat split; simpl; [done|].
        destruct (Z.ltb_spec (_mappingDelayCost tm) 1); lia.
      * intros _ _. destruct (Z.ltb_spec (_mappingDelayCost tm) 1); lia.
    + injection H as <-.
      split; [apply mapper_le_refl|split; [done|discriminate]].
Qed.

Lemma mapOutputs_post fuel outputs tm tm' :
  mapOutputs fuel tm outputs = OK tm' →
  mapper_le tm tm'
  ∧ (∀ o, o ∈ outputs → nodeIsAnd (_aig (_cutEngine tm)) o = true →
          _mapperImplementationMap tm' !! evenLiteral o = Some true)
  ∧ (∀ o, o ∈ outputs → nodeIsAnd (_aig (_cutEngine tm)) o = false →
          (nodeIsInput (_aig (_cutEngine tm)) o || (o <? 2)) = true →
          1 ≤ _mappingDelayCost tm').
Proof.
  revert tm. induction outputs as [|o rest IH]; intros tm H.
  - injection H as <-.
    split; [apply mapper_le_refl|]. split; intros o Ho; by inversion Ho.
  - simpl in H. bind_inv H.
    apply mapOutput_post in Hx as (Hle1 & Hand1 & Hdir1).
    apply IH in H as (Hle2 & Hand2 & Hdir2).
    pose proof Hle1 as (Ha1 & _ & _).
    pose proof Hle2 as (Ha2 & Hm2 & Hd2).
    split; [by eapply mapper_le_trans|].
    split; intros o' Ho'; apply elem_of_cons in Ho' as [->|Ho'].
    + intros Hand. by apply Hm2, Hand1.
    + rewrite <- Ha1. by apply Hand2.
    + intros Hn Hd. specialize (Hdir1 Hn Hd). lia.
    + rewrite <- Ha1. by apply Hdir2.
Qed.

End MapperMonotone.

Lemma wrap_succ_add a n : wrap (wrap (a + 1) + n) = wrap (a + (1 + n)).
Proof. unfold wrap. rewrite Z.add_mod_idemp_l by lia. f_equal. lia. Qed.

Lemma directOutputs_nonneg aig outputs : 0 ≤ directOutputs aig outputs.
Proof. unfold directOutputs. lia. Qed.

Lemma directOutputs_cons_True aig o rest :
  (nodeIsAnd aig o = false ∧ (nodeIsInput aig o || (o <? 2)) = true) →
  directOutputs aig (o :: rest) = 1 + directOutputs aig rest.
Proof.
  intros H. unfold directOutputs. rewrite filter_cons_True by done.
  simpl length. lia.
Qed.

Lemma directOutputs_cons_False aig o rest :
  ¬ (nodeIsAnd aig o = false ∧ (nodeIsInput aig o || (o <? 2)) = true) →
  directOutputs aig (o :: rest) = directOutputs aig rest.
Proof.
  intros H. unfold directOutputs. by rewrite filter_cons_False.
Qed.

(** The second run over a list of outputs whose and-nodes are all marked:
    nothing changes but the area, which is charged again for every output
    wired to an input or a constant. *)
Lemma mapOutputs_again fuel outputs tm :
  (∀ o, o ∈ outputs → nodeIsAnd (_aig (_cutEngine tm)) o = true →
        _mapperImplementationMap tm !! evenLiteral o = Some true) →
  (∀ o, o ∈ outputs → nodeIsAnd (_aig (_cutEngine tm)) o = false →
        (nodeIsInput (_aig (_cutEngine tm)) o || (o <? 2)) = true →
        1 ≤ _mappingDelayCost tm) →
  mapOutputs fuel tm outputs
  = OK (mkTechMapper
          (let n := directOutputs (_aig (_cutEngine tm)) outputs in
           if n =? 0 then _mappingAreaCost tm
           else wrap (_mappingAreaCost tm + n))
          (_mappingDelayCost tm) (_mappingPowerCost tm)
          (_mapperImplementationMap tm) (_cutEngine tm)).
Proof.
  revert tm. induction outputs as [|o rest IH]; intros tm Hand Hdir.
  - by destruct tm.
  - simpl. unfold mapOutput at 1.
    assert (Hand' : ∀ o', o' ∈ rest →
              nodeIsAnd (_aig (_cutEngine tm)) o' = true →
              _mapperImplementationMap tm !! evenLiteral o' = Some true).
    { intros o' Ho'. apply Hand. by right. }
    assert (Hdir' : ∀ o', o' ∈ rest →
              nodeIsAnd (_aig (_cutEngine tm)) o' = false →
              (nodeIsInput (_aig (_cutEngine tm)) o' || (o' <? 2)) = true →
              1 ≤ _mappingDelayCost tm).
    { intros o' Ho'. apply Hdir. by right. }
    pose proof (directOutputs_nonneg (_aig (_cutEngine tm)) rest) as Hn.
    cbv zeta.
    destruct (nodeIsAnd (_aig (_cutEngine tm)) o) eqn:Ho.
    + rewrite (map_subscript_marked _ _ (Hand o ltac:(by left) Ho)). simpl.
      rewrite (directOutputs_cons_False _ o rest)
        by (intros [? _]; congruence).
      destruct tm as [area depth power m e]. simpl in *.
      by rewrite (IH (mkTechMapper area depth power m e)).
    + destruct (nodeIsInput _ o || (o <? 2)) eqn:Hd.
      * pose proof (Hdir o ltac:(by left) Ho Hd) as Hdepth.
        rewrite (directOutputs_cons_True _ o rest) by done.
        destruct (Z.ltb_spec (_mappingDelayCost tm) 1); [lia|].
        simpl. rewrite IH by done. simpl. f_equal. f_equal.
        destruct (Z.eqb_spec (1 + directOutputs (_aig (_cutEngine tm)) rest) 0);
          [lia|].
        destruct (Z.eqb_spec (directOutputs (_aig (_cutEngine tm)) rest) 0)
          as [E|E].
        -- rewrite E. f_equal.
        -- apply wrap_succ_add.
      * rewrite (directOutputs_cons_False _ o rest)
          by (intros [_ ?]; congruence).
        simpl. by rewrite IH.
Qed.

(** C5, as the code behaves: a second call of [run] on the same mapper
    always completes and leaves the depth, the implementation map and the
    engine as the first call left them; the LUT count is charged once more
    (modulo 2^32) for every output literal that is a primary input or a
    constant, and is unchanged when there is no such output. *)
Theorem run_twice_area_and_depth (fuel fuel' : nat) (tm tm1 : TechMapper) :
  TechMapper_run fuel tm = OK tm1 →
  ∃ tm2,
    TechMapper_run fuel' tm1 = OK tm2
    ∧ _mappingDelayCost tm2 = _mappingDelayCost tm1
    ∧ _mappingAreaCost tm2
      = (let n := directOutputs (_aig (_cutEngine tm1))
                    (_outputLiteralVector (_aig (_cutEngine tm1))) in
         if n =? 0 then _mappingAreaCost tm1
         else wrap (_mappingAreaCost tm1 + n))
    ∧ _mapperImplementationMap tm2 = _mapperImplementationMap tm1
    ∧ _cutEngine tm2 = _cutEngine tm1.
Proof.
  unfold TechMapper_run. intros H.
  apply mapOutputs_post in H as ((Haig & _ & _) & Hand & Hdir).
  eexists. split.
  - rewrite Haig. apply mapOutputs_again.
    + intros o Ho. rewrite Haig. by apply Hand.
    + intros o Ho. rewrite Haig. by apply Hdir.
  - simpl. by rewrite Haig.
Qed.

Lemma run_twice_area_and_depth_witness :
  ∃ tm2,
    TechMapper_run 10 (from_OK mapperShared (TechMapper_run 10 mapperShared))
    = OK tm2
    ∧ _mappingDelayCost tm2 = 1
    ∧ _mappingAreaCost tm2 = 2.
Proof.
  destruct (run_twice_area_and_depth 10 10 mapperShared
              (from_OK mapperShared (TechMapper_run 10 mapperShared)))
    as (tm2 & Hrun & Hdepth & Harea & _).
  - vm_compute. reflexivity.
  - exists tm2. split; [exact Hrun|].
    split; [rewrite Hdepth|rewrite Harea]; vm_compute; reflexivity.
Defined.

(** C5, as stated, does not hold: on the design whose only output is the
    input 2, the first run reports one LUT and the second run two. *)
Lemma run_twice_charges_wire_again :
  integrityChecks aigWire = true
  ∧ report (e ← CutEngine_new aigWire MinimizeArea 2 0;
            TechMapper_run 10 (TechMapper_new e)) = OK (1, 1)
  ∧ report (e ← CutEngine_new aigWire MinimizeArea 2 0;
            runTwice 10 (TechMapper_new e)) = OK (2, 1).
Proof. repeat split; vm_compute; reflexivity. Qed.

(** ** Machine arithmetic *)

Lemma indexFromLiteral_div (l : Z) : indexFromLiteral l = l / 2.
Proof. unfold indexFromLiteral. by rewrite Z.shiftr_div_pow2. Qed.

Lemma literalFromIndex_small (v : Z) :
  0 ≤ v < 2147483648 → literalFromIndex v = 2 * v.
Proof.
  intros H. unfold literalFromIndex, wrap.
  rewrite Z.shiftl_mul_pow2 by lia. change (2 ^ 1) with 2. lia.
Qed.

Lemma literalFromIndex_even (v : Z) : literalFromIndex v mod 2 = 0.
Proof.
  unfold literalFromIndex, wrap.
  rewrite Z.shiftl_mul_pow2 by lia. change (2 ^ 1) with 2. lia.
Qed.

Lemma size_bounded (X : gset Z) (a n : Z) :
  (∀ x, x ∈ X → a ≤ x < a + n) → Z.of_nat (size X) ≤ Z.max 0 n.
Proof.
  intros H.
  assert (Hsub : X ⊆ list_to_set (seqZ a n)).
  { intros x Hx. apply elem_of_list_to_set, elem_of_seqZ. by apply H. }
  apply subseteq_size in Hsub.
  rewrite size_list_to_set in Hsub by apply NoDup_seqZ.
  rewrite length_seqZ in Hsub. lia.
Qed.

(** ** The area estimate *)

Section AreaEstimate.
Context (e : CutEngine) (Hkeys : keys_ok e).

Lemma collectUnimplemented_spec nodes acc :
  collectUnimplemented e nodes acc
  = OK (acc ∪ list_to_set (literalFromIndex <$> filter (countedLeaf e) nodes)).
Proof.
  revert acc. induction nodes as [|v rest IH]; intros acc.
  - simpl. f_equal. by rewrite union_empty_r_L.
  - simpl. destruct (nodeIsAnd (_aig e) (literalFromIndex v)) eqn:Hand.
    + destruct (Hkeys v Hand) as [b Hb]. unfold map_at. rewrite Hb.
      destruct b; simpl.
      * rewrite filter_cons_False by (intros [_ ?]; congruence). apply IH.
      * rewrite filter_cons_True by done. rewrite IH. f_equal.
        rewrite fmap_cons, list_to_set_cons.
        by rewrite (assoc_L (∪)), (comm_L (∪) _ acc).
    + rewrite filter_cons_False by (intros [? _]; congruence). apply IH.
Qed.

Lemma estimateUnionCutAreaCost_spec andLiteral unionCut :
  (∀ x, x ∈ _nodeVariables unionCut → 0 ≤ x < 2147483648) →
  estimateUnionCutAreaCost e andLiteral unionCut
  = OK (Z.of_nat (size (unimplementedLeaves e (_nodeVariables unionCut)))).
Proof.
  intros Hrange. unfold estimateUnionCutAreaCost.
  rewrite collectUnimplemented_spec. simpl. f_equal.
  set (X := _nodeVariables unionCut) in *.
  assert (Hperm : ascending X ≡ₚ elements X) by apply merge_sort_Permutation.
  assert (Hnd : NoDup (literalFromIndex <$> filter (countedLeaf e) (ascending X))).
  { apply NoDup_fmap_2_strong.
    - intros x y Hx Hy Heq.
      apply list_elem_of_filter in Hx as [_ Hx]. apply list_elem_of_filter in Hy as [_ Hy].
      rewrite Hperm in Hx, Hy. apply elem_of_elements in Hx, Hy.
      rewrite !literalFromIndex_small in Heq by auto. lia.
    - apply NoDup_filter. rewrite Hperm. apply NoDup_elements. }
  rewrite union_empty_l_L, size_list_to_set by done.
  rewrite length_fmap.
  assert (Hfil : filter (countedLeaf e) (ascending X) ≡ₚ elements (unimplementedLeaves e X)).
  { apply NoDup_Permutation.
    - apply NoDup_filter. rewrite Hperm. apply NoDup_elements.
    - apply NoDup_elements.
    - intros x. rewrite list_elem_of_filter, Hperm, !elem_of_elements.
      unfold unimplementedLeaves. rewrite elem_of_filter. done. }
  rewrite Hfil.
  change (length (elements (unimplementedLeaves e X))) with (size (unimplementedLeaves e X)).
  assert (Hle : Z.of_nat (size (unimplementedLeaves e X)) ≤ 2147483648).
  { etrans; [apply (size_bounded _ 0 2147483648)|lia].
    intros x Hx. apply elem_of_filter in Hx as [_ Hx]. by apply Hrange. }
  unfold wrap. lia.
Qed.
End AreaEstimate.

(** ** CutSet.emplace *)

Lemma CutSet_find_None newCut cutSet :
  CutSet_find newCut cutSet = None
  ↔ _nodeVariables newCut ∉ (_nodeVariables <$> cutSet).
Proof.
  induction cutSet as [|it rest IH]; simpl.
  - split; [intros _ H; by inversion H|done].
  - unfold Cut_eqb. rewrite not_elem_of_cons.
    case_bool_decide as Heq.
    + split; [discriminate|]. intros [Hne _]. by destruct Hne.
    + destruct (CutSet_find newCut rest); simpl.
      * split; [discriminate|]. intros [_ Hn]. by apply IH in Hn.
      * split; [|done]. intros _. split; [done|]. by apply IH.
Qed.

Lemma CutSet_emplace_absent cutSet newCut :
  _nodeVariables newCut ∉ (_nodeVariables <$> cutSet) →
  CutSet_emplace cutSet newCut = (cutSet ++ [newCut], length cutSet, true).
Proof.
  intros H. unfold CutSet_emplace.
  by rewrite (proj2 (CutSet_find_None newCut cutSet) H).
Qed.

Lemma CutSet_emplace_present cutSet newCut :
  _nodeVariables newCut ∈ (_nodeVariables <$> cutSet) →
  ∃ it, CutSet_emplace cutSet newCut = (cutSet, it, false).
Proof.
  intros H. unfold CutSet_emplace.
  destruct (CutSet_find newCut cutSet) as [it|] eqn:E; [eauto|].
  by apply CutSet_find_None in E.
Qed.

(** ** Diamond *)

Lemma allCostsSet_true cut :
  allCostsSet cut = true
  ↔ _areaCost cut ≠ UINT_MAX ∧ _delayCost cut ≠ UINT_MAX
    ∧ _powerCost cut ≠ UINT_MAX.
Proof.
  unfold allCostsSet.
  destruct (Z.eqb_spec (_areaCost cut) UINT_MAX),
           (Z.eqb_spec (_delayCost cut) UINT_MAX),
           (Z.eqb_spec (_powerCost cut) UINT_MAX); simpl; intuition congruence.
Qed.

Lemma estimateUnionCutDelayCost_max cutA cutB :
  estimateUnionCutDelayCost cutA cutB
  = Z.max (_delayCost cutA) (_delayCost cutB).
Proof.
  unfold estimateUnionCutDelayCost, getDelayCost.
  destruct (Z.geb_spec (_delayCost cutA) (_delayCost cutB)); lia.
Qed.

Lemma mergeByLeaves_app acc l1 l2 :
  mergeByLeaves acc (l1 ++ l2) = mergeByLeaves (mergeByLeaves acc l1) l2.
Proof.
  revert acc. induction l1 as [|c l1 IH]; intros acc; simpl; [done|].
  case_decide; apply IH.
Qed.

Section Diamond.
Context (e : CutEngine) (Hkeys : keys_ok e) (andLiteral k : Z).

Lemma diamondBody_spec cutA cutB diamond :
  cut_input cutA → cut_input cutB →
  diamondBody e andLiteral k cutA cutB diamond
  = OK (mergeByLeaves diamond (filter (withinK k) [unionCutOf e cutA cutB])).
Proof.
  intros (HneA & HrA & HcA) (HneB & HrB & HcB).
  unfold diamondBody, Cut_union.
  rewrite (bool_decide_eq_false_2 _ HneA), (bool_decide_eq_false_2 _ HneB).
  simpl.
  set (leaves := _nodeVariables cutA ∪ _nodeVariables cutB).
  assert (Hr : ∀ x, x ∈ leaves → 0 ≤ x < 2147483648).
  { intros x [Hx|Hx]%elem_of_union; auto. }
  assert (Hsize : Z.of_nat (size leaves) ≤ 2147483648).
  { etrans; [apply (size_bounded _ 0 2147483648); exact Hr|lia]. }
  unfold numNodeVariables. simpl. fold leaves.
  replace (wrap (Z.of_nat (size leaves))) with (Z.of_nat (size leaves))
    by (unfold wrap; lia).
  destruct (Z.gtb_spec (Z.of_nat (size leaves)) k) as [Hgt|Hle].
  - rewrite filter_cons_False by (unfold withinK; simpl; fold leaves; lia).
    done.
  - rewrite filter_cons_True by (unfold withinK; simpl; by fold leaves).
    rewrite HcA, HcB. simpl.
    case_decide as Hin.
    + destruct (CutSet_emplace_present diamond
                  (mkCut leaves UINT_MAX UINT_MAX UINT_MAX) Hin) as [it ->].
      done.
    + rewrite (CutSet_emplace_absent diamond
                 (mkCut leaves UINT_MAX UINT_MAX UINT_MAX) Hin).
      rewrite (estimateUnionCutAreaCost_spec e Hkeys) by exact Hr.
      simpl. unfold setCostsAt.
      assert (Hat : vector_at
                (diamond ++ [mkCut leaves UINT_MAX UINT_MAX UINT_MAX])
                (Z.of_nat (length diamond))
              = OK (mkCut leaves UINT_MAX UINT_MAX UINT_MAX)).
      { apply vector_at_OK. split; [lia|].
        rewrite Nat2Z.id. by rewrite list_lookup_middle. }
      rewrite Hat. simpl.
      assert (Harea : Z.of_nat (size (unimplementedLeaves e leaves))
                      ≤ 2147483648).
      { etrans; [apply (size_bounded _ 0 2147483648)|lia].
        intros x Hx. apply elem_of_filter in Hx as [_ Hx]. by apply Hr. }
      unfold setAreaCost.
      destruct (Z.eqb_spec (Z.of_nat (size (unimplementedLeaves e leaves)))
                  UINT_MAX) as [E|_];
        [unfold UINT_MAX in E; lia|].
      simpl. unfold setDelayCost. simpl.
      rewrite estimateUnionCutDelayCost_max.
      apply allCostsSet_true in HcA as (_ & HdA & _).
      apply allCostsSet_true in HcB as (_ & HdB & _).
      destruct (Z.eqb_spec (Z.max (_delayCost cutA) (_delayCost cutB))
                  UINT_MAX) as [E|_]; [lia|].
      simpl. unfold setPowerCost. simpl.
      f_equal. rewrite insert_app_r_alt by lia.
      rewrite Nat.sub_diag. done.
Qed.

Lemma diamondInner_spec cutA cutSetB diamond :
  cut_input cutA → Forall cut_input cutSetB →
  diamondInner e andLiteral k cutA cutSetB diamond
  = OK (mergeByLeaves diamond
          (filter (withinK k) (cutSetB ≫= λ cutB, [unionCutOf e cutA cutB]))).
Proof.
  intros HA HB. revert diamond.
  induction HB as [|cutB rest HcutB Hrest IH]; intros diamond; [done|].
  rewrite bind_cons, filter_app, mergeByLeaves_app, <- IH.
  simpl. by rewrite diamondBody_spec.
Qed.

Lemma diamondOuter_spec cutSetA cutSetB diamond :
  Forall cut_input cutSetA → Forall cut_input cutSetB →
  diamondOuter e andLiteral k cutSetA cutSetB diamond
  = OK (mergeByLeaves diamond
          (filter (withinK k)
             (cutSetA ≫= λ cutA, cutSetB ≫= λ cutB,
                [unionCutOf e cutA cutB]))).
Proof.
  intros HA HB. revert diamond.
  induction HA as [|cutA rest HcutA Hrest IH]; intros diamond; [done|].
  rewrite bind_cons, filter_app, mergeByLeaves_app, <- IH.
  simpl. by rewrite diamondInner_spec.
Qed.

Lemma diamondOperation_spec cutSetA cutSetB :
  Forall cut_input cutSetA → Forall cut_input cutSetB →
  diamondOperation e andLiteral cutSetA cutSetB k
  = OK (diamondSpec e cutSetA cutSetB k).
Proof. intros HA HB. by apply diamondOuter_spec. Qed.

End Diamond.

Lemma mergeByLeaves_elem acc l d :
  d ∈ mergeByLeaves acc l → d ∈ acc ∨ d ∈ l.
Proof.
  revert acc. induction l as [|c l IH]; intros acc; simpl; [by left|].
  case_decide; intros [Hd|Hd]%IH.
  - by left.
  - right. by right.
  - apply elem_of_app in Hd as [Hd|Hd]; [by left|].
    apply list_elem_of_singleton in Hd as ->. right. by left.
  - right. by right.
Qed.

Lemma mergeByLeaves_acc acc l u :
  u ∈ (_nodeVariables <$> acc) →
  u ∈ (_nodeVariables <$> mergeByLeaves acc l).
Proof.
  revert acc. induction l as [|c l IH]; intros acc H; simpl; [done|].
  case_decide; apply IH; [done|].
  rewrite fmap_app. apply elem_of_app. by left.
Qed.

Lemma mergeByLeaves_covers acc l c :
  c ∈ l → _nodeVariables c ∈ (_nodeVariables <$> mergeByLeaves acc l).
Proof.
  revert acc. induction l as [|c' l IH]; intros acc H; [by inversion H|].
  simpl. apply elem_of_cons in H as [->|H].
  - case_decide; apply mergeByLeaves_acc; [done|].
    rewrite fmap_app. apply elem_of_app. right. by left.
  - case_decide; by apply IH.
Qed.

Lemma mergeByLeaves_NoDup acc l :
  NoDup (_nodeVariables <$> acc) →
  NoDup (_nodeVariables <$> mergeByLeaves acc l).
Proof.
  revert acc. induction l as [|c l IH]; intros acc H; simpl; [done|].
  case_decide as Hin; apply IH; [done|].
  rewrite fmap_app. apply NoDup_app. repeat split; [done| |].
  - intros u Hu Hc. apply list_elem_of_singleton in Hc as ->. done.
  - apply NoDup_singleton.
Qed.

Lemma elem_of_unions e cutSetA cutSetB d :
  d ∈ (cutSetA ≫= λ cutA, cutSetB ≫= λ cutB, [unionCutOf e cutA cutB])
  ↔ ∃ x y, x ∈ cutSetA ∧ y ∈ cutSetB ∧ d = unionCutOf e x y.
Proof.
  rewrite list_elem_of_bind. split.
  - intros (x & Hd & Hx). apply list_elem_of_bind in Hd as (y & Hd & Hy).
    apply list_elem_of_singleton in Hd. eauto.
  - intros (x & y & Hx & Hy & ->). exists x. split; [|done].
    apply list_elem_of_bind. exists y. split; [|done]. by left.
Qed.

Lemma diamondSpec_elem e cutSetA cutSetB k d :
  d ∈ diamondSpec e cutSetA cutSetB k →
  ∃ x y, x ∈ cutSetA ∧ y ∈ cutSetB ∧ d = unionCutOf e x y ∧ withinK k d.
Proof.
  unfold diamondSpec.
  intros [H|H]%mergeByLeaves_elem; [by inversion H|].
  apply list_elem_of_filter in H as [Hk H].
  apply elem_of_unions in H as (x & y & Hx & Hy & ->). eauto 6.
Qed.

Lemma diamondSpec_covers e cutSetA cutSetB k x y :
  x ∈ cutSetA → y ∈ cutSetB →
  Z.of_nat (size (_nodeVariables x ∪ _nodeVariables y)) ≤ k →
  _nodeVariables x ∪ _nodeVariables y
    ∈ (_nodeVariables <$> diamondSpec e cutSetA cutSetB k).
Proof.
  intros Hx Hy Hk. unfold diamondSpec.
  apply (mergeByLeaves_covers [] _ (unionCutOf e x y)).
  apply list_elem_of_filter. split; [done|].
  apply elem_of_unions. eauto.
Qed.

Lemma diamondSpec_NoDup e cutSetA cutSetB k :
  NoDup (_nodeVariables <$> diamondSpec e cutSetA cutSetB k).
Proof. apply mergeByLeaves_NoDup. constructor. Qed.

(** C7, as the code behaves: in an engine whose implementation map has an
    entry for every and-node, diamond applied to two cut sets whose cuts
    have leaves (variables, one at least) and their three costs set
    returns the pairwise unions with at most [k] leaves, each leaf set
    once, in the order of the product; a union has as area the number of
    its leaves that are and-nodes with the entry [false] in the
    implementation map, as delay the larger of the delays of the two cuts
    it was first made from, with nothing added, and power 0. *)
Theorem diamond_pairwise_unions (e : CutEngine) (andLiteral k : Z)
    (cutSetA cutSetB : CutSet) :
  keys_ok e →
  Forall cut_input cutSetA → Forall cut_input cutSetB →
  ∃ diamond,
    diamondOperation e andLiteral cutSetA cutSetB k = OK diamond
    ∧ diamond = diamondSpec e cutSetA cutSetB k
    ∧ NoDup (_nodeVariables <$> diamond)
    ∧ (∀ u, u ∈ (_nodeVariables <$> diamond)
            ↔ ∃ x y, x ∈ cutSetA ∧ y ∈ cutSetB
                     ∧ u = _nodeVariables x ∪ _nodeVariables y
                     ∧ Z.of_nat (size u) ≤ k)
    ∧ (∀ d, d ∈ diamond →
            _areaCost d
              = Z.of_nat (size (unimplementedLeaves e (_nodeVariables d)))
            ∧ _powerCost d = 0
            ∧ ∃ x y, x ∈ cutSetA ∧ y ∈ cutSetB
                     ∧ _nodeVariables d = _nodeVariables x ∪ _nodeVariables y
                     ∧ _delayCost d = Z.max (_delayCost x) (_delayCost y)).
Proof.
  intros Hkeys HA HB. exists (diamondSpec e cutSetA cutSetB k).
  split; [by apply diamondOperation_spec|]. split; [done|].
  split; [apply diamondSpec_NoDup|]. split.
  - intros u. split.
    + intros (d & -> & Hd)%list_elem_of_fmap.
      apply diamondSpec_elem in Hd as (x & y & Hx & Hy & -> & Hk).
      exists x, y. done.
    + intros (x & y & Hx & Hy & -> & Hk). by apply diamondSpec_covers.
  - intros d (x & y & Hx & Hy & -> & Hk)%diamondSpec_elem.
    repeat split. exists x, y. done.
Qed.

(** ** Designs that pass the integrity checks *)

Lemma andNodesValid_lookup andLiteral ands i an :
  andNodesValid andLiteral ands = true →
  ands !! i = Some an →
  2 ≤ _secondChild an ≤ _firstChild an
  ∧ _firstChild an < andLiteral + 2 * Z.of_nat i.
Proof.
  revert andLiteral i. induction ands as [|an' rest IH]; intros lit i Hv Hi.
  - by rewrite lookup_nil in Hi.
  - simpl in Hv. apply andb_true_iff in Hv as [Hv Hrest].
    destruct i as [|i]; simpl in Hi.
    + injection Hi as ->.
      apply andb_true_iff in Hv as [Hv H3]. apply andb_true_iff in Hv as [H1 H2].
      lia.
    + destruct (IH _ _ Hrest Hi). lia.
Qed.

Section ValidDesign.
Context (aig : AndInverterGraph) (Hvalid : integrityChecks aig = true).

Lemma integrityChecks_bounds :
  0 ≤ _numInputs aig ∧ 0 ≤ _numLatches aig
  ∧ _numAnds aig = Z.of_nat (length (_andVector aig))
  ∧ _maxVariableIndex aig = _numInputs aig + _numLatches aig + _numAnds aig
  ∧ 2 * _maxVariableIndex aig + 1 < 4294967296.
Proof.
  unfold integrityChecks in Hvalid.
  repeat (apply andb_true_iff in Hvalid as [Hvalid ?]). lia.
Qed.

Lemma integrityChecks_ands :
  andNodesValid (2 * (_numInputs aig + _numLatches aig + 1)) (_andVector aig)
  = true.
Proof.
  unfold integrityChecks in Hvalid.
  by repeat (apply andb_true_iff in Hvalid as [Hvalid ?]).
Qed.

Lemma nodeIsAnd_spec l :
  nodeIsAnd aig l = true ↔ 1 < l ∧ isAndVariable aig (l / 2).
Proof.
  pose proof integrityChecks_bounds as Hb.
  unfold nodeIsAnd, isAndVariable. rewrite indexFromLiteral_div.
  unfold wrap.
  destruct (Z.leb_spec l 1); [split; [discriminate|lia]|].
  rewrite !Z.mod_small by lia.
  destruct (Z.leb_spec (l / 2) (_numInputs aig + _numLatches aig + _numAnds aig)),
           (Z.gtb_spec (l / 2) (_numInputs aig + _numLatches aig));
    simpl; split; (discriminate || lia || done).
Qed.

Lemma nodeIsInput_spec l :
  nodeIsInput aig l = true ↔ 1 < l ∧ l / 2 ≤ _numInputs aig.
Proof.
  unfold nodeIsInput. rewrite indexFromLiteral_div.
  destruct (Z.leb_spec l 1); [split; [discriminate|lia]|].
  destruct (Z.leb_spec (l / 2) (_numInputs aig));
    split; (discriminate || lia || done).
Qed.

Lemma andVariable_range v :
  isAndVariable aig v → 1 ≤ v < 2147483648.
Proof. pose proof integrityChecks_bounds. unfold isAndVariable. lia. Qed.

(** The children of an and-node are literals of smaller variables. *)
Lemma getAndNodeFromLiteral_children l an :
  getAndNodeFromLiteral aig l = OK an →
  nodeIsAnd aig l = true
  ∧ 2 ≤ _secondChild an ≤ _firstChild an
  ∧ _firstChild an < 2 * (l / 2).
Proof.
  pose proof integrityChecks_bounds as Hb.
  unfold getAndNodeFromLiteral. rewrite indexFromLiteral_div.
  destruct (nodeIsAnd aig l) eqn:Hand; [|discriminate]. simpl.
  pose proof (proj1 (nodeIsAnd_spec l) Hand) as [Hl Hv].
  unfold isAndVariable in Hv.
  replace (wrap (wrap (wrap (l / 2 - _numInputs aig) - _numLatches aig) - 1))
    with (l / 2 - _numInputs aig - _numLatches aig - 1)
    by (unfold wrap; rewrite !Z.mod_small by lia; lia).
  destruct (Z.geb_spec (l / 2 - _numInputs aig - _numLatches aig - 1)
              (Z.of_nat (length (_andVector aig)))); [discriminate|].
  intros [_ Hat]%vector_at_OK.
  destruct (andNodesValid_lookup _ _ _ _ integrityChecks_ands Hat).
  split; [done|]. lia.
Qed.

End ValidDesign.

(** ** The accessors of the engine *)

Section Accessors.
Context (e : CutEngine) (Hshape : engine_shape e).

Lemma vectorIndexFromAndLiteral_spec l :
  nodeIsAnd (_aig e) l = true →
  vectorIndexFromAndLiteral e l
  = OK (l / 2 - _numInputs (_aig e) - _numLatches (_aig e) - 1)
  ∧ 0 ≤ l / 2 - _numInputs (_aig e) - _numLatches (_aig e) - 1
      < Z.of_nat (length (_cutSetVector e)).
Proof.
  destruct Hshape as [Hvalid Hlen].
  pose proof (integrityChecks_bounds _ Hvalid) as Hb.
  intros [Hl Hv]%(nodeIsAnd_spec _ Hvalid). unfold isAndVariable in Hv.
  unfold vectorIndexFromAndLiteral. rewrite indexFromLiteral_div.
  replace (wrap (wrap (wrap (l / 2 - _numInputs (_aig e))
                       - _numLatches (_aig e)) - 1))
    with (l / 2 - _numInputs (_aig e) - _numLatches (_aig e) - 1)
    by (unfold wrap; rewrite !Z.mod_small by lia; lia).
  destruct (Z.geb_spec (l / 2 - _numInputs (_aig e) - _numLatches (_aig e) - 1)
              (Z.of_nat (length (_cutSetVector e)))); [lia|].
  split; [done|lia].
Qed.

Lemma cutSetVector_at l :
  nodeIsAnd (_aig e) l = true →
  vector_at (_cutSetVector e)
    (l / 2 - _numInputs (_aig e) - _numLatches (_aig e) - 1)
  = OK (cutSetOf e (l / 2)).
Proof.
  intros Hand.
  destruct (vectorIndexFromAndLiteral_spec l Hand) as [_ Hi].
  unfold vector_at, cutSetOf.
  destruct (Z.ltb_spec (l / 2 - _numInputs (_aig e) - _numLatches (_aig e) - 1)
              0); [lia|].
  destruct (lookup_lt_is_Some_2 (_cutSetVector e)
              (Z.to_nat (l / 2 - _numInputs (_aig e)
                         - _numLatches (_aig e) - 1))) as [cs Hcs]; [lia|].
  by rewrite Hcs.
Qed.

Lemma getCutSet_spec l :
  nodeIsAnd (_aig e) l = true → getCutSet e l = OK (cutSetOf e (l / 2)).
Proof.
  intros Hand. unfold getCutSet. rewrite Hand. simpl.
  destruct (vectorIndexFromAndLiteral_spec l Hand) as [-> _]. simpl.
  by apply cutSetVector_at.
Qed.

Lemma getCutSet_OK l cutSet :
  getCutSet e l = OK cutSet →
  nodeIsAnd (_aig e) l = true ∧ cutSet = cutSetOf e (l / 2).
Proof.
  intros H. destruct (nodeIsAnd (_aig e) l) eqn:Hand.
  - rewrite getCutSet_spec in H by done. by injection H as <-.
  - unfold getCutSet in H. by rewrite Hand in H.
Qed.

Lemma getBestCut_spec l :
  nodeIsAnd (_aig e) l = true →
  getBestCut e l = match cutSetOf e (l / 2) with
                   | [] => Err BestCutUndefined
                   | bestCut :: _ => OK bestCut
                   end.
Proof.
  intros Hand. unfold getBestCut. rewrite Hand. simpl.
  destruct (vectorIndexFromAndLiteral_spec l Hand) as [-> _]. simpl.
  rewrite cutSetVector_at by done. simpl.
  by destruct (cutSetOf e (l / 2)).
Qed.

Lemma isUnprocessedAnd_spec l :
  isUnprocessedAnd e l
  = OK (if nodeIsAnd (_aig e) l
        then match cutSetOf e (l / 2) with [] => true | _ => false end
        else false).
Proof.
  unfold isUnprocessedAnd. destruct (nodeIsAnd (_aig e) l) eqn:Hand; [|done].
  rewrite getCutSet_spec by done. simpl.
  by destruct (cutSetOf e (l / 2)).
Qed.

End Accessors.

(** Storing the cut set of one node. *)
Lemma cutSetOf_store e t cutSet v :
  engine_shape e → nodeIsAnd (_aig e) t = true → isAndVariable (_aig e) v →
  cutSetOf
    (set_cutSetVector e
       (<[Z.to_nat (t / 2 - _numInputs (_aig e) - _numLatches (_aig e) - 1)
          := cutSet]> (_cutSetVector e))) v
  = if decide (v = t / 2) then cutSet else cutSetOf e v.
Proof.
  intros Hshape Hand Hv.
  destruct (vectorIndexFromAndLiteral_spec e Hshape t Hand) as [_ Hi].
  unfold cutSetOf. simpl. unfold isAndVariable in Hv.
  case_decide as Heq.
  - subst v. rewrite list_lookup_insert_eq by lia. done.
  - rewrite list_lookup_insert_ne by lia. done.
Qed.

(** ** Sorting keeps the cuts *)

Lemma std_sort_insert_Permutation comp x l :
  std_sort_insert comp x l ≡ₚ x :: l.
Proof.
  induction l as [|y l IH]; simpl; [done|].
  destruct (comp y x); [|done].
  rewrite IH. apply Permutation_swap.
Qed.

Lemma std_sort_Permutation comp l : std_sort comp l ≡ₚ l.
Proof.
  induction l as [|x l IH]; simpl; [done|].
  by rewrite std_sort_insert_Permutation, IH.
Qed.

Lemma sortCutSet_elem cutSet mappingGoal cut :
  cut ∈ sortCutSet cutSet mappingGoal ↔ cut ∈ cutSet.
Proof. unfold sortCutSet. by rewrite std_sort_Permutation. Qed.

Lemma sortAndChooseBestCuts_elem cutSet c mappingGoal cut :
  cut ∈ sortAndChooseBestCuts cutSet c mappingGoal → cut ∈ cutSet.
Proof.
  unfold sortAndChooseBestCuts.
  destruct (_ >? c); [intros H%subseteq_take|intros H];
    by rewrite std_sort_Permutation in H.
Qed.

(** ** Phi keeps the cuts well formed *)

Lemma engine_inv_shape e : engine_inv e → engine_shape e.
Proof. intros H. split; [apply (inv_aig e H)|apply (inv_length e H)]. Qed.

Lemma engine_inv_keys_ok e : engine_inv e → keys_ok e.
Proof.
  intros Hinv v Hand.
  pose proof (literalFromIndex_even v) as Heven.
  apply (nodeIsAnd_spec _ (inv_aig e Hinv)) in Hand as [Hl Hv].
  replace (literalFromIndex v) with (2 * (literalFromIndex v / 2)) by lia.
  by apply (inv_keys e Hinv).
Qed.

Lemma cut_ok_mono k v v' cut : cut_ok k v cut → v ≤ v' → cut_ok k v' cut.
Proof.
  intros (Hne & Hr & Hk & Ha & Hd & Hp) Hle.
  split; [done|]. split; [|repeat split; lia].
  intros x Hx. specialize (Hr x Hx). lia.
Qed.

Lemma cut_ok_input k v cut :
  cut_ok k v cut → v ≤ 2147483648 → cut_input cut.
Proof.
  intros (Hne & Hr & Hk & Ha & Hd & Hp) Hle.
  split; [done|]. split.
  - intros x Hx. specialize (Hr x Hx). lia.
  - apply allCostsSet_true. unfold UINT_MAX in *. lia.
Qed.

Lemma singleton_cut_ok k v x area delay :
  1 ≤ x < v → 1 ≤ k → 0 ≤ area < UINT_MAX → 1 ≤ delay ≤ v →
  cut_ok k v (mkCut {[ x ]} area delay 0).
Proof.
  intros Hx Hk Ha Hd. unfold cut_ok.
  cbn [_nodeVariables _areaCost _delayCost _powerCost].
  split; [apply non_empty_singleton_L|].
  split; [by intros y ->%elem_of_singleton|].
  rewrite size_singleton. repeat split; lia.
Qed.

Lemma CutSet_emplace_Forall (P : Cut → Prop) cutSet newCut :
  Forall P cutSet → P newCut → Forall P (CutSet_emplace cutSet newCut).1.1.
Proof.
  intros Hall Hnew. unfold CutSet_emplace.
  destruct (CutSet_find newCut cutSet); simpl; [done|].
  apply Forall_app. split; [done|]. by constructor.
Qed.

Section Phi.
Context (e : CutEngine) (Hinv : engine_inv e).

Lemma cutSetOf_Forall v :
  isAndVariable (_aig e) v → Forall (cut_ok (_k e) v) (cutSetOf e v).
Proof.
  intros Hv. apply Forall_forall. intros cut Hcut.
  by apply (inv_cuts e Hinv).
Qed.

(** The cut set phi builds for a child: the child's own cuts and its
    autocut, all of them good for the parent. *)
Lemma child_cuts_ok t childLiteral cutSet autoCut :
  isAndVariable (_aig e) (t / 2) →
  2 ≤ childLiteral < 2 * (t / 2) →
  isUnprocessedAnd e childLiteral = OK false →
  childCutSet e childLiteral = OK cutSet →
  generateAutoCut e childLiteral = OK autoCut →
  Forall (cut_ok (_k e) (t / 2)) (CutSet_emplace cutSet autoCut).1.1.
Proof.
  intros Ht Hc Hunp Hset Hauto.
  pose proof (engine_inv_shape e Hinv) as Hshape.
  pose proof (inv_aig e Hinv) as Hvalid.
  pose proof (inv_k e Hinv) as Hk.
  pose proof (andVariable_range _ Hvalid _ Ht) as Htr.
  unfold childCutSet in Hset. unfold generateAutoCut in Hauto.
  rewrite indexFromLiteral_div in Hauto.
  destruct (nodeIsInput (_aig e) childLiteral) eqn:Hin.
  - injection Hset as <-. injection Hauto as <-.
    apply nodeIsInput_spec in Hin as [_ Hin].
    apply CutSet_emplace_Forall; [constructor|].
    unfold isAndVariable in Ht.
    pose proof (integrityChecks_bounds _ Hvalid).
    apply singleton_cut_ok; unfold UINT_MAX; lia.
  - apply (getCutSet_OK e Hshape) in Hset as [Hand ->].
    rewrite Hand in Hauto.
    pose proof (proj1 (nodeIsAnd_spec _ Hvalid _) Hand) as [_ Hv].
    rewrite isUnprocessedAnd_spec, Hand in Hunp by done.
    unfold estimateAutoCutAreaCost, estimateAutoCutDelayCost in Hauto.
    rewrite getBestCut_spec in Hauto by done.
    pose proof (cutSetOf_Forall _ Hv) as Hall.
    destruct (cutSetOf e (childLiteral / 2)) as [|bestCut rest] eqn:Hcs;
      [discriminate|].
    simpl in Hauto. injection Hauto as <-.
    pose proof (Forall_inv Hall) as (Hne & Hr & Hsz & Ha & Hd & Hp).
    apply CutSet_emplace_Forall.
    + eapply Forall_impl; [exact Hall|].
      intros cut Hcut. eapply cut_ok_mono; [exact Hcut|lia].
    + unfold getAreaCost, getDelayCost.
      replace (wrap (1 + _delayCost bestCut)) with (1 + _delayCost bestCut)
        by (unfold wrap; lia).
      apply singleton_cut_ok; lia.
Qed.

Lemma diamondSpec_cuts_ok t cutSetA cutSetB :
  isAndVariable (_aig e) (t / 2) →
  Forall (cut_ok (_k e) (t / 2)) cutSetA →
  Forall (cut_ok (_k e) (t / 2)) cutSetB →
  Forall (cut_ok (_k e) (t / 2)) (diamondSpec e cutSetA cutSetB (_k e)).
Proof.
  intros Ht HA HB.
  pose proof (andVariable_range _ (inv_aig e Hinv) _ Ht) as Htr.
  apply Forall_forall. intros d (x & y & Hx & Hy & -> & Hk)%diamondSpec_elem.
  rewrite Forall_forall in HA, HB.
  destruct (HA x Hx) as (HneA & HrA & _ & _ & HdA & _).
  destruct (HB y Hy) as (HneB & HrB & _ & _ & HdB & _).
  assert (Hr : ∀ v, v ∈ _nodeVariables x ∪ _nodeVariables y → 1 ≤ v < t / 2).
  { intros v [Hv|Hv]%elem_of_union; auto. }
  assert (Z.of_nat (size (unimplementedLeaves e
                            (_nodeVariables x ∪ _nodeVariables y)))
          ≤ Z.max 0 (t / 2)).
  { apply (size_bounded _ 1). intros v [_ Hv]%elem_of_filter.
    specialize (Hr v Hv). lia. }
  unfold cut_ok, unionCutOf in *.
  cbn [_nodeVariables _areaCost _delayCost _powerCost] in *.
  split.
  { intros Hempty. apply HneA. by apply empty_union_L in Hempty as [-> _]. }
  split; [exact Hr|]. split; [exact Hk|].
  unfold UINT_MAX. repeat split; lia.
Qed.

Lemma phiOperation_cuts_ok t cutSet :
  nodeIsAnd (_aig e) t = true →
  cutSetOf e (t / 2) = [] →
  phiOperation e t = OK cutSet →
  Forall (cut_ok (_k e) (t / 2)) cutSet.
Proof.
  intros Hand Hempty Hphi.
  pose proof (engine_inv_shape e Hinv) as Hshape.
  pose proof (inv_aig e Hinv) as Hvalid.
  pose proof (proj1 (nodeIsAnd_spec _ Hvalid _) Hand) as [_ Ht].
  pose proof (andVariable_range _ Hvalid _ Ht) as Htr.
  unfold phiOperation in Hphi. rewrite Hand in Hphi. simpl in Hphi.
  rewrite getCutSet_spec, Hempty in Hphi by done. simpl in Hphi.
  bind_as Hphi an Han.
  apply (getAndNodeFromLiteral_children _ Hvalid) in Han as (_ & Hc1 & Hc0).
  bind_as Hphi first Hfirst. bind_as Hphi second Hsecond.
  destruct first; [discriminate|]. destruct second; [discriminate|].
  simpl in Hphi, Hsecond.
  bind_as Hphi setA HsetA. bind_as Hphi setB HsetB.
  bind_as Hphi autoA HautoA. bind_as Hphi autoB HautoB.
  assert (HA : Forall (cut_ok (_k e) (t / 2))
                 (CutSet_emplace setA autoA).1.1).
  { apply (child_cuts_ok t (_firstChild an)); try done. lia. }
  assert (HB : Forall (cut_ok (_k e) (t / 2))
                 (CutSet_emplace setB autoB).1.1).
  { apply (child_cuts_ok t (_secondChild an)); try done. lia. }
  rewrite (diamondOperation_spec e (engine_inv_keys_ok e Hinv)) in Hphi.
  - injection Hphi as <-. by apply diamondSpec_cuts_ok.
  - eapply Forall_impl; [exact HA|].
    intros cut Hcut. eapply cut_ok_input; [exact Hcut|lia].
  - eapply Forall_impl; [exact HB|].
    intros cut Hcut. eapply cut_ok_input; [exact Hcut|lia].
Qed.

End Phi.

(** ** Processing one node keeps the invariant *)

Lemma evenLiteral_and aig l :
  integrityChecks aig = true → nodeIsAnd aig l = true →
  evenLiteral l = 2 * (l / 2).
Proof.
  intros Hvalid [Hl Hv]%(nodeIsAnd_spec _ Hvalid).
  pose proof (andVariable_range _ Hvalid _ Hv).
  unfold evenLiteral, wrap.
  destruct (Z.eqb_spec (l mod 2) 1); lia.
Qed.

Lemma falsified_refl aig bound m : falsified aig bound m m.
Proof. intros key. by left. Qed.

Lemma falsified_trans aig bound m1 m2 m3 :
  falsified aig bound m1 m2 → falsified aig bound m2 m3 →
  falsified aig bound m1 m3.
Proof.
  intros H12 H23 key.
  destruct (H23 key) as [->|?]; [apply H12|by right].
Qed.

Lemma falsified_odd aig bound m m' v :
  falsified aig bound m m' → m' !! (2 * v + 1) = m !! (2 * v + 1).
Proof.
  intros H. destruct (H (2 * v + 1)) as [|(v' & _ & _ & ? & _)]; [done|lia].
Qed.

Lemma falsified_even aig bound m m' key :
  falsified aig bound m m' → m' !! key = m !! key ∨ m' !! key = Some false.
Proof. intros H. destruct (H key) as [|(v' & _ & _ & _ & ?)]; auto. Qed.

Lemma falsified_is_Some aig bound m m' key :
  falsified aig bound m m' → is_Some (m !! key) → is_Some (m' !! key).
Proof.
  intros H Hs. destruct (H key) as [->|(v' & _ & _ & _ & ->)]; eauto.
Qed.

(** A key whose variable is at or above the bound keeps its entry. *)
Lemma falsified_above aig bound m m' key :
  falsified aig bound m m' → bound ≤ key / 2 → m' !! key = m !! key.
Proof.
  intros H Hb. destruct (H key) as [|(v' & _ & ? & ? & _)]; [done|lia].
Qed.

Lemma cutSetOf_ext e e' v :
  _aig e' = _aig e → _cutSetVector e' = _cutSetVector e →
  cutSetOf e' v = cutSetOf e v.
Proof. intros Ha Hv. unfold cutSetOf. by rewrite Ha, Hv. Qed.

Lemma absorbChild_falsified e bestCut childLiteral bound e' :
  integrityChecks (_aig e) = true →
  childLiteral < 2 * bound →
  absorbChild e bestCut childLiteral = OK e' →
  _cutSetVector e' = _cutSetVector e
  ∧ falsified (_aig e) bound (_implementationMap e) (_implementationMap e').
Proof.
  intros Hvalid Hbound. unfold absorbChild.
  destruct (nodeIsAnd (_aig e) childLiteral) eqn:Hand.
  - intros H. bind_as H childBest Hbest.
    case_bool_decide; injection H as <-; simpl;
      (split; [done|]); [|apply falsified_refl].
    intros key. rewrite (evenLiteral_and _ _ Hvalid Hand).
    destruct (decide (2 * (childLiteral / 2) = key)) as [<-|Hne].
    + right. exists (childLiteral / 2).
      apply (nodeIsAnd_spec _ Hvalid) in Hand as [_ Hv].
      rewrite lookup_insert_eq.
      split; [done|]. split; [lia|]. by split.
    + left. by rewrite lookup_insert_ne.
  - intros [= <-]. split; [done|apply falsified_refl].
Qed.

Section ProcessNode.
Context (e : CutEngine) (Hinv : engine_inv e).
Context (t : Z) (Hand : nodeIsAnd (_aig e) t = true).
Context (Hempty : cutSetOf e (t / 2) = []).
Context (c0 c1 : Z) (Hc0 : c0 < 2 * (t / 2)) (Hc1 : c1 < 2 * (t / 2)).

Lemma processNode_result e' :
  processNode e t c0 c1 = OK e' →
  ∃ bestCut rest m1,
    Forall (cut_ok (_k e) (t / 2)) (bestCut :: rest)
    ∧ _cutSetVector e'
      = <[Z.to_nat (t / 2 - _numInputs (_aig e) - _numLatches (_aig e) - 1)
          := bestCut :: rest]> (_cutSetVector e)
    ∧ same_config e e'
    ∧ (m1 = _implementationMap e ∧ _areaCost bestCut ≠ 0
       ∨ m1 = <[t := true]> (_implementationMap e) ∧ _areaCost bestCut = 0)
    ∧ falsified (_aig e) (t / 2) m1 (_implementationMap e').
Proof.
  intros H.
  pose proof (processNode_config _ _ _ _ _ H) as Hconfig.
  pose proof (engine_inv_shape e Hinv) as Hshape.
  pose proof (inv_aig e Hinv) as Hvalid.
  unfold processNode in H.
  bind_as H cutSet Hphi.
  apply (phiOperation_cuts_ok e Hinv t) in Hphi; [|done..].
  destruct (vectorIndexFromAndLiteral_spec e Hshape t Hand) as [Hidx _].
  rewrite Hidx in H. simpl in H.
  set (stored := if _c e >? 0
                 then sortAndChooseBestCuts cutSet (_c e) (_mappingGoal e)
                 else sortCutSet cutSet (_mappingGoal e)) in *.
  assert (Hstored : Forall (cut_ok (_k e) (t / 2)) stored).
  { rewrite Forall_forall in Hphi. apply Forall_forall. intros cut Hcut.
    apply Hphi. unfold stored in Hcut.
    destruct (_c e >? 0);
      [by eapply sortAndChooseBestCuts_elem|by eapply sortCutSet_elem]. }
  bind_as H bestCut Hbest.
  apply vector_at_OK in Hbest as [_ Hbest].
  destruct stored as [|bestCut' rest] eqn:Hst; [done|].
  injection Hbest as ->.
  exists bestCut, rest.
  unfold getAreaCost in H.
  destruct (Z.eqb_spec (_areaCost bestCut) 0) as [Harea|Harea].
  - bind_as H e3 Habs1.
    pose proof (absorbChild_config _ _ _ _ Habs1) as (Haig3 & _).
    simpl in Haig3.
    apply (absorbChild_falsified _ _ _ (t / 2)) in Habs1 as [Hv1 Hf1];
      [|done..].
    apply (absorbChild_falsified _ _ _ (t / 2)) in H as [Hv2 Hf2];
      [|by rewrite Haig3|done].
    simpl in Hv1, Hf1. rewrite Haig3 in Hf2.
    exists (<[t := true]> (_implementationMap e)).
    split; [done|]. split; [by rewrite Hv2, Hv1|]. split; [done|].
    split; [by right|].
    by eapply falsified_trans.
  - injection H as <-. exists (_implementationMap e).
    split; [done|]. split; [done|]. split; [done|].
    split; [by left|apply falsified_refl].
Qed.

Lemma processNode_inv e' :
  processNode e t c0 c1 = OK e' →
  engine_inv e'
  ∧ cutSetOf e' (t / 2) ≠ []
  ∧ ∀ v, isAndVariable (_aig e) v → v ≠ t / 2 →
         cutSetOf e' v = cutSetOf e v.
Proof.
  intros H.
  pose proof (engine_inv_shape e Hinv) as Hshape.
  pose proof (inv_aig e Hinv) as Hvalid.
  pose proof (proj1 (nodeIsAnd_spec _ Hvalid _) Hand) as [Ht1 Ht].
  destruct (processNode_result _ H)
    as (bestCut & rest & m1 & Hcuts & Hvec & Hconfig & Hm1 & Hfals).
  destruct Hconfig as (Haig & Hk & Hc & Hgoal & Hlen).
  assert (Hof : ∀ v, isAndVariable (_aig e) v →
            cutSetOf e' v
            = if decide (v = t / 2) then bestCut :: rest else cutSetOf e v).
  { intros v Hv. rewrite <- (cutSetOf_store e t (bestCut :: rest) v) by done.
    apply cutSetOf_ext; [done|]. by rewrite Hvec. }
  assert (Hm1odd : ∀ v, isAndVariable (_aig e) v →
            is_Some (m1 !! (2 * v + 1)) → m1 !! (2 * v) = Some false).
  { intros v Hv Hs. destruct Hm1 as [[-> _]|[-> _]].
    - by apply (inv_odd e Hinv).
    - destruct (decide (t / 2 = v)) as [<-|Hne].
      + destruct (inv_empty e Hinv _ Ht Hempty) as [Hodd Heven].
        destruct (decide (t = 2 * (t / 2))) as [Heq|Hneq].
        * rewrite lookup_insert_ne in Hs by lia.
          rewrite Hodd in Hs. by destruct Hs.
        * rewrite lookup_insert_ne by lia. done.
      + rewrite lookup_insert_ne in Hs by lia.
        rewrite lookup_insert_ne by lia.
        by apply (inv_odd e Hinv). }
  split; [|split].
  - constructor.
    + by rewrite Haig.
    + rewrite Hk. apply (inv_k e Hinv).
    + rewrite Haig, Hlen. apply (inv_length e Hinv).
    + rewrite Haig. intros v Hv.
      eapply falsified_is_Some; [exact Hfals|].
      destruct Hm1 as [[-> _]|[-> _]].
      * by apply (inv_keys e Hinv).
      * destruct (decide (t = 2 * v)) as [->|Hne].
        -- rewrite lookup_insert_eq. eauto.
        -- rewrite lookup_insert_ne by done. by apply (inv_keys e Hinv).
    + rewrite Haig, Hk. intros v cut Hv. rewrite Hof by done.
      case_decide as Heq.
      * subst v. rewrite Forall_forall in Hcuts. apply Hcuts.
      * by apply (inv_cuts e Hinv).
    + rewrite Haig. intros v Hv.
      rewrite (falsified_odd _ _ _ _ v Hfals). intros Hs.
      destruct (falsified_even _ _ _ _ (2 * v) Hfals) as [-> | ->]; [|done].
      by apply Hm1odd.
    + rewrite Haig. intros v Hv. rewrite Hof by done.
      case_decide as Heq; [discriminate|]. intros Hcs.
      destruct (inv_empty e Hinv _ Hv Hcs) as [Hodd Heven].
      rewrite (falsified_odd _ _ _ _ v Hfals).
      assert (Hm1v : m1 !! (2 * v + 1) = None ∧ m1 !! (2 * v) = Some false).
      { destruct Hm1 as [[-> _]|[-> _]]; [done|].
        rewrite !lookup_insert_ne by lia. done. }
      destruct Hm1v as [Hm1o Hm1e]. split; [done|].
      destruct (falsified_even _ _ _ _ (2 * v) Hfals) as [-> | ->]; done.
  - rewrite Hof by done. by rewrite decide_True.
  - intros v Hv Hne. rewrite Hof by done. by rewrite decide_False.
Qed.

End ProcessNode.

(** ** The work loop of [findCuts] keeps the invariant *)

Lemma stack_ok_push e c t rest :
  stack_ok e (t :: rest) →
  nodeIsAnd (_aig e) c = true → cutSetOf e (c / 2) = [] → c / 2 < t / 2 →
  stack_ok e (c :: t :: rest).
Proof.
  intros [Hall Hsorted] Hand Hempty Hlt. split.
  - constructor; [|done]. by rewrite indexFromLiteral_div.
  - constructor; [done|].
    apply StronglySorted_inv in Hsorted as [_ Hrest].
    constructor; [by rewrite !indexFromLiteral_div|].
    eapply Forall_impl; [exact Hrest|].
    intros r Hr. simpl in Hr. rewrite !indexFromLiteral_div in *. lia.
Qed.

Lemma stack_ok_pop e e' t rest :
  stack_ok e (t :: rest) →
  integrityChecks (_aig e) = true →
  _aig e' = _aig e →
  (∀ v, isAndVariable (_aig e) v → v ≠ t / 2 →
        cutSetOf e' v = cutSetOf e v) →
  stack_ok e' rest.
Proof.
  intros [Hall Hsorted] Hvalid Haig Hsame.
  apply StronglySorted_inv in Hsorted as [Hsorted Hrest].
  apply Forall_inv_tail in Hall.
  split; [|done].
  rewrite Forall_forall in Hall, Hrest. apply Forall_forall.
  intros r Hr. destruct (Hall r Hr) as [Hand Hempty].
  specialize (Hrest r Hr). simpl in Hrest.
  rewrite !indexFromLiteral_div in *.
  rewrite Haig. split; [done|].
  rewrite Hsame; [done| |lia].
  by apply (nodeIsAnd_spec _ Hvalid) in Hand as [_ ?].
Qed.

Lemma findCutsStep_inv e t rest e' stack' :
  engine_inv e → stack_ok e (t :: rest) →
  findCutsStep e t rest = OK (e', stack') →
  engine_inv e' ∧ stack_ok e' stack'.
Proof.
  intros Hinv Hstack H.
  pose proof (engine_inv_shape e Hinv) as Hshape.
  pose proof (inv_aig e Hinv) as Hvalid.
  pose proof Hstack as [Hall _].
  apply Forall_inv in Hall as [Hand Hempty].
  rewrite indexFromLiteral_div in Hempty.
  unfold findCutsStep in H.
  bind_as H an Han.
  apply (getAndNodeFromLiteral_children _ Hvalid) in Han as (_ & Hc1 & Hc0).
  assert (Hprocess : ∀ e1 stack1,
            (e2 ← processNode e t (_firstChild an) (_secondChild an);
             OK (e2, rest)) = OK (e1, stack1) →
            engine_inv e1 ∧ stack_ok e1 stack1).
  { intros e1 stack1 Hb. bind_as Hb e2 Hproc. injection Hb as <- <-.
    assert (Hlt0 : _firstChild an < 2 * (t / 2)) by lia.
    assert (Hlt1 : _secondChild an < 2 * (t / 2)) by lia.
    destruct (processNode_inv e Hinv t Hand Hempty _ _ Hlt0 Hlt1 _ Hproc)
      as (Hinv' & _ & Hsame).
    split; [done|]. eapply stack_ok_pop; try done.
    by apply processNode_config in Hproc as [? _]. }
  rewrite !isUnprocessedAnd_spec in H by done. simpl in H.
  destruct (nodeIsAnd (_aig e) (_firstChild an)) eqn:Hand0;
    [destruct (cutSetOf e (_firstChild an / 2)) eqn:Hcs0|].
  - injection H as <- <-. split; [done|].
    apply stack_ok_push; try done. lia.
  - simpl in H.
    destruct (nodeIsAnd (_aig e) (_secondChild an)) eqn:Hand1;
      [destruct (cutSetOf e (_secondChild an / 2)) eqn:Hcs1|].
    + injection H as <- <-. split; [done|].
      apply stack_ok_push; try done. lia.
    + by apply (Hprocess e' stack').
    + by apply (Hprocess e' stack').
  - simpl in H.
    destruct (nodeIsAnd (_aig e) (_secondChild an)) eqn:Hand1;
      [destruct (cutSetOf e (_secondChild an / 2)) eqn:Hcs1|].
    + injection H as <- <-. split; [done|].
      apply stack_ok_push; try done. lia.
    + by apply (Hprocess e' stack').
    + by apply (Hprocess e' stack').
Qed.

Lemma findCutsLoop_inv fuel e stack e' :
  engine_inv e → stack_ok e stack →
  findCutsLoop fuel e stack = OK e' → engine_inv e'.
Proof.
  revert e stack. induction fuel as [|fuel IH]; intros e stack Hinv Hstack H.
  - destruct stack; [by injection H as <-|discriminate].
  - destruct stack as [|t rest]; [by injection H as <-|].
    simpl in H. bind_as H [e1 stack1] Hstep.
    apply findCutsStep_inv in Hstep as [Hinv1 Hstack1]; [|done..].
    by eapply IH.
Qed.

Lemma findCuts_inv fuel e andLiteral e' cutSet :
  engine_inv e → findCuts fuel e andLiteral = OK (e', cutSet) →
  engine_inv e'.
Proof.
  intros Hinv H. unfold findCuts in H.
  pose proof (engine_inv_shape e Hinv) as Hshape.
  destruct (nodeIsAnd (_aig e) andLiteral) eqn:Hand; [|discriminate].
  simpl in H. rewrite getCutSet_spec in H by done. simpl in H.
  destruct (cutSetOf e (andLiteral / 2)) eqn:Hcs.
  - bind_as H e1 Hloop.
    apply findCutsLoop_inv in Hloop; [|done|].
    + bind_inv H. destruct x; [discriminate|].
      bind_inv H. bind_inv H. by injection H as <- _.
    + split; [|repeat constructor].
      constructor; [|done]. by rewrite indexFromLiteral_div.
  - bind_inv H. bind_inv H. by injection H as <- _.
Qed.

(** ** The constructor establishes the invariant *)

Lemma map_emplace_lookup key b m key' :
  map_emplace key b m !! key'
  = match m !! key' with
    | Some b' => Some b'
    | None => if decide (key = key') then Some b else None
    end.
Proof.
  unfold map_emplace. destruct (m !! key) as [b0|] eqn:E.
  - destruct (m !! key') eqn:E'; [done|].
    case_decide; [congruence|done].
  - destruct (decide (key = key')) as [<-|Hne].
    + by rewrite lookup_insert_eq, E.
    + rewrite lookup_insert_ne by done. by destruct (m !! key').
Qed.

Lemma initial_map_lookup l m key :
  foldl (λ m i, map_emplace (literalFromIndex i) false m) m l !! key
  = match m !! key with
    | Some b => Some b
    | None => if decide (key ∈ (literalFromIndex <$> l)) then Some false
              else None
    end.
Proof.
  revert m. induction l as [|i l IH]; intros m; cbn [foldl].
  - destruct (m !! key); [done|].
    rewrite decide_False by apply not_elem_of_nil. done.
  - rewrite IH, map_emplace_lookup, fmap_cons.
    destruct (m !! key); [done|].
    destruct (decide (literalFromIndex i = key)) as [<-|Hne].
    + rewrite decide_True by (by left). done.
    + destruct (decide (key ∈ (literalFromIndex <$> l))) as [Hin|Hin].
      * rewrite decide_True by (by right). done.
      * rewrite decide_False; [done|].
        intros [?|?]%elem_of_cons; congruence.
Qed.

Lemma CutEngine_new_inv aig mappingGoal k c e :
  integrityChecks aig = true →
  CutEngine_new aig mappingGoal k c = OK e →
  engine_inv e.
Proof.
  intros Hvalid H. unfold CutEngine_new in H.
  destruct (Z.ltb_spec k 2); [discriminate|].
  injection H as <-.
  pose proof (integrityChecks_bounds _ Hvalid) as Hb.
  set (m := foldl _ _ _).
  assert (Hcs : ∀ v, cutSetOf
                      (mkCutEngine (replicate (Z.to_nat (_numAnds aig)) [])
                         mappingGoal m aig k c) v = []).
  { intros v. unfold cutSetOf. simpl.
    destruct (replicate _ _ !! _) eqn:E; [|done].
    by apply lookup_replicate_1 in E as [-> _]. }
  assert (Hm : ∀ v, isAndVariable aig v →
                    m !! (2 * v + 1) = None ∧ m !! (2 * v) = Some false).
  { intros v Hv. unfold isAndVariable in Hv. unfold m.
    rewrite !initial_map_lookup, !lookup_empty.
    assert (Hfirst : indexFromLiteral (getFirstAndLiteral aig)
                     = _numInputs aig + _numLatches aig + 1).
    { unfold getFirstAndLiteral. rewrite indexFromLiteral_div.
      replace (wrap (wrap (wrap (0 + _numInputs aig) + _numLatches aig) + 1))
        with (_numInputs aig + _numLatches aig + 1)
        by (unfold wrap; rewrite !Z.mod_small by lia; lia).
      rewrite literalFromIndex_small by lia. lia. }
    rewrite Hfirst.
    replace (wrap (_numInputs aig + _numLatches aig + 1 + _numAnds aig))
      with (_numInputs aig + _numLatches aig + 1 + _numAnds aig)
      by (unfold wrap; lia).
    split.
    - rewrite decide_False; [done|].
      intros (i & Heq & _)%list_elem_of_fmap.
      pose proof (literalFromIndex_even i). lia.
    - rewrite decide_True; [done|].
      apply list_elem_of_fmap. exists v.
      split; [by rewrite literalFromIndex_small by lia|].
      apply elem_of_seqZ. lia. }
  constructor; simpl.
  - done.
  - lia.
  - rewrite length_replicate. lia.
  - intros v Hv. destruct (Hm v Hv) as [_ ->]. eauto.
  - intros v cut _. rewrite Hcs. by intros ?%elem_of_nil.
  - intros v Hv _. by destruct (Hm v Hv).
  - intros v Hv _. by apply Hm.
Qed.

(** ** The states of an execution satisfy the invariant *)

Lemma reachable_inv e stack :
  reachable e stack → engine_inv e ∧ stack_ok e stack.
Proof.
  induction 1 as [aig goal k c e Hvalid Hnew
                 | e l _ [Hinv _] Hget
                 | e t rest e' stack' _ [Hinv Hstack] Hstep].
  - split; [by eapply CutEngine_new_inv|]. split; constructor.
  - split; [done|].
    apply (getCutSet_OK e (engine_inv_shape e Hinv)) in Hget as [Hand Hcs].
    split; [|repeat constructor].
    constructor; [|done]. by rewrite indexFromLiteral_div.
  - by eapply findCutsStep_inv.
Qed.

Lemma findCutsLoop_reachable fuel e stack e' :
  reachable e stack → findCutsLoop fuel e stack = OK e' → reachable e' [].
Proof.
  revert e stack. induction fuel as [|fuel IH]; intros e stack Hreach H.
  - destruct stack; [by injection H as <-|discriminate].
  - destruct stack as [|t rest]; [by injection H as <-|].
    simpl in H. bind_as H [e1 stack1] Hstep.
    eapply IH; [|exact H]. by eapply reachable_step.
Qed.

(** A completed call of [findCuts] between two calls. *)
Lemma reachable_findCuts fuel e andLiteral e' cutSet :
  reachable e [] → findCuts fuel e andLiteral = OK (e', cutSet) →
  reachable e' [].
Proof.
  intros Hreach H. unfold findCuts in H.
  destruct (negb _); [discriminate|].
  bind_as H cs Hget. destruct cs.
  - bind_as H e1 Hloop. bind_inv H. destruct x; [discriminate|].
    bind_inv H. bind_inv H. injection H as <- _.
    eapply findCutsLoop_reachable; [|exact Hloop].
    by apply reachable_call.
  - bind_inv H. bind_inv H. by injection H as <- _.
Qed.

(** ** The stored cut sets *)

(** C2, as the code behaves: in every state an execution goes through,
    every cut stored for an and-node [a] has at most [k] leaves, and every
    leaf is a variable smaller than var(a); so the singleton cut
    { var(a) } is not a member of the stored cut set (phi adds it only to
    the copy it makes for a parent of [a]). *)
Theorem stored_cuts_exclude_trivial_cut (e : CutEngine) (stack : list Z)
    (a : Z) (cutSet : CutSet) :
  reachable e stack →
  getCutSet e a = OK cutSet →
  ∀ cut, cut ∈ cutSet →
    Z.of_nat (size (_nodeVariables cut)) ≤ _k e
    ∧ (∀ x, x ∈ _nodeVariables cut → 1 ≤ x < indexFromLiteral a)
    ∧ _nodeVariables cut ≠ {[ indexFromLiteral a ]}.
Proof.
  intros [Hinv _]%reachable_inv Hget cut Hcut.
  apply (getCutSet_OK e (engine_inv_shape e Hinv)) in Hget as [Hand ->].
  apply (nodeIsAnd_spec _ (inv_aig e Hinv)) in Hand as [_ Hv].
  destruct (inv_cuts e Hinv _ _ Hv Hcut) as (_ & Hr & Hk & _).
  rewrite indexFromLiteral_div.
  split; [done|]. split; [done|].
  intros Heq. specialize (Hr (a / 2)). rewrite Heq in Hr.
  specialize (Hr ltac:(by apply elem_of_singleton)). lia.
Qed.

Lemma engineSingleAnd_reachable : reachable engineSingleAnd [].
Proof.
  apply (reachable_new aigSingleAnd MinimizeArea 2 0);
    vm_compute; reflexivity.
Qed.

Lemma engineSingleAnd_mapped_reachable :
  reachable (engineAfter (findCuts 10 engineSingleAnd 6) engineSingleAnd) [].
Proof.
  eapply (reachable_findCuts 10 engineSingleAnd 6);
    [apply engineSingleAnd_reachable|].
  vm_compute. reflexivity.
Qed.

Lemma stored_cuts_exclude_trivial_cut_witness :
  Z.of_nat (size (_nodeVariables (mkCut {[ 1; 2 ]} 0 1 0))) ≤ 2
  ∧ (∀ x, x ∈ _nodeVariables (mkCut {[ 1; 2 ]} 0 1 0) →
          1 ≤ x < indexFromLiteral 6)
  ∧ _nodeVariables (mkCut {[ 1; 2 ]} 0 1 0) ≠ {[ indexFromLiteral 6 ]}.
Proof.
  apply (stored_cuts_exclude_trivial_cut
           (engineAfter (findCuts 10 engineSingleAnd 6) engineSingleAnd) []
           6 [mkCut {[ 1; 2 ]} 0 1 0]).
  - apply engineSingleAnd_mapped_reachable.
  - vm_compute. reflexivity.
  - by left.
Defined.

(** C2, as stated, does not hold: after [findCuts] on the design with the
    single and-node 6 = 4 ∧ 2, the cut set of node 6 is populated and holds
    the cut {1, 2} only; the singleton {3} occurs in it zero times. *)
Lemma trivial_cut_not_stored :
  integrityChecks aigSingleAnd = true
  ∧ CutEngine_new aigSingleAnd MinimizeArea 2 0 = OK engineSingleAnd
  ∧ cutSetFound (findCuts 10 engineSingleAnd 6)
    = OK [mkCut {[ 1; 2 ]} 0 1 0]
  ∧ length (filter (λ cut, _nodeVariables cut = {[ indexFromLiteral 6 ]})
                   [mkCut {[ 1; 2 ]} 0 1 0]) = 0%nat.
Proof. repeat split; vm_compute; reflexivity. Qed.

(** C8: in every state an execution goes through, an and-node whose cut
    set is populated has a best cut, and its delay is 1 or more. *)
Theorem bestCut_delay_at_least_one (e : CutEngine) (stack : list Z) (a : Z)
    (cutSet : CutSet) :
  reachable e stack →
  getCutSet e a = OK cutSet → cutSet ≠ [] →
  ∃ bestCut, getBestCut e a = OK bestCut ∧ 1 ≤ _delayCost bestCut.
Proof.
  intros [Hinv _]%reachable_inv Hget Hne.
  pose proof (engine_inv_shape e Hinv) as Hshape.
  apply (getCutSet_OK e Hshape) in Hget as [Hand ->].
  rewrite (getBestCut_spec e Hshape) by done.
  apply (nodeIsAnd_spec _ (inv_aig e Hinv)) in Hand as [_ Hv].
  destruct (cutSetOf e (a / 2)) as [|bestCut rest] eqn:Hcs; [done|].
  exists bestCut. split; [done|].
  destruct (inv_cuts e Hinv (a / 2) bestCut Hv) as (_ & _ & _ & _ & Hd & _).
  - rewrite Hcs. by left.
  - lia.
Qed.

Lemma bestCut_delay_at_least_one_witness :
  ∃ bestCut,
    getBestCut (engineAfter (findCuts 10 engineSingleAnd 6) engineSingleAnd) 6
    = OK bestCut
    ∧ 1 ≤ _delayCost bestCut.
Proof.
  apply (bestCut_delay_at_least_one
           (engineAfter (findCuts 10 engineSingleAnd 6) engineSingleAnd) []
           6 [mkCut {[ 1; 2 ]} 0 1 0]).
  - apply engineSingleAnd_mapped_reachable.
  - vm_compute. reflexivity.
  - discriminate.
Defined.

(** ** Marks under odd literals *)

(** An iteration either pushes a child and leaves the engine alone, or
    processes the top of the stack and pops it. *)
Lemma findCutsStep_cases e t rest e' stack' :
  engine_shape e →
  findCutsStep e t rest = OK (e', stack') →
  (e' = e ∧ ∃ c, stack' = c :: t :: rest)
  ∨ (stack' = rest
     ∧ ∃ an, getAndNodeFromLiteral (_aig e) t = OK an
             ∧ processNode e t (_firstChild an) (_secondChild an) = OK e').
Proof.
  intros Hshape H. unfold findCutsStep in H.
  bind_as H an Han.
  rewrite !isUnprocessedAnd_spec in H by done. simpl in H.
  destruct (nodeIsAnd (_aig e) (_firstChild an));
    [destruct (cutSetOf e (_firstChild an / 2))|];
    destruct (nodeIsAnd (_aig e) (_secondChild an));
    try destruct (cutSetOf e (_secondChild an / 2)); simpl in H;
    try (injection H as <- <-; left; by eauto);
    bind_as H e1 Hproc; injection H as <- <-; right; by eauto.
Qed.

(** The node at the top of the stack, once processed, is marked under its
    literal as pushed when its best cut has area 0. *)
Lemma processNode_marks_literal e t c0 c1 e' :
  engine_inv e → nodeIsAnd (_aig e) t = true → cutSetOf e (t / 2) = [] →
  c0 < 2 * (t / 2) → c1 < 2 * (t / 2) →
  processNode e t c0 c1 = OK e' →
  ∃ bestCut,
    getBestCut e' t = OK bestCut
    ∧ (_areaCost bestCut = 0 → _implementationMap e' !! t = Some true).
Proof.
  intros Hinv Hand Hempty Hc0 Hc1 Hproc.
  pose proof (engine_inv_shape e Hinv) as Hshape.
  pose proof (inv_aig e Hinv) as Hvalid.
  destruct (processNode_result e Hinv t Hand Hempty c0 c1 Hc0 Hc1 e' Hproc)
    as (bestCut & rest & m1 & _ & Hvec & (Haig1 & _ & _ & _ & Hlen1)
        & Hm1 & Hfals).
  assert (Hshape1 : engine_shape e').
  { destruct Hshape as [Hv0 Hl0]. split; [by rewrite Haig1|].
    by rewrite Haig1, Hlen1. }
  assert (Hand1 : nodeIsAnd (_aig e') t = true) by by rewrite Haig1.
  assert (Hcs1 : cutSetOf e' (t / 2) = bestCut :: rest).
  { rewrite <- (decide_True (bestCut :: rest) (cutSetOf e (t / 2))
                            (eq_refl (t / 2))).
    rewrite <- (cutSetOf_store e t (bestCut :: rest) (t / 2) Hshape Hand).
    - apply cutSetOf_ext; [done|]. by rewrite Hvec.
    - by apply (nodeIsAnd_spec _ Hvalid) in Hand as [_ ?]. }
  exists bestCut. rewrite (getBestCut_spec e' Hshape1), Hcs1 by done.
  split; [done|].
  intros Harea. destruct Hm1 as [[_ ?]|[-> _]]; [done|].
  rewrite (falsified_above _ _ _ _ t Hfals) by lia.
  apply lookup_insert_eq.
Qed.

(** C10: in the states an execution goes through, (A) the iteration of
    [findCuts] that processes the node on top of the work stack marks the
    implementation map under that literal as it was pushed, polarity bit
    included, when the best cut of the node has area 0; for an odd literal
    the key is new, and the entry under the even literal of the node is
    [false] afterwards; (B) whenever the map has an entry under the odd
    literal of an and-node, its entry under the even literal is [false],
    and the area estimate of every cut that has the node among its leaves
    counts it as unimplemented; (C) no iteration takes back a mark made
    under an odd literal, so (B) holds in all later states. *)
Theorem odd_literal_marks_are_not_seen (e : CutEngine) (stack : list Z) :
  reachable e stack →
  (∀ currentAndNode rest e',
      stack = currentAndNode :: rest →
      findCutsStep e currentAndNode rest = OK (e', rest) →
      ∃ bestCut,
        getBestCut e' currentAndNode = OK bestCut
        ∧ (_areaCost bestCut = 0 →
           _implementationMap e' !! currentAndNode = Some true
           ∧ (currentAndNode mod 2 = 1 →
              _implementationMap e !! currentAndNode = None
              ∧ _implementationMap e' !! (currentAndNode - 1) = Some false)))
  ∧ (∀ v, isAndVariable (_aig e) v →
          is_Some (_implementationMap e !! (2 * v + 1)) →
          _implementationMap e !! (2 * v) = Some false
          ∧ ∀ andLiteral unionCut,
              v ∈ _nodeVariables unionCut →
              (∀ x, x ∈ _nodeVariables unionCut → 0 ≤ x < 2147483648) →
              v ∈ unimplementedLeaves e (_nodeVariables unionCut)
              ∧ ∃ area, estimateUnionCutAreaCost e andLiteral unionCut
                        = OK area
                        ∧ 1 ≤ area)
  ∧ (∀ currentAndNode rest e' stack' v,
        stack = currentAndNode :: rest →
        findCutsStep e currentAndNode rest = OK (e', stack') →
        _implementationMap e !! (2 * v + 1) = Some true →
        _implementationMap e' !! (2 * v + 1) = Some true).
Proof.
  intros Hreach. pose proof (reachable_inv e stack Hreach) as [Hinv Hstack].
  pose proof (inv_aig e Hinv) as Hvalid.
  pose proof (engine_inv_shape e Hinv) as Hshape.
  split; [|split].
  - intros t rest e' -> Hstep.
    pose proof (reachable_step _ _ _ _ _ Hreach Hstep) as Hreach'.
    apply reachable_inv in Hreach' as [Hinv' _].
    pose proof (proj1 (findCutsStep_config _ _ _ _ _ Hstep)) as Haig'.
    destruct Hstack as [Hall _]. apply Forall_inv in Hall as [Hand Hempty].
    rewrite indexFromLiteral_div in Hempty.
    apply findCutsStep_cases in Hstep
      as [[_ [c Heq]]|(_ & an & Han & Hproc)]; [| |done].
    { apply (f_equal length) in Heq. simpl in Heq. lia. }
    apply (getAndNodeFromLiteral_children _ Hvalid) in Han as (_ & Hc1 & Hc0).
    destruct (processNode_marks_literal e t (_firstChild an) (_secondChild an)
                e' Hinv Hand Hempty ltac:(lia) ltac:(lia) Hproc)
      as (bestCut & Hbest & Hmark).
    exists bestCut. split; [done|]. intros Harea.
    specialize (Hmark Harea). split; [done|]. intros Hodd.
    apply (nodeIsAnd_spec _ Hvalid) in Hand as [_ Hv].
    pose proof (inv_empty e Hinv _ Hv Hempty) as [Hnone _].
    replace (2 * (t / 2) + 1) with t in Hnone by lia.
    split; [done|].
    replace (t - 1) with (2 * (t / 2)) by lia.
    apply (inv_odd e' Hinv').
    + by rewrite Haig'.
    + replace (2 * (t / 2) + 1) with t by lia. by rewrite Hmark.
  - intros v Hv Hodd.
    pose proof (inv_odd e Hinv v Hv Hodd) as Heven.
    split; [done|]. intros andLiteral unionCut Hin Hrange.
    pose proof (andVariable_range _ Hvalid _ Hv) as Hvr.
    assert (Hcounted : v ∈ unimplementedLeaves e (_nodeVariables unionCut)).
    { apply elem_of_filter. split; [|done]. unfold countedLeaf.
      rewrite literalFromIndex_small by lia. split; [|done].
      apply (nodeIsAnd_spec _ Hvalid). split; [lia|].
      by replace (2 * v / 2) with v by lia. }
    split; [done|].
    rewrite (estimateUnionCutAreaCost_spec e (engine_inv_keys_ok e Hinv))
      by done.
    eexists. split; [done|].
    assert (size (unimplementedLeaves e (_nodeVariables unionCut)) ≠ 0%nat).
    { apply size_non_empty_iff. intros Hempty.
      rewrite Hempty in Hcounted. by apply not_elem_of_empty in Hcounted. }
    lia.
  - intros t rest e' stack' v -> Hstep Htrue.
    destruct Hstack as [Hall _]. apply Forall_inv in Hall as [Hand Hempty].
    rewrite indexFromLiteral_div in Hempty.
    apply findCutsStep_cases in Hstep
      as [[-> _]|(_ & an & Han & Hproc)]; [done| |done].
    apply (getAndNodeFromLiteral_children _ Hvalid) in Han as (_ & Hc1 & Hc0).
    destruct (processNode_result e Hinv t Hand Hempty (_firstChild an)
                (_secondChild an) ltac:(lia) ltac:(lia) e' Hproc)
      as (bestCut & others & m1 & _ & _ & _ & Hm1 & Hfals).
    rewrite (falsified_odd _ _ _ _ v Hfals).
    destruct Hm1 as [[-> _]|[-> _]]; [done|].
    destruct (decide (t = 2 * v + 1)) as [->|Hne].
    + apply lookup_insert_eq.
    + by rewrite lookup_insert_ne.
Qed.

Lemma engineNegatedOutput_called : reachable engineNegatedOutput [7].
Proof.
  apply reachable_call; [|vm_compute; reflexivity].
  apply (reachable_new aigNegatedOutput MinimizeArea 2 0);
    vm_compute; reflexivity.
Qed.

Lemma odd_literal_marks_are_not_seen_witness :
  ∃ bestCut,
    getBestCut
      (from_OK (engineNegatedOutput, [])
               (findCutsStep engineNegatedOutput 7 [])).1 7
    = OK bestCut
    ∧ (_areaCost bestCut = 0 →
       _implementationMap
         (from_OK (engineNegatedOutput, [])
                  (findCutsStep engineNegatedOutput 7 [])).1
         !! 7 = Some true
       ∧ (7 mod 2 = 1 →
          _implementationMap engineNegatedOutput !! 7 = None
          ∧ _implementationMap
              (from_OK (engineNegatedOutput, [])
                       (findCutsStep engineNegatedOutput 7 [])).1
              !! (7 - 1) = Some false)).
Proof.
  apply (proj1 (odd_literal_marks_are_not_seen engineNegatedOutput [7]
                  engineNegatedOutput_called) 7 []).
  - reflexivity.
  - vm_compute. reflexivity.
Defined.

(** The same on the whole pipeline: the design whose output is the negated
    and-node 7. The engine ends with the entry [true] under 7 and [false]
    under 6, and the area estimate of the cut {3} is still 1. *)
Lemma negated_output_mark :
  let e := engineAfter (findCuts 10 engineNegatedOutput 7)
                       engineNegatedOutput in
  _implementationMap e !! 7 = Some true
  ∧ _implementationMap e !! 6 = Some false
  ∧ estimateUnionCutAreaCost e 8 (mkCut {[ 3 ]} 0 2 0) = OK 1.
Proof. vm_compute. repeat split; reflexivity. Qed.

(** ** Diamond on the cut sets phi builds at node 6 of the single-and design *)

Lemma singleton_cut_input x area delay :
  0 ≤ x < 2147483648 → area ≠ UINT_MAX → delay ≠ UINT_MAX →
  cut_input (mkCut {[ x ]} area delay 0).
Proof.
  intros Hx Ha Hd. unfold cut_input. cbn [_nodeVariables].
  split; [apply non_empty_singleton_L|].
  split; [by intros y ->%elem_of_singleton|].
  apply allCostsSet_true. by repeat split.
Qed.

Lemma diamond_pairwise_unions_witness :
  ∃ diamond,
    diamondOperation engineSingleAnd 6
      [mkCut {[ 2 ]} 0 1 0] [mkCut {[ 1 ]} 0 1 0] 2 = OK diamond
    ∧ diamond
      = diamondSpec engineSingleAnd
          [mkCut {[ 2 ]} 0 1 0] [mkCut {[ 1 ]} 0 1 0] 2.
Proof.
  destruct (diamond_pairwise_unions engineSingleAnd 6 2
              [mkCut {[ 2 ]} 0 1 0] [mkCut {[ 1 ]} 0 1 0])
    as (diamond & Hrun & Hspec & _).
  - apply engine_inv_keys_ok.
    apply (reachable_inv _ _ engineSingleAnd_reachable).
  - constructor; [|constructor].
    apply singleton_cut_input; unfold UINT_MAX; lia.
  - constructor; [|constructor].
    apply singleton_cut_input; unfold UINT_MAX; lia.
  - exists diamond. by split.
Defined.

(** C7, as stated, does not hold: the three costs of a cut can be set
    while it has no leaves, and diamond raises on such a cut, because the
    union of cuts rejects an operand without leaves. *)
Lemma diamond_rejects_empty_cut :
  allCostsSet (mkCut ∅ 0 0 0) = true
  ∧ allCostsSet (mkCut {[ 1 ]} 0 1 0) = true
  ∧ diamondOperation engineSingleAnd 6
      [mkCut ∅ 0 0 0] [mkCut {[ 1 ]} 0 1 0] 2 = Err EmptyCutUnion.
Proof. repeat split; vm_compute; reflexivity. Qed.

(** * Further properties of the code *)

Lemma node_kind aig l :
  integrityChecks aig = true → 2 ≤ l → l / 2 ≤ _maxVariableIndex aig →
  nodeIsInput aig l = true ∨ nodeIsLatch aig l = true ∨ nodeIsAnd aig l = true.
Proof.
  intros Hvalid Hl Hmax.
  pose proof (integrityChecks_bounds _ Hvalid) as (HI & HL & HA & HM & Hfit).
  destruct (Z.le_gt_cases (l / 2) (_numInputs aig)) as [Hle|Hgt].
  { left. apply nodeIsInput_spec. lia. }
  destruct (Z.le_gt_cases (l / 2) (_numInputs aig + _numLatches aig))
    as [Hle'|Hgt'].
  - right. left. unfold nodeIsLatch. rewrite indexFromLiteral_div.
    destruct (Z.leb_spec l 1); [lia|].
    replace (wrap (_numInputs aig + _numLatches aig))
      with (_numInputs aig + _numLatches aig) by (unfold wrap; lia).
    destruct (Z.leb_spec (l / 2) (_numInputs aig + _numLatches aig)); [|lia].
    destruct (Z.gtb_spec (l / 2) (_numInputs aig)); [done|lia].
  - right. right. apply (nodeIsAnd_spec _ Hvalid). unfold isAndVariable. lia.
Qed.

Section Child.
Context (e : CutEngine) (Hinv : engine_inv e).

(** A child that needs no processing and is not a latch: phi gets its cut
    set and its autocut, and [emplace] appends the autocut. *)
Lemma child_eq t childLiteral :
  isAndVariable (_aig e) (t / 2) →
  2 ≤ childLiteral < 2 * (t / 2) →
  isUnprocessedAnd e childLiteral = OK false →
  nodeIsLatch (_aig e) childLiteral = false →
  ∃ cutSet autoCut,
    childCutSet e childLiteral = OK cutSet
    ∧ generateAutoCut e childLiteral = OK autoCut
    ∧ (CutSet_emplace cutSet autoCut).1.1 = childCuts e childLiteral
    ∧ childCuts e childLiteral ≠ []
    ∧ _nodeVariables autoCut = {[ childLiteral / 2 ]}
    ∧ autoCut ∈ childCuts e childLiteral.
Proof.
  intros Ht Hrange Hunp Hlatch.
  pose proof (engine_inv_shape e Hinv) as Hshape.
  pose proof (inv_aig e Hinv) as Hvalid.
  pose proof (integrityChecks_bounds _ Hvalid) as (HI & HL & HA & HM & Hfit).
  unfold childCutSet, generateAutoCut, childCuts.
  rewrite indexFromLiteral_div.
  destruct (nodeIsInput (_aig e) childLiteral) eqn:Hin.
  { eexists _, _. repeat split; try done. by apply list_elem_of_singleton. }
  assert (Hand : nodeIsAnd (_aig e) childLiteral = true).
  { destruct (node_kind (_aig e) childLiteral Hvalid) as [?|[?|?]];
      try congruence; try lia.
    unfold isAndVariable in Ht. lia. }
  rewrite Hand. rewrite isUnprocessedAnd_spec, Hand in Hunp by done.
  rewrite getCutSet_spec by done.
  unfold estimateAutoCutAreaCost, estimateAutoCutDelayCost.
  rewrite getBestCut_spec by done.
  pose proof (proj1 (nodeIsAnd_spec _ Hvalid _) Hand) as [_ Hv].
  pose proof (cutSetOf_Forall e Hinv _ Hv) as Hall.
  destruct (cutSetOf e (childLiteral / 2)) as [|bestCut rest] eqn:Hcs;
    [discriminate|].
  simpl. eexists _, _. split; [done|]. split; [done|].
  pose proof (Forall_inv Hall) as (Hne & Hr & Hsz & Harea & Hd & Hp).
  unfold getAreaCost, getDelayCost.
  replace (wrap (1 + _delayCost bestCut)) with (1 + _delayCost bestCut)
    by (unfold wrap; unfold isAndVariable in *; lia).
  split; [|split; [done|split; [done|]]].
  - rewrite CutSet_emplace_absent; [done|].
    cbn [_nodeVariables]. intros (cut & Heq & Hcut)%list_elem_of_fmap.
    rewrite Forall_forall in Hall.
    destruct (Hall cut Hcut) as (_ & Hrange' & _).
    specialize (Hrange' (childLiteral / 2)).
    rewrite <- Heq in Hrange'. 
    assert (childLiteral / 2 ∈ ({[childLiteral / 2]} : gset Z))
      by by apply elem_of_singleton.
    specialize (Hrange' H). lia.
  - apply (proj2 (elem_of_app (bestCut :: rest) [_] _)).
    right. by apply list_elem_of_singleton.
Qed.

Lemma childCuts_ok t childLiteral :
  isAndVariable (_aig e) (t / 2) →
  2 ≤ childLiteral < 2 * (t / 2) →
  isUnprocessedAnd e childLiteral = OK false →
  nodeIsLatch (_aig e) childLiteral = false →
  Forall (cut_ok (_k e) (t / 2)) (childCuts e childLiteral).
Proof.
  intros Ht Hrange Hunp Hlatch.
  destruct (child_eq t childLiteral Ht Hrange Hunp Hlatch)
    as (cutSet & autoCut & Hset & Hauto & <- & _).
  by apply (child_cuts_ok e Hinv t childLiteral).
Qed.

End Child.

Lemma std_sort_nil_inv comp l : std_sort comp l = [] → l = [].
Proof.
  intros H. apply Permutation_nil_r. rewrite <- H.
  symmetry. apply std_sort_Permutation.
Qed.

Lemma storedCuts_elem e cutSet cut :
  cut ∈ storedCuts e cutSet → cut ∈ cutSet.
Proof.
  unfold storedCuts. destruct (_c e >? 0).
  - apply sortAndChooseBestCuts_elem.
  - apply sortCutSet_elem.
Qed.

Lemma storedCuts_nonempty e cutSet : cutSet ≠ [] → storedCuts e cutSet ≠ [].
Proof.
  intros Hne. unfold storedCuts, sortAndChooseBestCuts, sortCutSet.
  assert (Hs : std_sort (goalComparision (_mappingGoal e)) cutSet ≠ []).
  { intros H. by apply std_sort_nil_inv in H. }
  destruct (Z.gtb_spec (_c e) 0) as [Hc|Hc]; [|done].
  destruct (Z.gtb_spec (Z.of_nat (length (std_sort
              (goalComparision (_mappingGoal e)) cutSet))) (_c e)); [|done].
  destruct (std_sort (goalComparision (_mappingGoal e)) cutSet); [done|].
  destruct (Z.to_nat (_c e)) eqn:Hn; [lia|]. done.
Qed.

Section PhiEq.
Context (e : CutEngine) (Hinv : engine_inv e).
Context (t : Z) (Hand : nodeIsAnd (_aig e) t = true).
Context (Hempty : cutSetOf e (t / 2) = []).
Context (an : AndNode) (Han : getAndNodeFromLiteral (_aig e) t = OK an).
Context (Hunp0 : isUnprocessedAnd e (_firstChild an) = OK false).
Context (Hunp1 : isUnprocessedAnd e (_secondChild an) = OK false).

Lemma phiOperation_OK_children cutSet :
  phiOperation e t = OK cutSet →
  nodeIsLatch (_aig e) (_firstChild an) = false
  ∧ nodeIsLatch (_aig e) (_secondChild an) = false.
Proof.
  intros Hphi.
  pose proof (engine_inv_shape e Hinv) as Hshape.
  unfold phiOperation in Hphi. rewrite Hand in Hphi. simpl in Hphi.
  rewrite getCutSet_spec, Hempty in Hphi by done. simpl in Hphi.
  rewrite Han in Hphi. simpl in Hphi.
  rewrite Hunp0 in Hphi. simpl in Hphi. rewrite Hunp1 in Hphi. simpl in Hphi.
  bind_as Hphi setA HsetA. bind_as Hphi setB HsetB.
  split.
  - destruct (nodeIsLatch (_aig e) (_firstChild an)) eqn:Hl; [|done].
    apply latch_is_neither_input_nor_and in Hl as [Hni Hna].
    unfold childCutSet, getCutSet in HsetA. by rewrite Hni, Hna in HsetA.
  - destruct (nodeIsLatch (_aig e) (_secondChild an)) eqn:Hl; [|done].
    apply latch_is_neither_input_nor_and in Hl as [Hni Hna].
    unfold childCutSet, getCutSet in HsetB. by rewrite Hni, Hna in HsetB.
Qed.

Context (Hlatch0 : nodeIsLatch (_aig e) (_firstChild an) = false).
Context (Hlatch1 : nodeIsLatch (_aig e) (_secondChild an) = false).

Lemma phiOperation_eq :
  phiOperation e t
  = OK (diamondSpec e (childCuts e (_firstChild an))
          (childCuts e (_secondChild an)) (_k e))
  ∧ diamondSpec e (childCuts e (_firstChild an))
      (childCuts e (_secondChild an)) (_k e) ≠ [].
Proof.
  pose proof (engine_inv_shape e Hinv) as Hshape.
  pose proof (inv_aig e Hinv) as Hvalid.
  pose proof (inv_k e Hinv) as Hk.
  pose proof (proj1 (nodeIsAnd_spec _ Hvalid _) Hand) as [_ Ht].
  pose proof (andVariable_range _ Hvalid _ Ht) as Htr.
  pose proof (getAndNodeFromLiteral_children _ Hvalid _ _ Han)
    as (_ & Hc1 & Hc0).
  assert (Hr0 : 2 ≤ _firstChild an < 2 * (t / 2)) by lia.
  assert (Hr1 : 2 ≤ _secondChild an < 2 * (t / 2)) by lia.
  destruct (child_eq e Hinv t _ Ht Hr0 Hunp0 Hlatch0)
    as (setA & autoA & HsetA & HautoA & HA & _ & HlA & HinA).
  destruct (child_eq e Hinv t _ Ht Hr1 Hunp1 Hlatch1)
    as (setB & autoB & HsetB & HautoB & HB & _ & HlB & HinB).
  pose proof (childCuts_ok e Hinv t _ Ht Hr0 Hunp0 Hlatch0) as HokA.
  pose proof (childCuts_ok e Hinv t _ Ht Hr1 Hunp1 Hlatch1) as HokB.
  split.
  - unfold phiOperation. rewrite Hand. simpl.
    rewrite getCutSet_spec, Hempty by done. simpl.
    rewrite Han. simpl. rewrite Hunp0. simpl. rewrite Hunp1. simpl.
    rewrite HsetA, HsetB, HautoA, HautoB. simpl.
    rewrite HA, HB.
    apply (diamondOperation_spec e (engine_inv_keys_ok e Hinv)).
    + eapply Forall_impl; [exact HokA|].
      intros cut Hcut. eapply cut_ok_input; [exact Hcut|lia].
    + eapply Forall_impl; [exact HokB|].
      intros cut Hcut. eapply cut_ok_input; [exact Hcut|lia].
  - assert (Hcov : _nodeVariables autoA ∪ _nodeVariables autoB
                   ∈ (_nodeVariables <$>
                        diamondSpec e (childCuts e (_firstChild an))
                          (childCuts e (_secondChild an)) (_k e))).
    { apply diamondSpec_covers; try done.
      rewrite HlA, HlB.
      rewrite size_union_alt, size_singleton.
      set (A := ({[_firstChild an / 2]} : gset Z)).
      set (B := ({[_secondChild an / 2]} : gset Z)).
      assert (size (B ∖ A) ≤ size B)%nat as Hsz
        by (apply subseteq_size, subseteq_difference_l; done).
      unfold B in Hsz at 2. rewrite size_singleton in Hsz. lia. }
    intros Heq. rewrite Heq in Hcov. by apply elem_of_nil in Hcov.
Qed.

Lemma absorbChild_total e1 bestCut childLiteral :
  _aig e1 = _aig e →
  (nodeIsAnd (_aig e) childLiteral = true →
   cutSetOf e1 (childLiteral / 2) ≠ []) →
  engine_shape e1 →
  ∃ e2, absorbChild e1 bestCut childLiteral = OK e2.
Proof.
  intros Haig Hcs Hshape1. unfold absorbChild. rewrite Haig.
  destruct (nodeIsAnd (_aig e) childLiteral) eqn:Hc; [|by eauto].
  rewrite getBestCut_spec by (by rewrite ?Haig).
  destruct (cutSetOf e1 (childLiteral / 2)) eqn:Heq; [by destruct Hcs|].
  simpl. case_bool_decide; eauto.
Qed.

Lemma processNode_total :
  ∃ e', processNode e t (_firstChild an) (_secondChild an) = OK e'.
Proof.
  pose proof (engine_inv_shape e Hinv) as Hshape.
  pose proof (inv_aig e Hinv) as Hvalid.
  pose proof (proj1 (nodeIsAnd_spec _ Hvalid _) Hand) as [_ Ht].
  pose proof (getAndNodeFromLiteral_children _ Hvalid _ _ Han)
    as (_ & Hc1 & Hc0).
  destruct phiOperation_eq as [Hphi Hne].
  unfold processNode. rewrite Hphi. simpl.
  destruct (vectorIndexFromAndLiteral_spec e Hshape t Hand) as [Hidx Hir].
  rewrite Hidx. simpl.
  fold (storedCuts e (diamondSpec e (childCuts e (_firstChild an))
          (childCuts e (_secondChild an)) (_k e))).
  pose proof (storedCuts_nonempty e _ Hne) as Hst.
  destruct (storedCuts e _) as [|bestCut rest] eqn:Hstored; [done|].
  simpl.
  destruct (getAreaCost bestCut =? 0); [|by eauto].
  set (e1 := set_implementationMap _ _).
  assert (Hshape1 : engine_shape e1).
  { destruct Hshape as [? Hlen]. split; [done|]. simpl.
    by rewrite length_insert. }
  assert (Hcs1 : ∀ c, c < 2 * (t / 2) → nodeIsAnd (_aig e) c = true →
                      isUnprocessedAnd e c = OK false →
                      cutSetOf e1 (c / 2) ≠ []).
  { intros c Hlt Hc Hunp.
    rewrite isUnprocessedAnd_spec, Hc in Hunp by done.
    pose proof (proj1 (nodeIsAnd_spec _ Hvalid _) Hc) as [_ Hcv].
    unfold e1.
    rewrite (cutSetOf_ext
               (set_cutSetVector e
                  (<[Z.to_nat (t / 2 - _numInputs (_aig e)
                               - _numLatches (_aig e) - 1)
                     := bestCut :: rest]> (_cutSetVector e)))
               (set_implementationMap _ _)) by done.
    rewrite cutSetOf_store by done.
    rewrite decide_False by lia.
    destruct (cutSetOf e (c / 2)); [discriminate|done]. }
  destruct (absorbChild_total e1 bestCut (_firstChild an)) as [e2 He2];
    [done| |done|].
  { intros Hc. apply Hcs1; [lia|done..]. }
  rewrite He2. simpl.
  pose proof (absorbChild_config _ _ _ _ He2) as (Haig2 & _ & _ & _ & Hlen2).
  assert (Hvec2 : _cutSetVector e2 = _cutSetVector e1).
  { eapply (absorbChild_falsified e1 bestCut (_firstChild an) (t / 2));
      [done|lia|done]. }
  unfold absorbChild. rewrite Haig2. simpl (_aig e1).
  destruct (nodeIsAnd (_aig e) (_secondChild an)) eqn:Hc; [|by eauto].
  rewrite getBestCut_spec; [| |by rewrite Haig2].
  2:{ destruct Hshape1 as [? Hl1]. split; [by rewrite Haig2|].
      rewrite Haig2, Hlen2. done. }
  rewrite (cutSetOf_ext e1 e2) by done.
  specialize (Hcs1 (_secondChild an) ltac:(lia) Hc Hunp1).
  destruct (cutSetOf e1 (_secondChild an / 2)); [done|].
  simpl. case_bool_decide; eauto.
Qed.

Lemma processNode_eq e' :
  processNode e t (_firstChild an) (_secondChild an) = OK e' →
  cutSetOf e' (t / 2)
  = storedCuts e (diamondSpec e (childCuts e (_firstChild an))
                    (childCuts e (_secondChild an)) (_k e)).
Proof.
  intros H.
  pose proof (engine_inv_shape e Hinv) as Hshape.
  pose proof (inv_aig e Hinv) as Hvalid.
  pose proof (proj1 (nodeIsAnd_spec _ Hvalid _) Hand) as [_ Ht].
  pose proof (getAndNodeFromLiteral_children _ Hvalid _ _ Han)
    as (_ & Hc1 & Hc0).
  pose proof (processNode_config _ _ _ _ _ H) as (Haig & _).
  destruct phiOperation_eq as [Hphi Hne].
  unfold processNode in H. rewrite Hphi in H. simpl in H.
  destruct (vectorIndexFromAndLiteral_spec e Hshape t Hand) as [Hidx Hir].
  rewrite Hidx in H. simpl in H.
  fold (storedCuts e (diamondSpec e (childCuts e (_firstChild an))
          (childCuts e (_secondChild an)) (_k e))) in H.
  set (stored := storedCuts e _) in *.
  assert (Hvec : _cutSetVector e'
                 = <[Z.to_nat (t / 2 - _numInputs (_aig e)
                               - _numLatches (_aig e) - 1) := stored]>
                     (_cutSetVector e)).
  { bind_as H bestCut Hbest.
    destruct (getAreaCost bestCut =? 0); [|by injection H as <-].
    bind_as H e2 He2.
    pose proof (absorbChild_config _ _ _ _ He2) as (Haig2 & _).
    apply (absorbChild_falsified _ _ _ (t / 2)) in He2 as [Hv2 _];
      [|done|lia].
    apply (absorbChild_falsified _ _ _ (t / 2)) in H as [Hv3 _];
      [|by rewrite Haig2|lia].
    by rewrite Hv3, Hv2. }
  rewrite <- (decide_True (P := t / 2 = t / 2) stored (cutSetOf e (t / 2)))
    by done.
  rewrite <- (cutSetOf_store e t stored (t / 2)) by done.
  apply cutSetOf_ext; [done|]. by rewrite Hvec.
Qed.

End PhiEq.

Lemma getAndNodeFromLiteral_total aig l :
  integrityChecks aig = true → nodeIsAnd aig l = true →
  ∃ an, getAndNodeFromLiteral aig l = OK an.
Proof.
  intros Hvalid Hand.
  pose proof (integrityChecks_bounds _ Hvalid) as (HI & HL & HA & HM & Hfit).
  pose proof (proj1 (nodeIsAnd_spec _ Hvalid _) Hand) as [Hl Hv].
  unfold isAndVariable in Hv.
  unfold getAndNodeFromLiteral. rewrite Hand. simpl.
  rewrite indexFromLiteral_div.
  replace (wrap (wrap (wrap (l / 2 - _numInputs aig) - _numLatches aig) - 1))
    with (l / 2 - _numInputs aig - _numLatches aig - 1)
    by (unfold wrap; lia).
  destruct (Z.geb_spec (l / 2 - _numInputs aig - _numLatches aig - 1)
                       (Z.of_nat (length (_andVector aig)))); [lia|].
  unfold vector_at.
  destruct (Z.ltb_spec (l / 2 - _numInputs aig - _numLatches aig - 1) 0);
    [lia|].
  destruct (_andVector aig
              !! Z.to_nat (l / 2 - _numInputs aig - _numLatches aig - 1))
    eqn:Hlook; [by eauto|].
  apply lookup_ge_None in Hlook. lia.
Qed.

(** The three outcomes of an iteration of the work loop. *)
Lemma findCutsStep_outcomes e t rest :
  engine_inv e → stack_ok e (t :: rest) →
  ∃ an,
    getAndNodeFromLiteral (_aig e) t = OK an
    ∧ nodeIsAnd (_aig e) t = true
    ∧ cutSetOf e (t / 2) = []
    ∧ ((∃ c, (c = _firstChild an ∨ c = _secondChild an)
             ∧ nodeIsAnd (_aig e) c = true
             ∧ cutSetOf e (c / 2) = []
             ∧ c / 2 < t / 2
             ∧ findCutsStep e t rest = OK (e, c :: t :: rest))
       ∨ (isUnprocessedAnd e (_firstChild an) = OK false
          ∧ isUnprocessedAnd e (_secondChild an) = OK false
          ∧ findCutsStep e t rest
            = (e' ← processNode e t (_firstChild an) (_secondChild an);
               OK (e', rest)))).
Proof.
  intros Hinv Hstack.
  pose proof (engine_inv_shape e Hinv) as Hshape.
  pose proof (inv_aig e Hinv) as Hvalid.
  pose proof Hstack as [Hall _].
  apply Forall_inv in Hall as [Hand Hempty].
  rewrite indexFromLiteral_div in Hempty.
  destruct (getAndNodeFromLiteral_total _ _ Hvalid Hand) as [an Han].
  pose proof (getAndNodeFromLiteral_children _ Hvalid _ _ Han)
    as (_ & Hc1 & Hc0).
  exists an. split; [done|]. split; [done|]. split; [done|].
  unfold findCutsStep. rewrite Han. simpl.
  rewrite !isUnprocessedAnd_spec by done. simpl.
  destruct (nodeIsAnd (_aig e) (_firstChild an)) eqn:Hand0;
    [destruct (cutSetOf e (_firstChild an / 2)) eqn:Hcs0|].
  - left. exists (_firstChild an). repeat split; try done; auto. lia.
  - simpl. destruct (nodeIsAnd (_aig e) (_secondChild an)) eqn:Hand1;
      [destruct (cutSetOf e (_secondChild an / 2)) eqn:Hcs1|].
    + left. exists (_secondChild an). repeat split; try done; auto. lia.
    + by right.
    + by right.
  - simpl. destruct (nodeIsAnd (_aig e) (_secondChild an)) eqn:Hand1;
      [destruct (cutSetOf e (_secondChild an / 2)) eqn:Hcs1|].
    + left. exists (_secondChild an). repeat split; try done; auto. lia.
    + by right.
    + by right.
Qed.

(** Induction over the executions: a property of the engine that holds after
    the constructor and that processing one node keeps holds in every state
    an execution goes through. *)
Lemma reachable_processed_ind (Q : CutEngine → Prop) :
  (∀ aig mappingGoal k c e,
      integrityChecks aig = true →
      CutEngine_new aig mappingGoal k c = OK e → Q e) →
  (∀ e t an e',
      engine_inv e → Q e →
      nodeIsAnd (_aig e) t = true → cutSetOf e (t / 2) = [] →
      getAndNodeFromLiteral (_aig e) t = OK an →
      isUnprocessedAnd e (_firstChild an) = OK false →
      isUnprocessedAnd e (_secondChild an) = OK false →
      nodeIsLatch (_aig e) (_firstChild an) = false →
      nodeIsLatch (_aig e) (_secondChild an) = false →
      processNode e t (_firstChild an) (_secondChild an) = OK e' →
      Q e') →
  ∀ e stack, reachable e stack → Q e.
Proof.
  intros Hnew Hproc e stack Hreach.
  induction Hreach as [aig mg k c e Hvalid He|e l Hreach IH Hcs
                      |e t rest e' stack' Hreach IH Hstep].
  - by eapply Hnew.
  - done.
  - destruct (reachable_inv _ _ Hreach) as [Hinv Hstack].
    destruct (findCutsStep_outcomes e t rest Hinv Hstack)
      as (an & Han & Hand & Hempty & [(c & _ & _ & _ & _ & Heq)|(H0 & H1 & Heq)]).
    + rewrite Heq in Hstep. by injection Hstep as <- <-.
    + rewrite Heq in Hstep. bind_as Hstep e2 Hp. injection Hstep as <- <-.
      pose proof Hp as Hp'. unfold processNode in Hp'.
      bind_as Hp' cutSet Hphi.
      destruct (phiOperation_OK_children e Hinv t Hand Hempty an Han H0 H1
                  _ Hphi) as [Hl0 Hl1].
      by eapply (Hproc e t an e2).
Qed.

Lemma unprocessed_insert cutSets i cutSet :
  cutSets !! i = Some [] → cutSet ≠ [] →
  S (unprocessed (<[i := cutSet]> cutSets)) = unprocessed cutSets.
Proof.
  unfold unprocessed. revert i.
  induction cutSets as [|x rest IH]; intros i Hi Hne; [done|].
  destruct i as [|i]; simpl in Hi.
  - injection Hi as ->.
    change (<[0%nat := cutSet]> ([] :: rest)) with (cutSet :: rest).
    rewrite (filter_cons_True _ []) by done.
    by rewrite filter_cons_False.
  - change (<[S i := cutSet]> (x :: rest)) with (x :: <[i := cutSet]> rest).
    destruct (decide (x = [])).
    + rewrite !filter_cons_True by done.
      cbn [length]. f_equal. by apply IH.
    + rewrite !filter_cons_False by done. by apply IH.
Qed.

Lemma unprocessed_le cutSets : (unprocessed cutSets ≤ length cutSets)%nat.
Proof. apply length_filter. Qed.

Lemma combinational_no_latch aig l :
  isCombinational aig = true → integrityChecks aig = true →
  nodeIsLatch aig l = false.
Proof.
  unfold isCombinational. intros Hcomb Hvalid.
  destruct (Z.eqb_spec (_numLatches aig) 0) as [H0|]; [|discriminate].
  pose proof (integrityChecks_bounds _ Hvalid) as (HI & HL & HA & HM & Hfit).
  unfold nodeIsLatch. destruct (l <=? 1); [done|].
  rewrite H0, Z.add_0_r.
  replace (wrap (_numInputs aig)) with (_numInputs aig) by (unfold wrap; lia).
  destruct (Z.leb_spec (indexFromLiteral l) (_numInputs aig));
    destruct (Z.gtb_spec (indexFromLiteral l) (_numInputs aig)); try done.
  lia.
Qed.

Lemma cutSetOf_lookup e l :
  engine_shape e → nodeIsAnd (_aig e) l = true →
  _cutSetVector e
    !! Z.to_nat (l / 2 - _numInputs (_aig e) - _numLatches (_aig e) - 1)
  = Some (cutSetOf e (l / 2)).
Proof.
  intros Hshape Hand.
  destruct (vectorIndexFromAndLiteral_spec e Hshape l Hand) as [_ Hr].
  unfold cutSetOf.
  destruct (_cutSetVector e !! _) eqn:Hlook; [done|].
  apply lookup_ge_None in Hlook. lia.
Qed.

Lemma findCutsLoop_total fuel : ∀ e stack,
  engine_inv e → stack_ok e stack → isCombinational (_aig e) = true →
  match stack with
  | [] => True
  | t :: _ =>
      Z.of_nat (unprocessed (_cutSetVector e))
        * (_maxVariableIndex (_aig e) + 1) + t / 2 < Z.of_nat fuel
  end →
  ∃ e', findCutsLoop fuel e stack = OK e'
        ∧ (∀ t, t ∈ stack → cutSetOf e' (t / 2) ≠ [])
        ∧ (∀ v, isAndVariable (_aig e) v → cutSetOf e v ≠ [] →
                cutSetOf e' v = cutSetOf e v).
Proof.
  induction fuel as [|fuel IH]; intros e stack Hinv Hstack Hcomb Hfuel.
  { destruct stack as [|t rest].
    - exists e. split; [done|]. split; [|done].
      intros t Ht. by apply elem_of_nil in Ht.
    - pose proof Hstack as [Hall _].
      apply Forall_inv in Hall as [Hand _].
      apply (nodeIsAnd_spec _ (inv_aig e Hinv)) in Hand as [Hl _].
      pose proof (integrityChecks_bounds _ (inv_aig e Hinv))
        as (HI & HL & HA & HM & Hfit).
      simpl in Hfuel. nia. }
  destruct stack as [|t rest].
  { exists e. split; [done|]. split; [|done].
    intros t Ht. by apply elem_of_nil in Ht. }
  pose proof (engine_inv_shape e Hinv) as Hshape.
  pose proof (inv_aig e Hinv) as Hvalid.
  pose proof (integrityChecks_bounds _ Hvalid) as (HI & HL & HA & HM & Hfit).
  destruct (findCutsStep_outcomes e t rest Hinv Hstack)
    as (an & Han & Hand & Hempty
        & [(c & _ & Hc & Hcs & Hlt & Heq)|(H0 & H1 & Heq)]).
  - (* a child is pushed *)
    destruct (IH e (c :: t :: rest) Hinv) as (e' & Hloop & Hne & Hsame);
      [by apply stack_ok_push|done|lia|].
    exists e'. split; [simpl; by rewrite Heq|]. split; [|done].
    intros r Hr. apply Hne. by right.
  - (* the node is processed *)
    destruct (processNode_total e Hinv t Hand Hempty an Han H0 H1)
      as [e1 Hproc]; [by apply combinational_no_latch..|].
    assert (Hstep : findCutsStep e t rest = OK (e1, rest))
      by (by rewrite Heq, Hproc).
    destruct (findCutsStep_inv _ _ _ _ _ Hinv Hstack Hstep) as [Hinv1 Hstack1].
    pose proof (getAndNodeFromLiteral_children _ Hvalid _ _ Han)
      as (_ & Hc1 & Hc0).
    assert (Hlt0 : _firstChild an < 2 * (t / 2)) by lia.
    assert (Hlt1 : _secondChild an < 2 * (t / 2)) by lia.
    destruct (processNode_inv e Hinv t Hand Hempty _ _ Hlt0 Hlt1 _ Hproc)
      as (_ & Hne1 & Hsame1).
    destruct (processNode_result e Hinv t Hand Hempty _ _ Hlt0 Hlt1 _ Hproc)
      as (bestCut & others & m1 & _ & Hvec & (Haig & _) & _).
    assert (HU : S (unprocessed (_cutSetVector e1))
                 = unprocessed (_cutSetVector e)).
    { rewrite Hvec. apply unprocessed_insert; [|done].
      rewrite cutSetOf_lookup by done. by rewrite Hempty. }
    destruct (IH e1 rest Hinv1 Hstack1) as (e' & Hloop & Hne & Hsame).
    { by rewrite Haig. }
    { destruct rest as [|t2 rest2]; [done|].
      destruct Hstack1 as [Hall1 _].
      apply Forall_inv in Hall1 as [Hand2 _].
      apply (nodeIsAnd_spec _ (inv_aig e1 Hinv1)) in Hand2 as [_ Hv2].
      unfold isAndVariable in Hv2. rewrite Haig in *.
      apply (nodeIsAnd_spec _ Hvalid) in Hand as [Hl _]. nia. }
    exists e'. split; [simpl; by rewrite Hstep|].
    assert (Ht : isAndVariable (_aig e) (t / 2))
      by by apply (nodeIsAnd_spec _ Hvalid) in Hand as [_ ?].
    split.
    + intros r [->|Hr]%elem_of_cons; [|by apply Hne].
      rewrite Hsame; [done|by rewrite Haig|done].
    + intros v Hv Hcs.
      assert (v ≠ t / 2) by (intros ->; by rewrite Hempty in Hcs).
      rewrite Hsame; [by apply Hsame1|by rewrite Haig|].
      rewrite Hsame1 by done. done.
Qed.

Lemma findCuts_total fuel e andLiteral :
  engine_inv e → isCombinational (_aig e) = true →
  nodeIsAnd (_aig e) andLiteral = true →
  enoughFuel (_aig e) fuel →
  ∃ e' bestCut rest,
    findCuts fuel e andLiteral = OK (e', bestCut :: rest)
    ∧ cutSetOf e' (andLiteral / 2) = bestCut :: rest
    ∧ (∀ v, isAndVariable (_aig e) v → cutSetOf e v ≠ [] →
            cutSetOf e' v = cutSetOf e v).
Proof.
  intros Hinv Hcomb Hand Hfuel.
  pose proof (engine_inv_shape e Hinv) as Hshape.
  pose proof (inv_aig e Hinv) as Hvalid.
  pose proof (integrityChecks_bounds _ Hvalid) as (HI & HL & HA & HM & Hfit).
  pose proof (proj1 (nodeIsAnd_spec _ Hvalid _) Hand) as [Hl Hv].
  unfold findCuts. rewrite Hand. simpl.
  rewrite getCutSet_spec by done. simpl.
  destruct (vectorIndexFromAndLiteral_spec e Hshape _ Hand) as [Hidx _].
  destruct (cutSetOf e (andLiteral / 2)) as [|bestCut rest] eqn:Hcs.
  - destruct (findCutsLoop_total fuel e [andLiteral] Hinv)
      as (e' & Hloop & Hne & Hsame); [|done| |].
    { split; [|repeat constructor].
      constructor; [|done]. by rewrite indexFromLiteral_div. }
    { pose proof (unprocessed_le (_cutSetVector e)) as HU.
      pose proof (inv_length e Hinv) as Hlen.
      unfold enoughFuel, isAndVariable in *. nia. }
    rewrite Hloop. simpl.
    pose proof (findCutsLoop_config _ _ _ _ Hloop) as (Haig & _).
    assert (Hinv' : engine_inv e').
    { eapply findCutsLoop_inv; [exact Hinv| |exact Hloop].
      split; [|repeat constructor].
      constructor; [|done]. by rewrite indexFromLiteral_div. }
    pose proof (engine_inv_shape e' Hinv') as Hshape'.
    rewrite getCutSet_spec by (by rewrite ?Haig).
    specialize (Hne andLiteral ltac:(by left)).
    destruct (cutSetOf e' (andLiteral / 2)) as [|bestCut rest] eqn:Hcs';
      [done|].
    simpl.
    destruct (vectorIndexFromAndLiteral_spec e' Hshape' andLiteral)
      as [Hidx' _]; [by rewrite Haig|].
    rewrite Hidx'. simpl.
    rewrite cutSetVector_at by (by rewrite ?Haig).
    simpl. rewrite Hcs'. by eauto 10.
  - simpl. rewrite Hidx. simpl. rewrite cutSetVector_at by done.
    simpl. rewrite Hcs. exists e, bestCut, rest. done.
Qed.

Lemma covers_mono aig X Y v : X ⊆ Y → covers aig X v → covers aig Y v.
Proof.
  intros Hsub H. induction H as [v Hv|v an Hr Han _ IH0 _ IH1].
  - apply covers_leaf. by apply Hsub.
  - by eapply covers_and.
Qed.

Lemma covers_determines aig X v ρ1 ρ2 :
  covers aig X v → respectsAnds aig ρ1 → respectsAnds aig ρ2 →
  (∀ x, x ∈ X → ρ1 x = ρ2 x) → ρ1 v = ρ2 v.
Proof.
  intros H H1 H2 Hagree. induction H as [v Hv|v an Hr Han _ IH0 _ IH1].
  - by apply Hagree.
  - rewrite (H1 v an Hr Han), (H2 v an Hr Han). unfold literalValue.
    by rewrite IH0, IH1.
Qed.

Lemma getAndNodeFromLiteral_even aig l :
  integrityChecks aig = true → nodeIsAnd aig l = true →
  getAndNodeFromLiteral aig (literalFromIndex (l / 2))
  = getAndNodeFromLiteral aig l.
Proof.
  intros Hvalid Hand.
  pose proof (proj1 (nodeIsAnd_spec _ Hvalid _) Hand) as [Hl Hv].
  pose proof (andVariable_range _ Hvalid _ Hv) as Hr.
  rewrite literalFromIndex_small by lia.
  assert (Hand' : nodeIsAnd aig (2 * (l / 2)) = true).
  { apply (nodeIsAnd_spec _ Hvalid). split; [lia|].
    by replace (2 * (l / 2) / 2) with (l / 2) by lia. }
  unfold getAndNodeFromLiteral. rewrite Hand, Hand'. simpl.
  rewrite !indexFromLiteral_div.
  by replace (2 * (l / 2) / 2) with (l / 2) by lia.
Qed.

Lemma childCuts_elem e c x :
  x ∈ childCuts e c →
  _nodeVariables x = {[ c / 2 ]}
  ∨ (nodeIsInput (_aig e) c = false ∧ x ∈ cutSetOf e (c / 2)).
Proof.
  unfold childCuts. destruct (nodeIsInput (_aig e) c).
  - intros ->%list_elem_of_singleton. by left.
  - destruct (cutSetOf e (c / 2)) as [|bestCut rest] eqn:Hcs.
    + by intros ?%elem_of_nil.
    + intros [Hx| ->%list_elem_of_singleton]%elem_of_app; [|by left].
      right. split; [done|]. done.
Qed.

(** What processing the node on top of the stack changes. *)
Lemma processNode_cuts e t an e' :
  engine_inv e →
  nodeIsAnd (_aig e) t = true → cutSetOf e (t / 2) = [] →
  getAndNodeFromLiteral (_aig e) t = OK an →
  isUnprocessedAnd e (_firstChild an) = OK false →
  isUnprocessedAnd e (_secondChild an) = OK false →
  nodeIsLatch (_aig e) (_firstChild an) = false →
  nodeIsLatch (_aig e) (_secondChild an) = false →
  processNode e t (_firstChild an) (_secondChild an) = OK e' →
  same_config e e'
  ∧ cutSetOf e' (t / 2)
    = storedCuts e (diamondSpec e (childCuts e (_firstChild an))
                      (childCuts e (_secondChild an)) (_k e))
  ∧ cutSetOf e' (t / 2) ≠ []
  ∧ (∀ v, isAndVariable (_aig e) v → v ≠ t / 2 →
          cutSetOf e' v = cutSetOf e v)
  ∧ (∀ cut, cut ∈ cutSetOf e' (t / 2) →
       ∃ x y, x ∈ childCuts e (_firstChild an)
              ∧ y ∈ childCuts e (_secondChild an)
              ∧ cut = unionCutOf e x y).
Proof.
  intros Hinv Hand Hempty Han H0 H1 Hl0 Hl1 Hproc.
  pose proof (inv_aig e Hinv) as Hvalid.
  pose proof (getAndNodeFromLiteral_children _ Hvalid _ _ Han)
    as (_ & Hc1 & Hc0).
  assert (Hlt0 : _firstChild an < 2 * (t / 2)) by lia.
  assert (Hlt1 : _secondChild an < 2 * (t / 2)) by lia.
  destruct (processNode_inv e Hinv t Hand Hempty _ _ Hlt0 Hlt1 _ Hproc)
    as (_ & Hne & Hsame).
  pose proof (processNode_eq e Hinv t Hand Hempty an Han H0 H1 Hl0 Hl1 _ Hproc)
    as Heq.
  split; [by eapply processNode_config|]. split; [done|].
  split; [done|]. split; [done|].
  intros cut Hcut. rewrite Heq in Hcut.
  apply storedCuts_elem, diamondSpec_elem in Hcut
    as (x & y & Hx & Hy & -> & _).
  eauto.
Qed.

Lemma CutEngine_new_cutSetOf aig mappingGoal k c e v :
  CutEngine_new aig mappingGoal k c = OK e → cutSetOf e v = [].
Proof.
  unfold CutEngine_new. destruct (k <? 2); [discriminate|].
  intros [= <-]. unfold cutSetOf. simpl.
  destruct (replicate _ _ !! _) eqn:Hlook; [|done].
  by apply lookup_replicate in Hlook as [-> _].
Qed.

(** ** Every stored cut separates its node from the inputs *)

Lemma reachable_covers e stack :
  reachable e stack →
  ∀ v cut, isAndVariable (_aig e) v → cut ∈ cutSetOf e v →
           covers (_aig e) (_nodeVariables cut) v.
Proof.
  intros Hreach. pattern e.
  eapply reachable_processed_ind; [| |exact Hreach].
  - intros aig mg k c e0 _ He0 v cut _ Hcut.
    rewrite (CutEngine_new_cutSetOf _ _ _ _ _ _ He0) in Hcut.
    by apply elem_of_nil in Hcut.
  - clear e stack Hreach.
    intros e t an e' Hinv IH Hand Hempty Han H0 H1 Hl0 Hl1 Hproc.
    pose proof (inv_aig e Hinv) as Hvalid.
    pose proof (integrityChecks_bounds _ Hvalid) as (HI & HL & HA & HM & Hfit).
    pose proof (proj1 (nodeIsAnd_spec _ Hvalid _) Hand) as [Ht1 Ht].
    pose proof (getAndNodeFromLiteral_children _ Hvalid _ _ Han)
      as (_ & Hc1 & Hc0).
    destruct (processNode_cuts e t an e' Hinv Hand Hempty Han H0 H1 Hl0 Hl1
                Hproc) as ((Haig & _) & _ & _ & Hsame & Helem).
    rewrite Haig. intros v cut Hv Hcut.
    destruct (decide (v = t / 2)) as [->|Hne];
      [|rewrite Hsame in Hcut by done; by apply IH].
    destruct (Helem cut Hcut) as (x & y & Hx & Hy & ->).
    assert (Hchild : ∀ c z, 2 ≤ c < 2 * (t / 2) →
              nodeIsLatch (_aig e) c = false → z ∈ childCuts e c →
              covers (_aig e) (_nodeVariables z) (indexFromLiteral c)).
    { intros c z Hc Hl Hz. rewrite indexFromLiteral_div.
      apply childCuts_elem in Hz as [Hz|[Hni Hz]].
      - apply covers_leaf. rewrite Hz. by apply elem_of_singleton.
      - apply IH; [|done].
        destruct (node_kind (_aig e) c Hvalid) as [?|[?|Hca]];
          try congruence; try lia.
        { unfold isAndVariable in Ht. lia. }
        by apply (nodeIsAnd_spec _ Hvalid) in Hca as [_ ?]. }
    eapply covers_and.
    + pose proof (andVariable_range _ Hvalid _ Ht). lia.
    + rewrite getAndNodeFromLiteral_even by done. exact Han.
    + eapply covers_mono; [|apply (Hchild _ x); try done; lia].
      unfold unionCutOf. cbn [_nodeVariables]. apply union_subseteq_l.
    + eapply covers_mono; [|apply (Hchild _ y); try done; lia].
      unfold unionCutOf. cbn [_nodeVariables]. apply union_subseteq_r.
Qed.

Lemma goalComparision_asym mappingGoal a b :
  goalComparision mappingGoal a b = true →
  goalComparision mappingGoal b a = false.
Proof.
  destruct mappingGoal; simpl;
    unfold cutAreaComparision, cutDelayComparision, getAreaCost, getDelayCost;
    repeat match goal with
           | |- context [?x <? ?y] => destruct (Z.ltb_spec x y)
           | |- context [?x =? ?y] => destruct (Z.eqb_spec x y)
           end; try done; lia.
Qed.

Lemma goalComparision_negtrans mappingGoal a b c :
  goalComparision mappingGoal a b = false →
  goalComparision mappingGoal b c = false →
  goalComparision mappingGoal a c = false.
Proof.
  destruct mappingGoal; simpl;
    unfold cutAreaComparision, cutDelayComparision, getAreaCost, getDelayCost;
    repeat match goal with
           | |- context [?x <? ?y] => destruct (Z.ltb_spec x y)
           | |- context [?x =? ?y] => destruct (Z.eqb_spec x y)
           end; try done; lia.
Qed.

Lemma std_sort_insert_sorted mappingGoal x l :
  StronglySorted (notAfter mappingGoal) l →
  StronglySorted (notAfter mappingGoal)
    (std_sort_insert (goalComparision mappingGoal) x l).
Proof.
  induction l as [|y l IH]; intros Hs; simpl.
  { repeat constructor. }
  apply StronglySorted_inv in Hs as [Hs Hall].
  destruct (goalComparision mappingGoal y x) eqn:Hyx.
  - constructor; [by apply IH|].
    apply Forall_forall. intros z Hz.
    rewrite std_sort_insert_Permutation in Hz.
    apply elem_of_cons in Hz as [->|Hz].
    + by apply goalComparision_asym.
    + rewrite Forall_forall in Hall. by apply Hall.
  - constructor; [by constructor|].
    constructor; [done|].
    eapply Forall_impl; [exact Hall|].
    intros z Hz. unfold notAfter in *.
    by eapply goalComparision_negtrans.
Qed.

Lemma std_sort_sorted mappingGoal l :
  StronglySorted (notAfter mappingGoal)
    (std_sort (goalComparision mappingGoal) l).
Proof.
  induction l as [|x l IH]; simpl; [constructor|].
  by apply std_sort_insert_sorted.
Qed.

Lemma storedCuts_sorted e cutSet :
  StronglySorted (notAfter (_mappingGoal e)) (storedCuts e cutSet).
Proof.
  unfold storedCuts, sortAndChooseBestCuts, sortCutSet.
  pose proof (std_sort_sorted (_mappingGoal e) cutSet) as Hs.
  set (sorted := std_sort _ _) in *.
  destruct (_c e >? 0); [|done].
  destruct (_ >? _c e); [|done].
  rewrite <- (take_drop (Z.to_nat (_c e)) sorted) in Hs.
  by apply StronglySorted_app_1_l in Hs.
Qed.

Lemma storedCuts_length e cutSet :
  0 < _c e → Z.of_nat (length (storedCuts e cutSet)) ≤ _c e.
Proof.
  intros Hc. unfold storedCuts, sortAndChooseBestCuts.
  destruct (Z.gtb_spec (_c e) 0); [|lia].
  destruct (Z.gtb_spec (Z.of_nat (length (std_sort
              (goalComparision (_mappingGoal e)) cutSet))) (_c e)); [|lia].
  rewrite length_take. lia.
Qed.

Lemma storedCuts_NoDup e cutSet :
  NoDup (_nodeVariables <$> cutSet) →
  NoDup (_nodeVariables <$> storedCuts e cutSet).
Proof.
  intros Hnd. unfold storedCuts, sortAndChooseBestCuts, sortCutSet.
  assert (Hs : NoDup (_nodeVariables
                        <$> std_sort (goalComparision (_mappingGoal e)) cutSet)).
  { by rewrite std_sort_Permutation. }
  set (sorted := std_sort _ _) in *.
  destruct (_c e >? 0); [|done].
  destruct (_ >? _c e); [|done].
  rewrite <- (take_drop (Z.to_nat (_c e)) sorted), fmap_app in Hs.
  by apply NoDup_app in Hs as [? _].
Qed.

(** ** The shape of the stored cut sets *)

Lemma reachable_cutSet_shape e stack :
  reachable e stack →
  ∀ v, isAndVariable (_aig e) v →
       StronglySorted (notAfter (_mappingGoal e)) (cutSetOf e v)
       ∧ NoDup (_nodeVariables <$> cutSetOf e v)
       ∧ (0 < _c e → Z.of_nat (length (cutSetOf e v)) ≤ _c e).
Proof.
  intros Hreach. pattern e.
  eapply reachable_processed_ind; [| |exact Hreach].
  - intros aig mg k c e0 _ He0 v _.
    rewrite (CutEngine_new_cutSetOf _ _ _ _ _ _ He0).
    split; [constructor|]. split; [constructor|]. simpl. lia.
  - clear e stack Hreach.
    intros e t an e' Hinv IH Hand Hempty Han H0 H1 Hl0 Hl1 Hproc.
    destruct (processNode_cuts e t an e' Hinv Hand Hempty Han H0 H1 Hl0 Hl1
                Hproc) as ((Haig & _ & Hc & Hgoal & _) & Heq & _ & Hsame & _).
    rewrite Haig, Hc, Hgoal. intros v Hv.
    destruct (decide (v = t / 2)) as [->|Hne];
      [|rewrite Hsame by done; by apply IH].
    rewrite Heq. split; [apply storedCuts_sorted|].
    split; [apply storedCuts_NoDup, diamondSpec_NoDup|].
    apply storedCuts_length.
Qed.

(** ** The nodes below a processed node are processed *)

Lemma reachable_below e stack :
  reachable e stack →
  (∀ v cut x, isAndVariable (_aig e) v → cut ∈ cutSetOf e v →
              x ∈ _nodeVariables cut → isAndVariable (_aig e) x →
              cutSetOf e x ≠ [])
  ∧ (∀ l an c, nodeIsAnd (_aig e) l = true → cutSetOf e (l / 2) ≠ [] →
               getAndNodeFromLiteral (_aig e) l = OK an →
               c = _firstChild an ∨ c = _secondChild an →
               nodeIsAnd (_aig e) c = true → cutSetOf e (c / 2) ≠ []).
Proof.
  intros Hreach. pattern e.
  eapply reachable_processed_ind; [| |exact Hreach].
  - intros aig mg k c e0 _ He0. split.
    + intros v cut x _ Hcut.
      rewrite (CutEngine_new_cutSetOf _ _ _ _ _ _ He0) in Hcut.
      by apply elem_of_nil in Hcut.
    + intros l an ch _ Hcs.
      by rewrite (CutEngine_new_cutSetOf _ _ _ _ _ _ He0) in Hcs.
  - clear e stack Hreach.
    intros e t an e' Hinv [IHleaf IHchild] Hand Hempty Han H0 H1 Hl0 Hl1 Hproc.
    pose proof (inv_aig e Hinv) as Hvalid.
    pose proof (engine_inv_shape e Hinv) as Hshape.
    pose proof (proj1 (nodeIsAnd_spec _ Hvalid _) Hand) as [Ht1 Ht].
    destruct (processNode_cuts e t an e' Hinv Hand Hempty Han H0 H1 Hl0 Hl1
                Hproc) as ((Haig & _) & _ & Hne & Hsame & Helem).
    assert (Hkeep : ∀ v, isAndVariable (_aig e) v → cutSetOf e v ≠ [] →
                         cutSetOf e' v ≠ []).
    { intros v Hv Hcs. destruct (decide (v = t / 2)) as [->|Hnv]; [done|].
      by rewrite Hsame. }
    assert (Hunp : ∀ c, isUnprocessedAnd e c = OK false →
                        nodeIsAnd (_aig e) c = true → cutSetOf e (c / 2) ≠ []).
    { intros c Hu Hc. rewrite isUnprocessedAnd_spec, Hc in Hu by done.
      by destruct (cutSetOf e (c / 2)). }
    rewrite Haig. split.
    + intros v cut x Hv Hcut Hx Hxv.
      destruct (decide (v = t / 2)) as [->|Hnv].
      2:{ rewrite Hsame in Hcut by done. apply Hkeep; [done|].
          exact (IHleaf v cut x Hv Hcut Hx Hxv). }
      destruct (Helem cut Hcut) as (a & b & Ha & Hb & ->).
      assert (Hchild : ∀ c z, isUnprocessedAnd e c = OK false →
                2 ≤ c < 2 * (t / 2) → nodeIsLatch (_aig e) c = false →
                z ∈ childCuts e c → x ∈ _nodeVariables z →
                cutSetOf e' x ≠ []).
      { intros c z Hu Hc Hl Hz Hxz. apply Hkeep; [done|].
        apply childCuts_elem in Hz as [Hz|[Hni Hz]].
        - rewrite Hz in Hxz. apply elem_of_singleton in Hxz as ->.
          apply Hunp; [done|]. apply (nodeIsAnd_spec _ Hvalid).
          split; [|done]. unfold isAndVariable in Hxv.
          pose proof (integrityChecks_bounds _ Hvalid). lia.
        - eapply (IHleaf (c / 2)); [|exact Hz|exact Hxz|done].
          pose proof (integrityChecks_bounds _ Hvalid)
            as (HI & HL & HA & HM & Hfit).
          destruct (node_kind (_aig e) c Hvalid) as [?|[?|Hca]];
            try congruence; try lia.
          { unfold isAndVariable in Ht. lia. }
          by apply (nodeIsAnd_spec _ Hvalid) in Hca as [_ ?]. }
      pose proof (getAndNodeFromLiteral_children _ Hvalid _ _ Han)
        as (_ & Hc1 & Hc0).
      unfold unionCutOf in Hx. cbn [_nodeVariables] in Hx.
      apply elem_of_union in Hx as [Hx|Hx].
      * apply (Hchild (_firstChild an) a); try done. lia.
      * apply (Hchild (_secondChild an) b); try done. lia.
    + intros l an' c Hl Hcs Han' Hc Hca.
      destruct (decide (l / 2 = t / 2)) as [Heq|Hnl].
      * assert (an' = an) as ->.
        { rewrite <- (getAndNodeFromLiteral_even _ l) in Han' by done.
          rewrite <- (getAndNodeFromLiteral_even _ t) in Han by done.
          rewrite Heq in Han'. congruence. }
        apply Hkeep; [by apply (nodeIsAnd_spec _ Hvalid) in Hca as [_ ?]|].
        destruct Hc as [-> | ->]; by apply Hunp.
      * pose proof (proj1 (nodeIsAnd_spec _ Hvalid _) Hl) as [_ Hlv].
        rewrite Hsame in Hcs by done.
        apply Hkeep; [by apply (nodeIsAnd_spec _ Hvalid) in Hca as [_ ?]|].
        exact (IHchild l an' c Hl Hcs Han' Hc Hca).
Qed.

(** ** Marked nodes have a best cut of area zero *)

Lemma CutEngine_new_map aig mappingGoal k c e key :
  CutEngine_new aig mappingGoal k c = OK e →
  _implementationMap e !! key ≠ Some true.
Proof.
  unfold CutEngine_new. destruct (k <? 2); [discriminate|].
  intros [= <-]. simpl. rewrite initial_map_lookup, lookup_empty.
  by case_decide.
Qed.

Lemma reachable_implemented e stack :
  reachable e stack →
  ∀ key, _implementationMap e !! key = Some true →
         nodeIsAnd (_aig e) key = true
         ∧ ∃ bestCut rest, cutSetOf e (key / 2) = bestCut :: rest
                           ∧ _areaCost bestCut = 0.
Proof.
  intros Hreach. pattern e.
  eapply reachable_processed_ind; [| |exact Hreach].
  - intros aig mg k c e0 _ He0 key Hkey.
    by apply (CutEngine_new_map _ _ _ _ _ key) in He0.
  - clear e stack Hreach.
    intros e t an e' Hinv IH Hand Hempty Han H0 H1 Hl0 Hl1 Hproc.
    pose proof (inv_aig e Hinv) as Hvalid.
    pose proof (engine_inv_shape e Hinv) as Hshape.
    pose proof (proj1 (nodeIsAnd_spec _ Hvalid _) Hand) as [Ht1 Ht].
    pose proof (getAndNodeFromLiteral_children _ Hvalid _ _ Han)
      as (_ & Hc1 & Hc0).
    assert (Hlt0 : _firstChild an < 2 * (t / 2)) by lia.
    assert (Hlt1 : _secondChild an < 2 * (t / 2)) by lia.
    destruct (processNode_inv e Hinv t Hand Hempty _ _ Hlt0 Hlt1 _ Hproc)
      as (_ & _ & Hsame).
    destruct (processNode_result e Hinv t Hand Hempty _ _ Hlt0 Hlt1 _ Hproc)
      as (bestCut & others & m1 & _ & Hvec & (Haig & _) & Hm1 & Hfals).
    rewrite Haig. intros key Hkey.
    assert (Hold : _implementationMap e !! key = Some true →
              nodeIsAnd (_aig e) key = true
              ∧ ∃ bestCut rest, cutSetOf e' (key / 2) = bestCut :: rest
                                ∧ _areaCost bestCut = 0).
    { intros Hk. destruct (IH key Hk) as (Hka & b & r & Hcs & Harea).
      split; [done|]. exists b, r. split; [|done].
      rewrite Hsame; [done|by apply (nodeIsAnd_spec _ Hvalid) in Hka as [_ ?]|].
      intros Heq. rewrite Heq, Hempty in Hcs. done. }
    destruct (falsified_even _ _ _ _ key Hfals) as [Heq|Heq];
      [|congruence].
    rewrite Heq in Hkey.
    destruct Hm1 as [[-> _]|[-> Harea]]; [by apply Hold|].
    destruct (decide (t = key)) as [<-|Hne].
    + split; [done|]. exists bestCut, others. split; [|done].
      rewrite <- (decide_True (P := t / 2 = t / 2) (bestCut :: others)
                    (cutSetOf e (t / 2))) by done.
      rewrite <- (cutSetOf_store e t (bestCut :: others) (t / 2)) by done.
      apply cutSetOf_ext; [done|]. by rewrite Hvec.
    + rewrite lookup_insert_ne in Hkey by done. by apply Hold.
Qed.

(** ** A cut set is stored once *)

Lemma findCutsStep_stable e t rest e' stack' :
  engine_inv e → stack_ok e (t :: rest) →
  findCutsStep e t rest = OK (e', stack') →
  ∀ v, isAndVariable (_aig e) v → cutSetOf e v ≠ [] →
       cutSetOf e' v = cutSetOf e v.
Proof.
  intros Hinv Hstack Hstep v Hv Hcs.
  pose proof (inv_aig e Hinv) as Hvalid.
  destruct (findCutsStep_outcomes e t rest Hinv Hstack)
    as (an & Han & Hand & Hempty & [(c & _ & _ & _ & _ & Heq)|(H0 & H1 & Heq)]).
  - rewrite Heq in Hstep. by injection Hstep as <- <-.
  - rewrite Heq in Hstep. bind_as Hstep e2 Hp. injection Hstep as <- <-.
    pose proof (getAndNodeFromLiteral_children _ Hvalid _ _ Han)
      as (_ & Hc1 & Hc0).
    assert (Hlt0 : _firstChild an < 2 * (t / 2)) by lia.
    assert (Hlt1 : _secondChild an < 2 * (t / 2)) by lia.
    destruct (processNode_inv e Hinv t Hand Hempty _ _ Hlt0 Hlt1 _ Hp)
      as (_ & _ & Hsame).
    apply Hsame; [done|]. intros ->. by rewrite Hempty in Hcs.
Qed.

Lemma findCutsLoop_stable fuel : ∀ e stack e',
  engine_inv e → stack_ok e stack →
  findCutsLoop fuel e stack = OK e' →
  ∀ v, isAndVariable (_aig e) v → cutSetOf e v ≠ [] →
       cutSetOf e' v = cutSetOf e v.
Proof.
  induction fuel as [|fuel IH]; intros e stack e' Hinv Hstack H v Hv Hcs.
  - destruct stack; [by injection H as <-|discriminate].
  - destruct stack as [|t rest]; [by injection H as <-|].
    simpl in H. bind_as H [e1 stack1] Hstep.
    pose proof (findCutsStep_stable _ _ _ _ _ Hinv Hstack Hstep v Hv Hcs)
      as H1.
    pose proof (findCutsStep_config _ _ _ _ _ Hstep) as (Haig & _).
    destruct (findCutsStep_inv _ _ _ _ _ Hinv Hstack Hstep) as [Hinv1 Hstack1].
    rewrite <- H1. eapply IH; try done.
    + by rewrite Haig.
    + by rewrite H1.
Qed.

Lemma findCuts_stable fuel e andLiteral e' cutSet :
  engine_inv e → findCuts fuel e andLiteral = OK (e', cutSet) →
  (∀ v, isAndVariable (_aig e) v → cutSetOf e v ≠ [] →
        cutSetOf e' v = cutSetOf e v)
  ∧ cutSet = cutSetOf e' (andLiteral / 2)
  ∧ cutSet ≠ []
  ∧ nodeIsAnd (_aig e) andLiteral = true.
Proof.
  intros Hinv H. unfold findCuts in H.
  pose proof (engine_inv_shape e Hinv) as Hshape.
  destruct (nodeIsAnd (_aig e) andLiteral) eqn:Hand; [|discriminate].
  simpl in H. rewrite getCutSet_spec in H by done. simpl in H.
  destruct (vectorIndexFromAndLiteral_spec e Hshape _ Hand) as [Hidx _].
  destruct (cutSetOf e (andLiteral / 2)) as [|bestCut rest] eqn:Hcs.
  - bind_as H e1 Hloop.
    assert (Hstack : stack_ok e [andLiteral]).
    { split; [|repeat constructor].
      constructor; [|done]. by rewrite indexFromLiteral_div. }
    pose proof (findCutsLoop_config _ _ _ _ Hloop) as (Haig & _).
    pose proof (findCutsLoop_inv _ _ _ _ Hinv Hstack Hloop) as Hinv1.
    pose proof (engine_inv_shape e1 Hinv1) as Hshape1.
    rewrite getCutSet_spec in H by (by rewrite ?Haig). simpl in H.
    destruct (cutSetOf e1 (andLiteral / 2)) as [|b r] eqn:Hcs1;
      [discriminate|].
    destruct (vectorIndexFromAndLiteral_spec e1 Hshape1 andLiteral)
      as [Hidx1 _]; [by rewrite Haig|].
    rewrite Hidx1 in H. simpl in H.
    rewrite cutSetVector_at in H by (by rewrite ?Haig).
    simpl in H. injection H as <- <-.
    split; [by eapply findCutsLoop_stable|]. rewrite Hcs1. done.
  - rewrite Hidx in H. simpl in H. rewrite cutSetVector_at in H by done.
    simpl in H. injection H as <- <-. rewrite Hcs. done.
Qed.

Lemma elem_of_ascending (X : gset Z) x : x ∈ ascending X ↔ x ∈ X.
Proof.
  unfold ascending. rewrite merge_sort_Permutation. apply elem_of_elements.
Qed.

Lemma andLiteralsOf_elem aig cut l :
  l ∈ andLiteralsOf aig cut ↔
  ∃ x, l = literalFromIndex x ∧ x ∈ _nodeVariables cut
       ∧ nodeIsAnd aig (literalFromIndex x) = true.
Proof.
  unfold andLiteralsOf. rewrite elem_of_map.
  split; intros (x & -> & Hx); exists x; (split; [done|]).
  - by apply elem_of_filter in Hx as [? ?].
  - apply elem_of_filter. by destruct Hx.
Qed.

Section Frontier.
Context (e : CutEngine) (stack : list Z) (Hreach : reachable e stack).

Lemma bestCut_frontier l bestCut rest :
  nodeIsAnd (_aig e) l = true →
  cutSetOf e (l / 2) = bestCut :: rest →
  frontier_ok e (l / 2) (andLiteralsOf (_aig e) bestCut).
Proof.
  intros Hand Hcs l' (x & -> & Hx & Hxa)%andLiteralsOf_elem.
  destruct (reachable_inv _ _ Hreach) as [Hinv _].
  pose proof (inv_aig e Hinv) as Hvalid.
  pose proof (proj1 (nodeIsAnd_spec _ Hvalid _) Hand) as [_ Hv].
  pose proof (andVariable_range _ Hvalid _ Hv) as Hvr.
  assert (Hin : bestCut ∈ cutSetOf e (l / 2)) by (rewrite Hcs; by left).
  destruct (inv_cuts e Hinv _ _ Hv Hin) as (_ & Hr & _).
  specialize (Hr x Hx).
  rewrite literalFromIndex_small in * by lia.
  replace (2 * x / 2) with x by lia.
  split; [done|]. split; [|lia].
  destruct (reachable_below e stack Hreach) as [Hleaf _].
  apply (Hleaf (l / 2) bestCut x); try done.
  apply (nodeIsAnd_spec _ Hvalid) in Hxa as [_ Hxv].
  by replace (2 * x / 2) with x in Hxv by lia.
Qed.

Lemma frontier_ok_mono bound bound' X :
  frontier_ok e bound X → bound ≤ bound' → frontier_ok e bound' X.
Proof.
  intros H Hle l Hl. destruct (H l Hl) as (? & ? & ?).
  split; [done|]. split; [done|lia].
Qed.

Lemma frontier_ok_union bound X Y :
  frontier_ok e bound X → frontier_ok e bound Y →
  frontier_ok e bound (X ∪ Y).
Proof. intros HX HY l [?|?]%elem_of_union; auto. Qed.

Lemma visitNode_total tm nodeLiteral next bound :
  _cutEngine tm = e →
  nodeIsAnd (_aig e) nodeLiteral = true →
  cutSetOf e (nodeLiteral / 2) ≠ [] →
  nodeLiteral / 2 < bound + 1 →
  frontier_ok e bound next →
  ∃ tm' next',
    visitNode tm nodeLiteral next = OK (tm', next')
    ∧ _cutEngine tm' = e
    ∧ frontier_ok e bound next'.
Proof.
  intros He Hand Hcs Hlt Hnext.
  destruct (reachable_inv _ _ Hreach) as [Hinv _].
  pose proof (engine_inv_shape e Hinv) as Hshape.
  unfold visitNode.
  destruct (map_subscript _ nodeLiteral) as [m implemented].
  destruct implemented; simpl; [by eauto|].
  rewrite He. rewrite getBestCut_spec by done.
  destruct (cutSetOf e (nodeLiteral / 2)) as [|bestCut rest] eqn:Hbest;
    [done|].
  simpl. eexists _, _. split; [done|]. split; [done|].
  apply frontier_ok_union; [done|].
  eapply frontier_ok_mono; [by eapply bestCut_frontier|lia].
Qed.

Lemma visitNodes_total nodes : ∀ tm next bound,
  _cutEngine tm = e →
  Forall (λ l, nodeIsAnd (_aig e) l = true ∧ cutSetOf e (l / 2) ≠ []
               ∧ l / 2 < bound + 1) nodes →
  frontier_ok e bound next →
  ∃ tm' next',
    visitNodes tm nodes next = OK (tm', next')
    ∧ _cutEngine tm' = e
    ∧ frontier_ok e bound next'.
Proof.
  induction nodes as [|l nodes IH]; intros tm next bound He Hall Hnext.
  { simpl. by eauto. }
  apply Forall_cons in Hall as [(Hand & Hcs & Hlt) Hall].
  destruct (visitNode_total tm l next bound He Hand Hcs Hlt Hnext)
    as (tm1 & next1 & Hv & He1 & Hnext1).
  destruct (IH tm1 next1 bound He1 Hall Hnext1)
    as (tm' & next' & Hvs & He' & Hnext').
  exists tm', next'. simpl. rewrite Hv. simpl. by rewrite Hvs.
Qed.

Lemma frontierLoop_total fuel : ∀ tm currentIteration,
  _cutEngine tm = e →
  frontier_ok e (Z.of_nat fuel + 1) currentIteration →
  ∃ tm', frontierLoop fuel tm currentIteration = OK tm'
         ∧ _cutEngine tm' = e.
Proof.
  destruct (reachable_inv _ _ Hreach) as [Hinv _].
  pose proof (inv_aig e Hinv) as Hvalid.
  induction fuel as [|fuel IH]; intros tm cur He Hcur.
  - simpl. case_bool_decide as Hempty; [by eauto|].
    apply set_choose_L in Hempty as [l Hl].
    destruct (Hcur l Hl) as (Hand & _ & Hlt).
    apply (nodeIsAnd_spec _ Hvalid) in Hand as [_ Hv].
    pose proof (andVariable_range _ Hvalid _ Hv). lia.
  - simpl. case_bool_decide as Hempty; [by eauto|].
    destruct (visitNodes_total (ascending cur) tm ∅ (Z.of_nat fuel + 1) He)
      as (tm1 & next & Hvs & He1 & Hnext).
    + apply Forall_forall. intros l Hl%elem_of_ascending.
      destruct (Hcur l Hl) as (? & ? & ?).
      split; [done|]. split; [done|lia].
    + intros l Hl. by apply elem_of_empty in Hl.
    + rewrite Hvs. simpl. by apply IH.
Qed.

End Frontier.

Lemma mapOutput_total fuel tm outputLiteral :
  reachable (_cutEngine tm) [] →
  isCombinational (_aig (_cutEngine tm)) = true →
  enoughFuel (_aig (_cutEngine tm)) fuel →
  ∃ tm', mapOutput fuel tm outputLiteral = OK tm'
         ∧ reachable (_cutEngine tm') []
         ∧ _aig (_cutEngine tm') = _aig (_cutEngine tm).
Proof.
  intros Hreach Hcomb Hfuel.
  destruct (reachable_inv _ _ Hreach) as [Hinv _].
  pose proof (inv_aig _ Hinv) as Hvalid.
  pose proof (integrityChecks_bounds _ Hvalid) as (HI & HL & HA & HM & Hfit).
  unfold mapOutput.
  destruct (nodeIsAnd (_aig (_cutEngine tm)) outputLiteral) eqn:Hand.
  2:{ destruct (_ || _); eauto. }
  destruct (map_subscript _ _) as [m implemented].
  destruct implemented; simpl; [by eauto|].
  destruct (findCuts_total fuel _ outputLiteral Hinv Hcomb Hand Hfuel)
    as (e' & bestCut & rest & Hfind & Hcs & _).
  rewrite Hfind. simpl.
  pose proof (reachable_findCuts _ _ _ _ _ Hreach Hfind) as Hreach'.
  pose proof (findCuts_config _ _ _ _ _ Hfind) as (Haig & _).
  destruct (reachable_inv _ _ Hreach') as [Hinv' _].
  pose proof (engine_inv_shape e' Hinv') as Hshape'.
  pose proof (proj1 (nodeIsAnd_spec _ Hvalid _) Hand) as [Hl Hv].
  pose proof (andVariable_range _ Hvalid _ Hv) as Hvr.
  rewrite (evenLiteral_and _ _ Hvalid Hand).
  assert (Heven : nodeIsAnd (_aig e') (2 * (outputLiteral / 2)) = true).
  { rewrite Haig. apply (nodeIsAnd_spec _ Hvalid). split; [lia|].
    by replace (2 * (outputLiteral / 2) / 2) with (outputLiteral / 2) by lia. }
  rewrite getBestCut_spec by done.
  replace (2 * (outputLiteral / 2) / 2) with (outputLiteral / 2) by lia.
  rewrite Hcs. simpl.
  set (tm1 := mkTechMapper _ _ _ _ _).
  destruct (frontierLoop_total e' [] Hreach' fuel tm1
              (andLiteralsOf (_aig (_cutEngine tm)) bestCut))
    as (tm' & Hloop & He'); [done| |].
  { rewrite <- Haig. eapply frontier_ok_mono.
    - eapply (bestCut_frontier e' [] Hreach' outputLiteral);
        [by rewrite Haig|done].
    - unfold enoughFuel, isAndVariable in *. nia. }
  exists tm'. split; [done|]. rewrite He'. done.
Qed.

Lemma mapOutputs_total fuel outputs : ∀ tm,
  reachable (_cutEngine tm) [] →
  isCombinational (_aig (_cutEngine tm)) = true →
  enoughFuel (_aig (_cutEngine tm)) fuel →
  ∃ tm', mapOutputs fuel tm outputs = OK tm'
         ∧ reachable (_cutEngine tm') []
         ∧ _aig (_cutEngine tm') = _aig (_cutEngine tm).
Proof.
  induction outputs as [|o outputs IH]; intros tm Hreach Hcomb Hfuel.
  { simpl. by eauto. }
  destruct (mapOutput_total fuel tm o Hreach Hcomb Hfuel)
    as (tm1 & Hone & Hreach1 & Haig1).
  destruct (IH tm1 Hreach1) as (tm' & Hall & Hreach' & Haig');
    [by rewrite Haig1..|].
  exists tm'. simpl. rewrite Hone. simpl.
  split; [done|]. split; [done|]. by rewrite Haig', Haig1.
Qed.

Lemma getBestCut_OK e l cut :
  engine_shape e → getBestCut e l = OK cut →
  nodeIsAnd (_aig e) l = true ∧ ∃ rest, cutSetOf e (l / 2) = cut :: rest.
Proof.
  intros Hshape H.
  destruct (nodeIsAnd (_aig e) l) eqn:Hand.
  - rewrite getBestCut_spec in H by done. split; [done|].
    destruct (cutSetOf e (l / 2)); [discriminate|].
    injection H as ->. eauto.
  - unfold getBestCut in H. by rewrite Hand in H.
Qed.

Lemma map_subscript_lookup m key m' b key' :
  map_subscript m key = (m', b) →
  m' !! key' = Some true → m !! key' = Some true.
Proof.
  unfold map_subscript. destruct (m !! key) eqn:Hk; intros [= <- <-]; [done|].
  destruct (decide (key = key')) as [<-|Hne].
  - by rewrite lookup_insert_eq.
  - by rewrite lookup_insert_ne.
Qed.

Lemma visitNode_marks tm nodeLiteral next tm' next' :
  engine_shape (_cutEngine tm) →
  visitNode tm nodeLiteral next = OK (tm', next') →
  marks_ok tm → _cutEngine tm' = _cutEngine tm ∧ marks_ok tm'.
Proof.
  intros Hshape H Hok. unfold visitNode in H.
  destruct (map_subscript _ nodeLiteral) as [m implemented] eqn:Hsub.
  destruct implemented; simpl in H.
  - injection H as <- <-. split; [done|].
    intros key Hkey. simpl in *.
    by eapply Hok, map_subscript_lookup.
  - bind_as H best Hbest. injection H as <- <-. split; [done|].
    apply getBestCut_OK in Hbest as [Hand [rest Hcs]]; [|done].
    intros key Hkey. simpl in *.
    destruct (decide (nodeLiteral = key)) as [<-|Hne].
    + split; [done|]. by rewrite Hcs.
    + rewrite lookup_insert_ne in Hkey by done.
      by eapply Hok, map_subscript_lookup.
Qed.

Lemma visitNodes_marks nodes : ∀ tm next tm' next',
  engine_shape (_cutEngine tm) →
  visitNodes tm nodes next = OK (tm', next') →
  marks_ok tm → _cutEngine tm' = _cutEngine tm ∧ marks_ok tm'.
Proof.
  induction nodes as [|l nodes IH]; intros tm next tm' next' Hshape H Hok.
  { by injection H as <- <-. }
  simpl in H. bind_as H [tm1 next1] Hv.
  destruct (visitNode_marks _ _ _ _ _ Hshape Hv Hok) as [He1 Hok1].
  destruct (IH tm1 next1 tm' next') as [He' Hok']; [by rewrite He1|done..|].
  split; [by rewrite He', He1|done].
Qed.

Lemma frontierLoop_marks fuel : ∀ tm current tm',
  engine_shape (_cutEngine tm) →
  frontierLoop fuel tm current = OK tm' →
  marks_ok tm → _cutEngine tm' = _cutEngine tm ∧ marks_ok tm'.
Proof.
  induction fuel as [|fuel IH]; intros tm current tm' Hshape H Hok;
    simpl in H; case_bool_decide; try discriminate;
    try (by injection H as <-).
  bind_as H [tm1 next] Hv.
  destruct (visitNodes_marks _ _ _ _ _ Hshape Hv Hok) as [He1 Hok1].
  destruct (IH tm1 next tm') as [He' Hok']; [by rewrite He1|done..|].
  split; [by rewrite He', He1|done].
Qed.

Lemma mapOutput_marks fuel tm outputLiteral tm' :
  reachable (_cutEngine tm) [] →
  mapOutput fuel tm outputLiteral = OK tm' →
  marks_ok tm → reachable (_cutEngine tm') [] ∧ marks_ok tm'.
Proof.
  intros Hreach H Hok.
  destruct (reachable_inv _ _ Hreach) as [Hinv _].
  pose proof (inv_aig _ Hinv) as Hvalid.
  unfold mapOutput in H.
  destruct (nodeIsAnd (_aig (_cutEngine tm)) outputLiteral) eqn:Hand.
  2:{ destruct (_ || _); injection H as <-; done. }
  destruct (map_subscript _ _) as [m implemented] eqn:Hsub.
  destruct implemented; simpl in H.
  { injection H as <-. split; [done|]. intros key Hkey. simpl in *.
    by eapply Hok, map_subscript_lookup. }
  bind_as H [e' cutSet] Hfind.
  bind_as H best Hbest.
  pose proof (reachable_findCuts _ _ _ _ _ Hreach Hfind) as Hreach'.
  pose proof (findCuts_config _ _ _ _ _ Hfind) as (Haig & _).
  destruct (findCuts_stable _ _ _ _ _ Hinv Hfind) as (Hstable & _).
  destruct (reachable_inv _ _ Hreach') as [Hinv' _].
  pose proof (engine_inv_shape e' Hinv') as Hshape'.
  apply getBestCut_OK in Hbest as [Heven [rest Hcs]]; [|done].
  apply frontierLoop_marks in H as [He Hok']; [by rewrite He| |].
  { done. }
  intros key Hkey. simpl in *.
  destruct (decide (evenLiteral outputLiteral = key)) as [<-|Hne].
  - split; [done|]. by rewrite Hcs.
  - rewrite lookup_insert_ne in Hkey by done.
    destruct (Hok key) as [Hka Hkcs]; [by eapply map_subscript_lookup|].
    split; [by rewrite Haig|].
    rewrite Hstable; [done| |done].
    by apply (nodeIsAnd_spec _ Hvalid) in Hka as [_ ?].
Qed.

Lemma mapOutputs_marks fuel outputs : ∀ tm tm',
  reachable (_cutEngine tm) [] →
  mapOutputs fuel tm outputs = OK tm' →
  marks_ok tm → reachable (_cutEngine tm') [] ∧ marks_ok tm'.
Proof.
  induction outputs as [|o outputs IH]; intros tm tm' Hreach H Hok.
  { by injection H as <-. }
  simpl in H. bind_as H tm1 Hone.
  destruct (mapOutput_marks _ _ _ _ Hreach Hone Hok) as [Hreach1 Hok1].
  by eapply IH.
Qed.

Lemma TechMapper_new_marks e : marks_ok (TechMapper_new e).
Proof.
  intros key Hkey. unfold TechMapper_new in Hkey. simpl in Hkey.
  rewrite initial_map_lookup, lookup_empty in Hkey. by case_decide.
Qed.

(** ** Printing after a run *)

Lemma printImplementationEntries_complete e m nodes : ∀ os,
  (∀ node, m !! node = Some true → ∃ cut, getBestCut e node = OK cut) →
  (printImplementationEntries e m nodes os).2 = None.
Proof.
  intros os Hbest. revert os.
  induction nodes as [|node nodes IH]; intros os; [done|].
  simpl. destruct (m !! node) as [[]|] eqn:Hnode; try apply IH.
  destruct (Hbest node Hnode) as [cut ->]. apply IH.
Qed.

Lemma andLiteralFromVectorIndex_OK e i :
  integrityChecks (_aig e) = true → 0 ≤ i ≤ _numAnds (_aig e) →
  ∃ l, andLiteralFromVectorIndex e i = OK l.
Proof.
  intros Hvalid Hi.
  pose proof (integrityChecks_bounds _ Hvalid) as (HI & HL & HA & HM & Hfit).
  unfold andLiteralFromVectorIndex.
  rewrite literalFromIndex_small by lia.
  replace (wrap (2 * _maxVariableIndex (_aig e) + 1))
    with (2 * _maxVariableIndex (_aig e) + 1) by (unfold wrap; lia).
  destruct (Z.gtb_spec i (2 * _maxVariableIndex (_aig e) + 1)); [lia|].
  eauto.
Qed.

Lemma printCutSets_complete e cutSets : ∀ i os,
  integrityChecks (_aig e) = true →
  0 ≤ i → i + Z.of_nat (length cutSets) ≤ _numAnds (_aig e) →
  (printCutSets e i cutSets os).2 = None.
Proof.
  induction cutSets as [|cutSet rest IH]; intros i os Hvalid Hi Hlen; [done|].
  simpl in *.
  destruct (andLiteralFromVectorIndex_OK e i Hvalid) as [l ->]; [lia|].
  apply IH; [done|lia..].
Qed.

Lemma hasBestCut_spec e l :
  engine_shape e → nodeIsAnd (_aig e) l = true →
  hasBestCut e l
  = OK (match cutSetOf e (l / 2) with [] => false | _ => true end).
Proof.
  intros Hshape Hand. unfold hasBestCut. rewrite Hand. simpl.
  destruct (vectorIndexFromAndLiteral_spec e Hshape l Hand) as [-> _].
  simpl. rewrite cutSetVector_at by done. simpl.
  by destruct (cutSetOf e (l / 2)).
Qed.

Lemma CutEngine_new_OK aig mappingGoal k c :
  2 ≤ k → ∃ e, CutEngine_new aig mappingGoal k c = OK e ∧ _aig e = aig.
Proof.
  intros Hk. unfold CutEngine_new.
  destruct (Z.ltb_spec k 2); [lia|]. eauto.
Qed.

Lemma CutEngine_runOutputs_total fuel outputs : ∀ e,
  reachable e [] → isCombinational (_aig e) = true →
  enoughFuel (_aig e) fuel →
  ∃ e', CutEngine_runOutputs fuel e outputs = OK e'
        ∧ reachable e' [] ∧ _aig e' = _aig e
        ∧ (∀ v, isAndVariable (_aig e) v → cutSetOf e v ≠ [] →
                cutSetOf e' v = cutSetOf e v)
        ∧ (∀ o, o ∈ outputs → nodeIsAnd (_aig e) o = true →
                cutSetOf e' (o / 2) ≠ []).
Proof.
  induction outputs as [|o outputs IH]; intros e Hreach Hcomb Hfuel.
  { exists e. simpl. repeat split; try done.
    intros o Ho. by apply elem_of_nil in Ho. }
  destruct (reachable_inv _ _ Hreach) as [Hinv _].
  pose proof (inv_aig e Hinv) as Hvalid.
  simpl. destruct (nodeIsAnd (_aig e) o) eqn:Hand.
  - destruct (findCuts_total fuel e o Hinv Hcomb Hand Hfuel)
      as (e1 & bestCut & rest & Hfind & Hcs & Hst).
    pose proof (reachable_findCuts _ _ _ _ _ Hreach Hfind) as Hreach1.
    pose proof (findCuts_config _ _ _ _ _ Hfind) as (Haig & _).
    destruct (IH e1 Hreach1) as (e' & Hrun & Hreach' & Haig' & Hst' & Hout);
      [by rewrite Haig..|].
    rewrite Haig in *.
    exists e'. rewrite Hfind. simpl. split; [done|]. split; [done|].
    split; [by rewrite Haig'|].
    assert (Hkeep : ∀ v, isAndVariable (_aig e) v → cutSetOf e1 v ≠ [] →
                         cutSetOf e' v ≠ []).
    { intros v Hv Hne. by rewrite Hst'. }
    split.
    + intros v Hv Hne. rewrite Hst'; [by apply Hst|done|].
      by rewrite Hst.
    + intros o' [->|Ho']%elem_of_cons Hand'; [|by apply Hout].
      apply Hkeep; [by apply (nodeIsAnd_spec _ Hvalid) in Hand as [_ ?]|].
      by rewrite Hcs.
  - destruct (IH e Hreach Hcomb Hfuel)
      as (e' & Hrun & Hreach' & Haig' & Hst' & Hout).
    exists e'. repeat split; try done.
    intros o' [->|Ho']%elem_of_cons Hand'; [congruence|by apply Hout].
Qed.

(** X1. On a combinational design a call of [findCuts] on an and-literal
    returns: the work loop needs at most (A + 1) * (M + 1) iterations, and
    the literal has a cut set, hence a best cut, afterwards. *)
Theorem findCuts_returns_on_combinational (fuel : nat) (e : CutEngine)
    (andLiteral : Z) :
  reachable e [] →
  isCombinational (_aig e) = true →
  nodeIsAnd (_aig e) andLiteral = true →
  enoughFuel (_aig e) fuel →
  ∃ e' cutSet,
    findCuts fuel e andLiteral = OK (e', cutSet)
    ∧ cutSet ≠ []
    ∧ getCutSet e' andLiteral = OK cutSet
    ∧ hasBestCut e' andLiteral = OK true.
Proof.
  intros Hreach Hcomb Hand Hfuel.
  destruct (reachable_inv _ _ Hreach) as [Hinv _].
  destruct (findCuts_total fuel e andLiteral Hinv Hcomb Hand Hfuel)
    as (e' & bestCut & rest & Hfind & Hcs & _).
  pose proof (findCuts_config _ _ _ _ _ Hfind) as (Haig & _).
  pose proof (findCuts_inv _ _ _ _ _ Hinv Hfind) as Hinv'.
  pose proof (engine_inv_shape e' Hinv') as Hshape'.
  exists e', (bestCut :: rest). split; [done|]. split; [done|].
  rewrite getCutSet_spec, hasBestCut_spec by (by rewrite ?Haig).
  by rewrite Hcs.
Qed.

Lemma findCuts_returns_on_combinational_witness :
  ∃ e' cutSet,
    findCuts 8 engineSingleAnd 6 = OK (e', cutSet)
    ∧ cutSet ≠ []
    ∧ getCutSet e' 6 = OK cutSet
    ∧ hasBestCut e' 6 = OK true.
Proof.
  apply (findCuts_returns_on_combinational 8 engineSingleAnd 6).
  - apply engineSingleAnd_reachable.
  - reflexivity.
  - reflexivity.
  - unfold enoughFuel. vm_compute. discriminate.
Defined.

(** X2. [CutEngine::run] on a design that passed the integrity checks and
    has no latch returns, and every output that is an and-node has a best
    cut afterwards. *)
Theorem CutEngine_run_returns_on_combinational (fuel : nat)
    (aig : AndInverterGraph) (mappingGoal : MappingGoal) (k c : Z)
    (e : CutEngine) :
  integrityChecks aig = true →
  isCombinational aig = true →
  CutEngine_new aig mappingGoal k c = OK e →
  enoughFuel aig fuel →
  ∃ e', CutEngine_run fuel e = OK e'
        ∧ ∀ o, o ∈ _outputLiteralVector aig → nodeIsAnd aig o = true →
               hasBestCut e' o = OK true.
Proof.
  intros Hvalid Hcomb Hnew Hfuel.
  pose proof (reachable_new _ _ _ _ _ Hvalid Hnew) as Hreach.
  assert (Haig : _aig e = aig).
  { unfold CutEngine_new in Hnew. destruct (k <? 2); [discriminate|].
    by injection Hnew as <-. }
  destruct (CutEngine_runOutputs_total fuel (_outputLiteralVector aig) e Hreach)
    as (e' & Hrun & Hreach' & Haig' & _ & Hout); [by rewrite Haig..|].
  exists e'. unfold CutEngine_run. rewrite Haig. split; [done|].
  intros o Ho Hand.
  destruct (reachable_inv _ _ Hreach') as [Hinv' _].
  rewrite hasBestCut_spec;
    [|by apply engine_inv_shape|by rewrite Haig', Haig].
  specialize (Hout o Ho). rewrite Haig in Hout. specialize (Hout Hand).
  by destruct (cutSetOf e' (o / 2)).
Qed.

Lemma CutEngine_run_returns_on_combinational_witness :
  ∃ e', CutEngine_run 24 engineShared = OK e'
        ∧ ∀ o, o ∈ _outputLiteralVector aigShared →
               nodeIsAnd aigShared o = true → hasBestCut e' o = OK true.
Proof.
  apply (CutEngine_run_returns_on_combinational 24 aigShared MinimizeArea 2 0).
  - reflexivity.
  - reflexivity.
  - reflexivity.
  - unfold enoughFuel. vm_compute. discriminate.
Defined.

(** X3. The whole pipeline of [main] (constructor of the engine,
    constructor of the mapper, [TechMapper::run]) returns on a
    combinational design that passed the integrity checks, for every
    k of 2 or more, every c and both mapping goals; every output that is
    an and-node is marked implemented under its even literal. *)
Theorem TechMapper_run_returns_on_combinational (fuel : nat)
    (aig : AndInverterGraph) (mappingGoal : MappingGoal) (k c : Z) :
  integrityChecks aig = true →
  isCombinational aig = true →
  2 ≤ k →
  enoughFuel aig fuel →
  ∃ tm, pipeline fuel aig mappingGoal k c = OK tm
        ∧ _aig (_cutEngine tm) = aig
        ∧ ∀ o, o ∈ _outputLiteralVector aig → nodeIsAnd aig o = true →
               _mapperImplementationMap tm !! evenLiteral o = Some true.
Proof.
  intros Hvalid Hcomb Hk Hfuel.
  destruct (CutEngine_new_OK aig mappingGoal k c Hk) as (e & Hnew & Haig).
  pose proof (reachable_new _ _ _ _ _ Hvalid Hnew) as Hreach.
  destruct (mapOutputs_total fuel (_outputLiteralVector aig) (TechMapper_new e))
    as (tm & Hrun & _ & Haig'); [simpl; by rewrite ?Haig..|].
  simpl in Haig'.
  exists tm. unfold pipeline, TechMapper_run. rewrite Hnew. simpl.
  rewrite Haig. split; [done|]. split; [by rewrite Haig'|].
  apply mapOutputs_post in Hrun as (_ & Hmark & _).
  simpl in Hmark. rewrite Haig in Hmark. done.
Qed.

Lemma TechMapper_run_returns_on_combinational_witness :
  ∃ tm, pipeline 24 aigShared MinimizeArea 2 0 = OK tm
        ∧ _aig (_cutEngine tm) = aigShared
        ∧ ∀ o, o ∈ _outputLiteralVector aigShared →
               nodeIsAnd aigShared o = true →
               _mapperImplementationMap tm !! evenLiteral o = Some true.
Proof.
  apply (TechMapper_run_returns_on_combinational 24 aigShared MinimizeArea 2 0).
  - reflexivity.
  - reflexivity.
  - lia.
  - unfold enoughFuel. vm_compute. discriminate.
Defined.

(** X4. The command-line tool on a combinational design that passed the
    integrity checks, with k of 2 or more after conversion to unsigned:
    nothing is written to the error stream, no [getBestCut] of the three
    printing functions raises, and the output starts with the report of the
    mapper. *)
Theorem main_reports_on_combinational (fuel : nat) (cl : CommandLine)
    (aig : AndInverterGraph) :
  argInputFile cl = Some (OK aig) →
  integrityChecks aig = true →
  isCombinational aig = true →
  2 ≤ wrap (mainK cl) →
  enoughFuel aig fuel →
  exitCode (main fuel cl) = 0
  ∧ stderrLines (main fuel cl) = []
  ∧ ∃ tm more,
      pipeline fuel aig (mainGoal cl) (wrap (mainK cl)) (wrap (mainC cl))
      = OK tm
      ∧ stdoutLines (main fuel cl)
        = [ResultsHeaderLine; LutCountLine (_mappingAreaCost tm);
           LevelsLine (_mappingDelayCost tm)] ++ more.
Proof.
  intros Hload Hvalid Hcomb Hk Hfuel.
  destruct (CutEngine_new_OK aig (mainGoal cl) (wrap (mainK cl))
              (wrap (mainC cl)) Hk) as (e & Hnew & Haig).
  pose proof (reachable_new _ _ _ _ _ Hvalid Hnew) as Hreach.
  destruct (mapOutputs_total fuel (_outputLiteralVector aig) (TechMapper_new e))
    as (tm & Hrun & _ & Haig'); [simpl; by rewrite ?Haig..|].
  simpl in Haig'.
  destruct (mapOutputs_marks fuel (_outputLiteralVector aig)
              (TechMapper_new e) tm Hreach Hrun (TechMapper_new_marks e))
    as [Hreach' Hmarks].
  destruct (reachable_inv _ _ Hreach') as [Hinv' _].
  pose proof (engine_inv_shape _ Hinv') as Hshape'.
  assert (Hp1 : ∀ os, (printImplementation (_cutEngine tm)
                         (_mapperImplementationMap tm) os).2 = None).
  { intros os. apply printImplementationEntries_complete.
    intros node Hnode. destruct (Hmarks node Hnode) as [Hand Hcs].
    rewrite getBestCut_spec by done.
    destruct (cutSetOf (_cutEngine tm) (node / 2)); [done|eauto]. }
  assert (Hp2 : ∀ os, (printCutEngine (_cutEngine tm) os).2 = None).
  { intros os. apply printCutSets_complete.
    - apply (inv_aig _ Hinv').
    - lia.
    - pose proof (inv_length _ Hinv'). lia. }
  assert (Hp3 : ∀ os, (printImplementation (_cutEngine tm)
                         (_implementationMap (_cutEngine tm)) os).2 = None).
  { intros os. apply printImplementationEntries_complete.
    intros node Hnode.
    destruct (reachable_implemented _ _ Hreach' node Hnode)
      as (Hand & bestCut & rest & Hcs & _).
    rewrite getBestCut_spec by done. rewrite Hcs. eauto. }
  assert (Hpipe : pipeline fuel aig (mainGoal cl) (wrap (mainK cl))
                    (wrap (mainC cl)) = OK tm).
  { unfold pipeline, TechMapper_run. rewrite Hnew. simpl. by rewrite Haig. }
  pose proof Hpipe as Hpipe'.
  unfold main. rewrite Hload. unfold mainBody. rewrite Hnew.
  unfold pipeline in Hpipe. rewrite Hnew in Hpipe. simpl in Hpipe.
  rewrite Hpipe.
  destruct (printImplementation_extends (_cutEngine tm)
              (_mapperImplementationMap tm) (printResults tm []))
    as [more1 Hm1].
  specialize (Hp1 (printResults tm [])).
  destruct (printImplementation _ _ (printResults tm [])) as [os2 err2].
  simpl in Hp1, Hm1. subst err2 os2.
  destruct (printCutEngine_extends (_cutEngine tm) (printResults tm [] ++ more1))
    as [more2 Hm2].
  specialize (Hp2 (printResults tm [] ++ more1)).
  destruct (printCutEngine _ _) as [os3 err3].
  simpl in Hp2, Hm2. subst err3 os3.
  destruct (printImplementation_extends (_cutEngine tm)
              (_implementationMap (_cutEngine tm))
              ((printResults tm [] ++ more1) ++ more2))
    as [more3 Hm3].
  specialize (Hp3 ((printResults tm [] ++ more1) ++ more2)).
  destruct (printImplementation _ _ _) as [os4 err4].
  simpl in Hp3, Hm3. subst err4 os4.
  simpl. split; [done|]. split; [done|].
  exists tm, (more1 ++ more2 ++ more3). split; [done|].
  unfold printResults. simpl. by rewrite <- !app_assoc.
Qed.

Lemma main_reports_on_combinational_witness :
  exitCode (main 24 (mkCommandLine (Some (OK aigShared)) (Some 2) None None))
  = 0
  ∧ stderrLines
      (main 24 (mkCommandLine (Some (OK aigShared)) (Some 2) None None)) = []
  ∧ ∃ tm more,
      pipeline 24 aigShared MinimizeArea 2 0 = OK tm
      ∧ stdoutLines
          (main 24 (mkCommandLine (Some (OK aigShared)) (Some 2) None None))
        = [ResultsHeaderLine; LutCountLine (_mappingAreaCost tm);
           LevelsLine (_mappingDelayCost tm)] ++ more.
Proof.
  apply (main_reports_on_combinational 24
           (mkCommandLine (Some (OK aigShared)) (Some 2) None None) aigShared).
  - reflexivity.
  - reflexivity.
  - reflexivity.
  - vm_compute. discriminate.
  - unfold enoughFuel. vm_compute. discriminate.
Defined.

Lemma notAfter_costs mappingGoal cutA cutB :
  notAfter mappingGoal cutA cutB ↔ costsNotAfter mappingGoal cutA cutB.
Proof.
  unfold notAfter, costsNotAfter.
  destruct (comparators_two_keys cutB cutA) as [Harea Hdelay].
  destruct mappingGoal; simpl.
  - destruct (cutAreaComparision cutB cutA); split; try done;
      intuition (try lia; try discriminate).
  - destruct (cutDelayComparision cutB cutA); split; try done;
      intuition (try lia; try discriminate).
Qed.

Lemma literalValue_div ρ l : literalValue ρ l = xorb (ρ (l / 2)) (Z.odd l).
Proof. unfold literalValue. by rewrite indexFromLiteral_div. Qed.

(** X5. Every cut stored for an and-node is a cut of that node: its leaves
    separate the node from the rest of the design, so the value of the
    node is a function of the values of the leaves. *)
Theorem stored_cut_separates_node (e : CutEngine) (stack : list Z) (a : Z)
    (cutSet : CutSet) (cut : Cut) :
  reachable e stack →
  getCutSet e a = OK cutSet →
  cut ∈ cutSet →
  covers (_aig e) (_nodeVariables cut) (indexFromLiteral a)
  ∧ ∀ ρ1 ρ2,
      respectsAnds (_aig e) ρ1 → respectsAnds (_aig e) ρ2 →
      (∀ x, x ∈ _nodeVariables cut → ρ1 x = ρ2 x) →
      literalValue ρ1 a = literalValue ρ2 a.
Proof.
  intros Hreach Hget Hcut.
  destruct (reachable_inv _ _ Hreach) as [Hinv _].
  apply (getCutSet_OK e (engine_inv_shape e Hinv)) in Hget as [Hand ->].
  apply (nodeIsAnd_spec _ (inv_aig e Hinv)) in Hand as [_ Hv].
  rewrite indexFromLiteral_div.
  pose proof (reachable_covers e stack Hreach _ _ Hv Hcut) as Hcov.
  split; [done|].
  intros ρ1 ρ2 H1 H2 Hagree. rewrite !literalValue_div.
  by rewrite (covers_determines _ _ _ ρ1 ρ2 Hcov).
Qed.

(** A valuation that respects the and-node of [aigSingleAnd]: every
    variable true. *)
Example respectsAnds_all_true : respectsAnds aigSingleAnd (λ _, true).
Proof.
  intros v an Hr Han.
  pose proof (getAndNodeFromLiteral_children aigSingleAnd eq_refl _ _ Han)
    as (Hand & _).
  apply (nodeIsAnd_spec aigSingleAnd eq_refl) in Hand as [_ Hv].
  rewrite literalFromIndex_small in * by lia.
  unfold isAndVariable in Hv. simpl in Hv.
  assert (v = 3) as -> by lia.
  vm_compute in Han. by injection Han as <-.
Qed.

Lemma stored_cut_separates_node_witness :
  covers aigSingleAnd (_nodeVariables (mkCut {[ 1; 2 ]} 0 1 0))
         (indexFromLiteral 6)
  ∧ ∀ ρ1 ρ2,
      respectsAnds aigSingleAnd ρ1 → respectsAnds aigSingleAnd ρ2 →
      (∀ x, x ∈ _nodeVariables (mkCut {[ 1; 2 ]} 0 1 0) → ρ1 x = ρ2 x) →
      literalValue ρ1 6 = literalValue ρ2 6.
Proof.
  apply (stored_cut_separates_node
           (engineAfter (findCuts 10 engineSingleAnd 6) engineSingleAnd) []
           6 [mkCut {[ 1; 2 ]} 0 1 0]).
  - apply engineSingleAnd_mapped_reachable.
  - vm_compute. reflexivity.
  - by left.
Defined.



(** X7. No two cuts stored for an and-node have the same leaves, and with
    c > 0 at most c cuts are stored. *)
Theorem stored_cuts_distinct_and_pruned (e : CutEngine) (stack : list Z)
    (a : Z) (cutSet : CutSet) :
  reachable e stack →
  getCutSet e a = OK cutSet →
  NoDup (_nodeVariables <$> cutSet)
  ∧ (0 < _c e → Z.of_nat (length cutSet) ≤ _c e).
Proof.
  intros Hreach Hget.
  destruct (reachable_inv _ _ Hreach) as [Hinv _].
  apply (getCutSet_OK e (engine_inv_shape e Hinv)) in Hget as [Hand ->].
  apply (nodeIsAnd_spec _ (inv_aig e Hinv)) in Hand as [_ Hv].
  by destruct (reachable_cutSet_shape e stack Hreach _ Hv) as (_ & ? & ?).
Qed.

(** X8. A key of the engine's implementation map whose entry is [true] is
    an and-literal with a best cut, and the area of that best cut is 0. *)
Theorem marked_node_has_free_best_cut (e : CutEngine) (stack : list Z)
    (key : Z) :
  reachable e stack →
  _implementationMap e !! key = Some true →
  ∃ bestCut, getBestCut e key = OK bestCut ∧ getAreaCost bestCut = 0.
Proof.
  intros Hreach Hkey.
  destruct (reachable_inv _ _ Hreach) as [Hinv _].
  destruct (reachable_implemented e stack Hreach key Hkey)
    as (Hand & bestCut & rest & Hcs & Harea).
  exists bestCut. rewrite getBestCut_spec by (by try apply engine_inv_shape).
  by rewrite Hcs.
Qed.

(** X9. What a call of [findCuts] stores is final: the cut sets that were
    populated before the call are the same after it, and calling
    [findCuts] again on the same literal, with any fuel, returns the same
    cut set and leaves the engine as it is. *)
Theorem findCuts_stores_once (fuel fuel' : nat) (e e' : CutEngine)
    (andLiteral : Z) (cutSet : CutSet) :
  reachable e [] →
  findCuts fuel e andLiteral = OK (e', cutSet) →
  (∀ a cutSetA, getCutSet e a = OK cutSetA → cutSetA ≠ [] →
                getCutSet e' a = OK cutSetA)
  ∧ findCuts fuel' e' andLiteral = OK (e', cutSet).
Proof.
  intros Hreach Hfind.
  destruct (reachable_inv _ _ Hreach) as [Hinv _].
  pose proof (inv_aig e Hinv) as Hvalid.
  pose proof (engine_inv_shape e Hinv) as Hshape.
  pose proof (findCuts_config _ _ _ _ _ Hfind) as (Haig & _).
  pose proof (findCuts_inv _ _ _ _ _ Hinv Hfind) as Hinv'.
  pose proof (engine_inv_shape e' Hinv') as Hshape'.
  destruct (findCuts_stable _ _ _ _ _ Hinv Hfind) as (Hst & Hcs & Hne & Hand).
  split.
  - intros a cutSetA Hget HneA.
    apply (getCutSet_OK e Hshape) in Hget as [HandA ->].
    rewrite getCutSet_spec by (by rewrite ?Haig).
    rewrite Hst; [done| |done].
    by apply (nodeIsAnd_spec _ Hvalid) in HandA as [_ ?].
  - unfold findCuts. rewrite Haig, Hand. simpl.
    rewrite getCutSet_spec by (by rewrite ?Haig).
    rewrite <- Hcs. simpl. destruct cutSet as [|bestCut rest]; [done|].
    destruct (vectorIndexFromAndLiteral_spec e' Hshape' andLiteral)
      as [Hidx _]; [by rewrite Haig|].
    rewrite Hidx. simpl. rewrite Haig in *.
    rewrite <- Haig at 1 2.
    rewrite cutSetVector_at by (by rewrite ?Haig).
    simpl. by rewrite <- Hcs.
Qed.

Lemma engineChain_mapped_reachable :
  reachable (engineAfter (findCuts 24 engineChain 12) engineChain) [].
Proof.
  eapply (reachable_findCuts 24 engineChain 12).
  - apply (reachable_new aigChain MinimizeArea 3 0); vm_compute; reflexivity.
  - vm_compute. reflexivity.
Qed.

Lemma engineChainPruned_mapped_reachable :
  reachable (engineAfter (findCuts 24 engineChainPruned 12) engineChainPruned)
            [].
Proof.
  eapply (reachable_findCuts 24 engineChainPruned 12).
  - apply (reachable_new aigChain MinimizeArea 3 1); vm_compute; reflexivity.
  - vm_compute. reflexivity.
Qed.

Lemma stored_cuts_distinct_and_pruned_witness :
  NoDup (_nodeVariables <$> [mkCut {[ 1; 2; 3 ]} 0 1 0])
  ∧ (0 < 1 → Z.of_nat (length [mkCut {[ 1; 2; 3 ]} 0 1 0]) ≤ 1).
Proof.
  apply (stored_cuts_distinct_and_pruned
           (engineAfter (findCuts 24 engineChainPruned 12) engineChainPruned)
           [] 12 [mkCut {[ 1; 2; 3 ]} 0 1 0]).
  - apply engineChainPruned_mapped_reachable.
  - vm_compute. reflexivity.
Defined.

Lemma marked_node_has_free_best_cut_witness :
  ∃ bestCut,
    getBestCut (engineAfter (findCuts 24 engineChain 12) engineChain) 12
    = OK bestCut
    ∧ getAreaCost bestCut = 0.
Proof.
  apply (marked_node_has_free_best_cut
           (engineAfter (findCuts 24 engineChain 12) engineChain) [] 12).
  - apply engineChain_mapped_reachable.
  - vm_compute. reflexivity.
Defined.

Lemma findCuts_stores_once_witness :
  (∀ a cutSetA, getCutSet engineChain a = OK cutSetA → cutSetA ≠ [] →
                getCutSet (engineAfter (findCuts 24 engineChain 12) engineChain)
                          a = OK cutSetA)
  ∧ findCuts 0 (engineAfter (findCuts 24 engineChain 12) engineChain) 12
    = OK (engineAfter (findCuts 24 engineChain 12) engineChain, cutsOfNode12).
Proof.
  apply (findCuts_stores_once 24 0 engineChain).
  - apply (reachable_new aigChain MinimizeArea 3 0); vm_compute; reflexivity.
  - vm_compute. reflexivity.
Defined.

(** ** The leaves of the stored cuts *)

Lemma reachable_leaf_kind e stack :
  reachable e stack →
  ∀ v cut x, isAndVariable (_aig e) v → cut ∈ cutSetOf e v →
             x ∈ _nodeVariables cut →
             1 ≤ x ≤ _numInputs (_aig e)
             ∨ (isAndVariable (_aig e) x ∧ cutSetOf e x ≠ []).
Proof.
  intros Hreach. pattern e.
  eapply reachable_processed_ind; [| |exact Hreach].
  - intros aig mg k c e0 _ He0 v cut x _ Hcut.
    rewrite (CutEngine_new_cutSetOf _ _ _ _ _ _ He0) in Hcut.
    by apply elem_of_nil in Hcut.
  - clear e stack Hreach.
    intros e t an e' Hinv IH Hand Hempty Han H0 H1 Hl0 Hl1 Hproc.
    pose proof (inv_aig e Hinv) as Hvalid.
    pose proof (engine_inv_shape e Hinv) as Hshape.
    pose proof (integrityChecks_bounds _ Hvalid) as (HI & HL & HA & HM & Hfit).
    pose proof (proj1 (nodeIsAnd_spec _ Hvalid _) Hand) as [Ht1 Ht].
    pose proof (getAndNodeFromLiteral_children _ Hvalid _ _ Han)
      as (_ & Hc1 & Hc0).
    destruct (processNode_cuts e t an e' Hinv Hand Hempty Han H0 H1 Hl0 Hl1
                Hproc) as ((Haig & _) & _ & Hne & Hsame & Helem).
    assert (Hkeep : ∀ x, 1 ≤ x ≤ _numInputs (_aig e)
                         ∨ (isAndVariable (_aig e) x ∧ cutSetOf e x ≠ []) →
                         1 ≤ x ≤ _numInputs (_aig e)
                         ∨ (isAndVariable (_aig e) x ∧ cutSetOf e' x ≠ [])).
    { intros x [?|[Hx Hcs]]; [by left|right]. split; [done|].
      destruct (decide (x = t / 2)) as [->|Hnx]; [done|]. by rewrite Hsame. }
    rewrite Haig. intros v cut x Hv Hcut Hx.
    destruct (decide (v = t / 2)) as [->|Hnv].
    { destruct (Helem cut Hcut) as (a & b & Ha & Hb & ->).
      assert (Hchild : ∀ c z, isUnprocessedAnd e c = OK false →
                2 ≤ c < 2 * (t / 2) → nodeIsLatch (_aig e) c = false →
                z ∈ childCuts e c → x ∈ _nodeVariables z →
                1 ≤ x ≤ _numInputs (_aig e)
                ∨ (isAndVariable (_aig e) x ∧ cutSetOf e x ≠ [])).
      { intros c z Hu Hc Hl Hz Hxz.
        destruct (node_kind (_aig e) c Hvalid) as [Hin|[?|Hca]];
          try congruence; try lia.
        { unfold isAndVariable in Ht. lia. }
        - unfold childCuts in Hz. rewrite Hin in Hz.
          apply list_elem_of_singleton in Hz as ->.
          cbn [_nodeVariables] in Hxz. apply elem_of_singleton in Hxz as ->.
          apply nodeIsInput_spec in Hin. left. lia.
        - pose proof (proj1 (nodeIsAnd_spec _ Hvalid _) Hca) as [_ Hcv].
          rewrite isUnprocessedAnd_spec, Hca in Hu by done.
          apply childCuts_elem in Hz as [Hz|[_ Hz]].
          + rewrite Hz in Hxz. apply elem_of_singleton in Hxz as ->.
            right. split; [done|]. by destruct (cutSetOf e (c / 2)).
          + by apply (IH (c / 2) z x). }
      apply Hkeep.
      unfold unionCutOf in Hx. cbn [_nodeVariables] in Hx.
      apply elem_of_union in Hx as [Hx|Hx].
      - apply (Hchild (_firstChild an) a); try done. lia.
      - apply (Hchild (_secondChild an) b); try done. lia. }
    rewrite Hsame in Hcut by done. apply Hkeep. by apply (IH v cut x).
Qed.

Lemma reachable_no_latch_child e stack :
  reachable e stack →
  ∀ l an, nodeIsAnd (_aig e) l = true → cutSetOf e (l / 2) ≠ [] →
          getAndNodeFromLiteral (_aig e) l = OK an →
          nodeIsLatch (_aig e) (_firstChild an) = false
          ∧ nodeIsLatch (_aig e) (_secondChild an) = false.
Proof.
  intros Hreach. pattern e.
  eapply reachable_processed_ind; [| |exact Hreach].
  - intros aig mg k c e0 _ He0 l an _ Hcs.
    by rewrite (CutEngine_new_cutSetOf _ _ _ _ _ _ He0) in Hcs.
  - clear e stack Hreach.
    intros e t an e' Hinv IH Hand Hempty Han H0 H1 Hl0 Hl1 Hproc.
    pose proof (inv_aig e Hinv) as Hvalid.
    destruct (processNode_cuts e t an e' Hinv Hand Hempty Han H0 H1 Hl0 Hl1
                Hproc) as ((Haig & _) & _ & Hne & Hsame & _).
    rewrite Haig. intros l an' Hl Hcs Han'.
    destruct (decide (l / 2 = t / 2)) as [Heq|Hnl].
    + assert (an' = an) as ->; [|done].
      rewrite <- (getAndNodeFromLiteral_even _ l) in Han' by done.
      rewrite <- (getAndNodeFromLiteral_even _ t) in Han by done.
      rewrite Heq in Han'. congruence.
    + pose proof (proj1 (nodeIsAnd_spec _ Hvalid _) Hl) as [_ Hlv].
      rewrite Hsame in Hcs by done. by apply (IH l an').
Qed.

(** X10. The processed part of the design is closed downwards: both
    children of an and-node with a best cut are primary inputs or and-nodes
    with a best cut (never a latch), and so is every leaf of every stored
    cut. *)
Theorem processed_nodes_closed_below (e : CutEngine) (stack : list Z)
    (a : Z) (an : AndNode) (cutSet : CutSet) :
  reachable e stack →
  getCutSet e a = OK cutSet →
  cutSet ≠ [] →
  getAndNodeFromLiteral (_aig e) a = OK an →
  (∀ c, c = _firstChild an ∨ c = _secondChild an →
        nodeIsInput (_aig e) c = true
        ∨ (nodeIsAnd (_aig e) c = true ∧ hasBestCut e c = OK true))
  ∧ (∀ cut x, cut ∈ cutSet → x ∈ _nodeVariables cut →
        nodeIsInput (_aig e) (literalFromIndex x) = true
        ∨ (nodeIsAnd (_aig e) (literalFromIndex x) = true
           ∧ hasBestCut e (literalFromIndex x) = OK true)).
Proof.
  intros Hreach Hget Hne Han.
  destruct (reachable_inv _ _ Hreach) as [Hinv _].
  pose proof (inv_aig e Hinv) as Hvalid.
  pose proof (engine_inv_shape e Hinv) as Hshape.
  pose proof (integrityChecks_bounds _ Hvalid) as (HI & HL & HA & HM & Hfit).
  apply (getCutSet_OK e Hshape) in Hget as [Hand ->].
  pose proof (proj1 (nodeIsAnd_spec _ Hvalid _) Hand) as [_ Hv].
  pose proof (getAndNodeFromLiteral_children _ Hvalid _ _ Han)
    as (_ & Hc1 & Hc0).
  destruct (reachable_no_latch_child e stack Hreach a an Hand Hne Han)
    as [Hl0 Hl1].
  destruct (reachable_below e stack Hreach) as [_ Hchild].
  split.
  - intros c Hc.
    assert (Hlc : nodeIsLatch (_aig e) c = false) by by destruct Hc as [-> | ->].
    destruct (node_kind (_aig e) c Hvalid) as [Hin|[?|Hca]];
      try congruence; [destruct Hc as [-> | ->]; lia| |by left|].
    { unfold isAndVariable in Hv. destruct Hc as [-> | ->]; lia. }
    right. split; [done|]. rewrite hasBestCut_spec by done.
    pose proof (Hchild a an c Hand Hne Han Hc Hca).
    by destruct (cutSetOf e (c / 2)).
  - intros cut x Hcut Hx.
    destruct (inv_cuts e Hinv _ _ Hv Hcut) as (_ & Hr & _).
    specialize (Hr x Hx).
    pose proof (andVariable_range _ Hvalid _ Hv).
    rewrite literalFromIndex_small by lia.
    destruct (reachable_leaf_kind e stack Hreach _ _ _ Hv Hcut Hx)
      as [Hin|[Hxv Hxcs]].
    + left. apply nodeIsInput_spec. lia.
    + right.
      assert (Hxa : nodeIsAnd (_aig e) (2 * x) = true).
      { apply (nodeIsAnd_spec _ Hvalid). split; [lia|].
        by replace (2 * x / 2) with x by lia. }
      split; [done|]. rewrite hasBestCut_spec by done.
      replace (2 * x / 2) with x by lia.
      by destruct (cutSetOf e x).
Qed.

Lemma processed_nodes_closed_below_witness :
  (∀ c, c = _firstChild (mkAndNode 10 2) ∨ c = _secondChild (mkAndNode 10 2) →
        nodeIsInput aigChain c = true
        ∨ (nodeIsAnd aigChain c = true
           ∧ hasBestCut (engineAfter (findCuts 24 engineChain 12) engineChain) c
             = OK true))
  ∧ (∀ cut x, cut ∈ cutsOfNode12 → x ∈ _nodeVariables cut →
        nodeIsInput aigChain (literalFromIndex x) = true
        ∨ (nodeIsAnd aigChain (literalFromIndex x) = true
           ∧ hasBestCut (engineAfter (findCuts 24 engineChain 12) engineChain)
                        (literalFromIndex x) = OK true)).
Proof.
  apply (processed_nodes_closed_below
           (engineAfter (findCuts 24 engineChain 12) engineChain) [] 12
           (mkAndNode 10 2) cutsOfNode12).
  - apply engineChain_mapped_reachable.
  - vm_compute. reflexivity.
  - discriminate.
  - vm_compute. reflexivity.
Defined.

(** X11. What phi computes for an and-node without a cut set whose
    children need no processing and are not latches: the diamond of the
    two child cut sets, each being the cuts stored for the child (none for
    a primary input) followed by the child's autocut; the autocut of an
    input has area 0 and delay 1, the autocut of an and-node has the area
    of the child's best cut and its delay plus one. The result is never
    empty. *)
Theorem phiOperation_is_diamond_of_children (e : CutEngine) (stack : list Z)
    (t : Z) (an : AndNode) :
  reachable e stack →
  getCutSet e t = OK [] →
  getAndNodeFromLiteral (_aig e) t = OK an →
  isUnprocessedAnd e (_firstChild an) = OK false →
  isUnprocessedAnd e (_secondChild an) = OK false →
  nodeIsLatch (_aig e) (_firstChild an) = false →
  nodeIsLatch (_aig e) (_secondChild an) = false →
  phiOperation e t
  = OK (diamondSpec e (childCuts e (_firstChild an))
          (childCuts e (_secondChild an)) (_k e))
  ∧ diamondSpec e (childCuts e (_firstChild an))
      (childCuts e (_secondChild an)) (_k e) ≠ [].
Proof.
  intros Hreach Hget Han H0 H1 Hl0 Hl1.
  destruct (reachable_inv _ _ Hreach) as [Hinv _].
  apply (getCutSet_OK e (engine_inv_shape e Hinv)) in Hget as [Hand Hcs].
  by apply (phiOperation_eq e Hinv t Hand).
Qed.

Lemma phiOperation_is_diamond_of_children_witness :
  phiOperation engineSingleAnd 6
  = OK (diamondSpec engineSingleAnd
          (childCuts engineSingleAnd (_firstChild (mkAndNode 4 2)))
          (childCuts engineSingleAnd (_secondChild (mkAndNode 4 2)))
          (_k engineSingleAnd))
  ∧ diamondSpec engineSingleAnd
      (childCuts engineSingleAnd (_firstChild (mkAndNode 4 2)))
      (childCuts engineSingleAnd (_secondChild (mkAndNode 4 2)))
      (_k engineSingleAnd) ≠ [].
Proof.
  apply (phiOperation_is_diamond_of_children engineSingleAnd [] 6
           (mkAndNode 4 2)).
  - apply engineSingleAnd_reachable.
  - reflexivity.
  - reflexivity.
  - reflexivity.
  - reflexivity.
  - reflexivity.
  - reflexivity.
Defined.

(** X12. The guards of phi: a literal that is not an and-node is rejected;
    an and-node that has a cut set gets it back unchanged; an and-node
    with a child that is an and-node without a cut set raises the error
    about undefined child cut sets. *)
Theorem phiOperation_guards (e : CutEngine) (stack : list Z) (t : Z) :
  reachable e stack →
  (nodeIsAnd (_aig e) t = false → phiOperation e t = Err NotAnAndLiteral)
  ∧ (∀ cutSet, getCutSet e t = OK cutSet → cutSet ≠ [] →
               phiOperation e t = OK cutSet)
  ∧ (∀ an, getCutSet e t = OK [] →
           getAndNodeFromLiteral (_aig e) t = OK an →
           isUnprocessedAnd e (_firstChild an) = OK true
           ∨ isUnprocessedAnd e (_secondChild an) = OK true →
           phiOperation e t = Err ChildCutSetUndefined).
Proof.
  intros Hreach.
  destruct (reachable_inv _ _ Hreach) as [Hinv _].
  pose proof (engine_inv_shape e Hinv) as Hshape.
  split; [|split].
  - intros Hna. unfold phiOperation. by rewrite Hna.
  - intros cutSet Hget Hne.
    pose proof Hget as Hget'.
    apply (getCutSet_OK e Hshape) in Hget' as [Hand ->].
    unfold phiOperation. rewrite Hand, Hget. simpl.
    destruct (cutSetOf e (t / 2)) eqn:Hcs; [done|].
    destruct (vectorIndexFromAndLiteral_spec e Hshape t Hand) as [-> _].
    simpl. rewrite cutSetVector_at by done. by rewrite Hcs.
  - intros an Hget Han Hor.
    pose proof Hget as Hget'.
    apply (getCutSet_OK e Hshape) in Hget' as [Hand _].
    unfold phiOperation. rewrite Hand, Hget. simpl. rewrite Han. simpl.
    rewrite !isUnprocessedAnd_spec in * by done.
    destruct Hor as [[= Hu]|[= Hu]]; simpl.
    + by rewrite Hu.
    + rewrite Hu.
      by destruct (if nodeIsAnd (_aig e) (_firstChild an) then _ else _).
Qed.

Lemma childCuts_cases e c x :
  x ∈ childCuts e c →
  (nodeIsInput (_aig e) c = true ∧ x = mkCut {[ c / 2 ]} 0 1 0)
  ∨ (nodeIsInput (_aig e) c = false ∧ x ∈ cutSetOf e (c / 2))
  ∨ (nodeIsInput (_aig e) c = false
     ∧ ∃ bestCut rest,
         cutSetOf e (c / 2) = bestCut :: rest
         ∧ x = mkCut {[ c / 2 ]} (_areaCost bestCut)
                     (1 + _delayCost bestCut) 0).
Proof.
  unfold childCuts. destruct (nodeIsInput (_aig e) c).
  - intros ->%list_elem_of_singleton. by left.
  - destruct (cutSetOf e (c / 2)) as [|bestCut rest] eqn:Hcs.
    + by intros ?%elem_of_nil.
    + intros [Hx| ->%list_elem_of_singleton]%elem_of_app.
      * right. left. done.
      * right. right. split; [done|]. eauto.
Qed.

(** ** A cut is deeper than the best cuts of its and-leaves *)

Lemma reachable_leaf_delay e stack :
  reachable e stack →
  ∀ v cut x, isAndVariable (_aig e) v → cut ∈ cutSetOf e v →
             x ∈ _nodeVariables cut → isAndVariable (_aig e) x →
             ∃ bestCut rest, cutSetOf e x = bestCut :: rest
                             ∧ _delayCost bestCut + 1 ≤ _delayCost cut.
Proof.
  intros Hreach. pattern e.
  eapply reachable_processed_ind; [| |exact Hreach].
  - intros aig mg k c e0 _ He0 v cut x _ Hcut.
    rewrite (CutEngine_new_cutSetOf _ _ _ _ _ _ He0) in Hcut.
    by apply elem_of_nil in Hcut.
  - clear e stack Hreach.
    intros e t an e' Hinv IH Hand Hempty Han H0 H1 Hl0 Hl1 Hproc.
    pose proof (inv_aig e Hinv) as Hvalid.
    pose proof (engine_inv_shape e Hinv) as Hshape.
    pose proof (integrityChecks_bounds _ Hvalid) as (HI & HL & HA & HM & Hfit).
    pose proof (proj1 (nodeIsAnd_spec _ Hvalid _) Hand) as [Ht1 Ht].
    pose proof (getAndNodeFromLiteral_children _ Hvalid _ _ Han)
      as (_ & Hc1 & Hc0).
    destruct (processNode_cuts e t an e' Hinv Hand Hempty Han H0 H1 Hl0 Hl1
                Hproc) as ((Haig & _) & _ & Hne & Hsame & Helem).
    assert (Hkeep : ∀ x d, isAndVariable (_aig e) x →
              (∃ bestCut rest, cutSetOf e x = bestCut :: rest
                               ∧ _delayCost bestCut + 1 ≤ d) →
              ∃ bestCut rest, cutSetOf e' x = bestCut :: rest
                              ∧ _delayCost bestCut + 1 ≤ d).
    { intros x d Hx (b & r & Hcs & Hd). exists b, r. split; [|done].
      rewrite Hsame; [done..|]. intros ->. by rewrite Hempty in Hcs. }
    rewrite Haig. intros v cut x Hv Hcut Hx Hxv.
    destruct (decide (v = t / 2)) as [->|Hnv].
    2:{ rewrite Hsame in Hcut by done. apply Hkeep; [done|].
        by apply (IH v cut x). }
    destruct (Helem cut Hcut) as (a & b & Ha & Hb & ->).
    assert (Hchild : ∀ c z, 2 ≤ c < 2 * (t / 2) →
              nodeIsLatch (_aig e) c = false → z ∈ childCuts e c →
              x ∈ _nodeVariables z →
              ∃ bestCut rest, cutSetOf e x = bestCut :: rest
                              ∧ _delayCost bestCut + 1 ≤ _delayCost z).
    { intros c z Hc Hl Hz Hxz.
      apply childCuts_cases in Hz
        as [[Hin ->]|[[Hni Hz]|(Hni & bc & rc & Hcs & ->)]].
      - cbn [_nodeVariables] in Hxz. apply elem_of_singleton in Hxz as ->.
        apply nodeIsInput_spec in Hin. unfold isAndVariable in Hxv. lia.
      - apply (IH (c / 2) z x); try done.
        destruct (node_kind (_aig e) c Hvalid) as [?|[?|Hca]];
          try congruence; try lia.
        { unfold isAndVariable in Ht. lia. }
        by apply (nodeIsAnd_spec _ Hvalid) in Hca as [_ ?].
      - cbn [_nodeVariables _delayCost] in *.
        apply elem_of_singleton in Hxz as ->.
        exists bc, rc. split; [done|lia]. }
    apply Hkeep; [done|].
    unfold unionCutOf in *. cbn [_nodeVariables _delayCost] in *.
    apply elem_of_union in Hx as [Hx|Hx].
    + destruct (Hchild (_firstChild an) a) as (bc & rc & ? & ?);
        [lia|done..|].
      exists bc, rc. split; [done|lia].
    + destruct (Hchild (_secondChild an) b) as (bc & rc & ? & ?);
        [lia|done..|].
      exists bc, rc. split; [done|lia].
Qed.

Lemma maxDepth_nonneg depths : 0 ≤ maxDepth depths.
Proof. induction depths; simpl; lia. Qed.

Section FrontierDepth.
Context (e : CutEngine) (stack : list Z) (Hreach : reachable e stack).

Lemma bestCut_frontier_depth l bestCut rest depth :
  nodeIsAnd (_aig e) l = true →
  cutSetOf e (l / 2) = bestCut :: rest →
  _delayCost bestCut ≤ depth →
  frontier_depth e depth (andLiteralsOf (_aig e) bestCut).
Proof.
  intros Hand Hcs Hd l' (x & -> & Hx & Hxa)%andLiteralsOf_elem.
  destruct (reachable_inv _ _ Hreach) as [Hinv _].
  pose proof (inv_aig e Hinv) as Hvalid.
  pose proof (proj1 (nodeIsAnd_spec _ Hvalid _) Hand) as [_ Hv].
  pose proof (andVariable_range _ Hvalid _ Hv) as Hvr.
  assert (Hin : bestCut ∈ cutSetOf e (l / 2)) by (rewrite Hcs; by left).
  destruct (inv_cuts e Hinv _ _ Hv Hin) as (_ & Hr & _).
  specialize (Hr x Hx).
  rewrite literalFromIndex_small in * by lia.
  replace (2 * x / 2) with x by lia.
  assert (Hxv : isAndVariable (_aig e) x).
  { apply (nodeIsAnd_spec _ Hvalid) in Hxa as [_ Hxv].
    by replace (2 * x / 2) with x in Hxv by lia. }
  destruct (reachable_leaf_delay e stack Hreach _ _ _ Hv Hin Hx Hxv)
    as (bx & rx & Hbx & Hdx).
  exists bx, rx. split; [done|]. split; [done|lia].
Qed.

Lemma visitNode_depth tm nodeLiteral next tm' next' :
  _cutEngine tm = e →
  visitNode tm nodeLiteral next = OK (tm', next') →
  depth_ok tm →
  frontier_depth e (_mappingDelayCost tm) {[ nodeLiteral ]} →
  frontier_depth e (_mappingDelayCost tm) next →
  _cutEngine tm' = e
  ∧ _mappingDelayCost tm' = _mappingDelayCost tm
  ∧ depth_ok tm'
  ∧ frontier_depth e (_mappingDelayCost tm) next'.
Proof.
  intros He H Hok Hl Hnext. unfold visitNode in H.
  destruct (Hl nodeLiteral) as (bestCut & rest & Hand & Hcs & Hd);
    [by apply elem_of_singleton|].
  destruct (reachable_inv _ _ Hreach) as [Hinv _].
  destruct (map_subscript _ nodeLiteral) as [m implemented] eqn:Hsub.
  destruct implemented; simpl in H.
  - injection H as <- <-. repeat split; try done.
    intros key Hkey. simpl in *.
    by eapply Hok, map_subscript_lookup.
  - rewrite He, getBestCut_spec in H
      by (by try apply engine_inv_shape).
    rewrite Hcs in H. simpl in H. injection H as <- <-.
    split; [done|]. split; [done|]. split.
    + intros key Hkey. simpl in *.
      destruct (decide (nodeLiteral = key)) as [<-|Hne]; [by eauto|].
      rewrite lookup_insert_ne in Hkey by done.
      specialize (Hok key (map_subscript_lookup _ _ _ _ _ Hsub Hkey)).
      by rewrite He in Hok.
    + intros l' [Hl'|Hl']%elem_of_union; [by apply Hnext|].
      by eapply bestCut_frontier_depth.
Qed.

Lemma visitNodes_depth nodes : ∀ tm next tm' next',
  _cutEngine tm = e →
  visitNodes tm nodes next = OK (tm', next') →
  depth_ok tm →
  (∀ l, l ∈ nodes → frontier_depth e (_mappingDelayCost tm) {[ l ]}) →
  frontier_depth e (_mappingDelayCost tm) next →
  _cutEngine tm' = e
  ∧ _mappingDelayCost tm' = _mappingDelayCost tm
  ∧ depth_ok tm'
  ∧ frontier_depth e (_mappingDelayCost tm) next'.
Proof.
  induction nodes as [|l nodes IH];
    intros tm next tm' next' He H Hok Hnodes Hnext.
  { by injection H as <- <-. }
  simpl in H. bind_as H [tm1 next1] Hv.
  destruct (visitNode_depth _ _ _ _ _ He Hv Hok) as (He1 & HD1 & Hok1 & Hn1);
    [apply Hnodes; by left|done|].
  destruct (IH tm1 next1 tm' next' He1 H Hok1) as (He' & HD' & Hok' & Hn').
  - intros l' Hl'. rewrite HD1. apply Hnodes. by right.
  - by rewrite HD1.
  - split; [done|]. split; [by rewrite HD', HD1|]. split; [done|].
    by rewrite <- HD1.
Qed.

Lemma frontierLoop_depth fuel : ∀ tm current tm',
  _cutEngine tm = e →
  frontierLoop fuel tm current = OK tm' →
  depth_ok tm →
  frontier_depth e (_mappingDelayCost tm) current →
  _cutEngine tm' = e
  ∧ _mappingDelayCost tm' = _mappingDelayCost tm
  ∧ depth_ok tm'.
Proof.
  induction fuel as [|fuel IH]; intros tm current tm' He H Hok Hcur;
    simpl in H; case_bool_decide; try discriminate;
    try (by injection H as <-).
  bind_as H [tm1 next] Hv.
  destruct (visitNodes_depth _ _ _ _ _ He Hv Hok) as (He1 & HD1 & Hok1 & Hn1).
  - intros l Hl%elem_of_ascending l' ->%elem_of_singleton. by apply Hcur.
  - intros l Hl. by apply elem_of_empty in Hl.
  - destruct (IH tm1 next tm' He1 H Hok1) as (He' & HD' & Hok');
      [by rewrite HD1|].
    split; [done|]. split; [by rewrite HD', HD1|done].
Qed.

End FrontierDepth.

Lemma outputDepth_stable e e' o :
  engine_shape e → engine_shape e' → _aig e' = _aig e →
  (nodeIsAnd (_aig e) o = true →
   cutSetOf e (o / 2) ≠ [] ∧ cutSetOf e' (o / 2) = cutSetOf e (o / 2)) →
  outputDepth e' o = outputDepth e o.
Proof.
  intros Hshape Hshape' Haig Hcs. unfold outputDepth. rewrite Haig.
  destruct (nodeIsAnd (_aig e) o) eqn:Hand; [|done].
  rewrite !getBestCut_spec by (by rewrite ?Haig).
  destruct (Hcs eq_refl) as [_ ->]. done.
Qed.

Lemma mapOutput_depth fuel tm outputLiteral tm' :
  reachable (_cutEngine tm) [] →
  mapOutput fuel tm outputLiteral = OK tm' →
  depth_ok tm → 0 ≤ _mappingDelayCost tm →
  reachable (_cutEngine tm') []
  ∧ depth_ok tm'
  ∧ _mappingDelayCost tm'
    = Z.max (_mappingDelayCost tm) (outputDepth (_cutEngine tm') outputLiteral)
  ∧ _aig (_cutEngine tm') = _aig (_cutEngine tm)
  ∧ (∀ v, isAndVariable (_aig (_cutEngine tm)) v →
          cutSetOf (_cutEngine tm) v ≠ [] →
          cutSetOf (_cutEngine tm') v = cutSetOf (_cutEngine tm) v)
  ∧ (nodeIsAnd (_aig (_cutEngine tm)) outputLiteral = true →
     cutSetOf (_cutEngine tm') (outputLiteral / 2) ≠ []).
Proof.
  intros Hreach H Hok HD.
  destruct (reachable_inv _ _ Hreach) as [Hinv _].
  pose proof (inv_aig _ Hinv) as Hvalid.
  pose proof (engine_inv_shape _ Hinv) as Hshape.
  unfold mapOutput in H. unfold outputDepth.
  destruct (nodeIsAnd (_aig (_cutEngine tm)) outputLiteral) eqn:Hand.
  2:{ destruct (_ || _) eqn:Hdirect; injection H as <-; simpl;
        rewrite Hand, ?Hdirect; repeat split; try done; try lia.
      - intros key Hkey. simpl in *.
        destruct (Hok key Hkey) as (b & r & ? & ? & ?).
        exists b, r. repeat split; try done.
        destruct (_mappingDelayCost tm <? 1) eqn:Hlt; lia.
      - destruct (Z.ltb_spec (_mappingDelayCost tm) 1); lia. }
  pose proof (proj1 (nodeIsAnd_spec _ Hvalid _) Hand) as [Hl Hv].
  pose proof (andVariable_range _ Hvalid _ Hv) as Hvr.
  rewrite (evenLiteral_and _ _ Hvalid Hand) in H.
  assert (Hdiv : 2 * (outputLiteral / 2) / 2 = outputLiteral / 2) by lia.
  destruct (map_subscript _ _) as [m implemented] eqn:Hsub.
  destruct implemented; simpl in H.
  { injection H as <-. simpl. rewrite Hand.
    assert (Hkey : _mapperImplementationMap tm !! (2 * (outputLiteral / 2))
                   = Some true).
    { unfold map_subscript in Hsub.
      destruct (_ !! (2 * (outputLiteral / 2))) as [[]|] eqn:Hlook;
        try done; discriminate. }
    destruct (Hok _ Hkey) as (b & r & _ & Hcs & Hd).
    rewrite Hdiv in Hcs.
    rewrite getBestCut_spec, Hcs by done.
    split; [done|]. split.
    { intros key Hk. simpl in *. by eapply Hok, map_subscript_lookup. }
    split; [unfold getDelayCost; lia|]. split; [done|]. split; done. }
  bind_as H [e' cutSet] Hfind.
  bind_as H best Hbest.
  pose proof (reachable_findCuts _ _ _ _ _ Hreach Hfind) as Hreach'.
  pose proof (findCuts_config _ _ _ _ _ Hfind) as (Haig & _).
  destruct (findCuts_stable _ _ _ _ _ Hinv Hfind) as (Hstable & _).
  destruct (reachable_inv _ _ Hreach') as [Hinv' _].
  pose proof (engine_inv_shape e' Hinv') as Hshape'.
  apply getBestCut_OK in Hbest as [Heven [rest Hcs]]; [|done].
  rewrite Hdiv in Hcs.
  set (tm1 := mkTechMapper _ _ _ _ _) in H.
  assert (HD1 : _mappingDelayCost tm1
                = Z.max (_mappingDelayCost tm) (_delayCost best)).
  { simpl. unfold getDelayCost.
    destruct (Z.ltb_spec (_mappingDelayCost tm) (_delayCost best)); lia. }
  assert (Hok1 : depth_ok tm1).
  { intros key Hkey. simpl (_mapperImplementationMap tm1) in Hkey.
    simpl (_cutEngine tm1). rewrite HD1.
    destruct (decide (2 * (outputLiteral / 2) = key)) as [<-|Hne].
    - exists best, rest. rewrite Hdiv. split; [done|]. split; [done|lia].
    - rewrite lookup_insert_ne in Hkey by done.
      destruct (Hok key) as (b & r & Hka & Hkcs & Hkd);
        [by eapply map_subscript_lookup|].
      exists b, r. split; [by rewrite Haig|].
      split; [|lia]. rewrite Hstable; [done| |by rewrite Hkcs].
      by apply (nodeIsAnd_spec _ Hvalid) in Hka as [_ ?]. }
  destruct (frontierLoop_depth e' [] Hreach' fuel tm1 _ tm' eq_refl H Hok1)
    as (He' & HD' & Hok').
  { rewrite <- Haig.
    apply (bestCut_frontier_depth e' [] Hreach' outputLiteral best rest);
      [by rewrite Haig|done|rewrite HD1; lia]. }
  rewrite He'. split; [done|]. split; [done|].
  rewrite Haig, Hand.
  rewrite getBestCut_spec, Hcs by (by rewrite ?Haig).
  split; [by rewrite HD', HD1|]. split; [done|]. split; done.
Qed.

Lemma mapOutputs_depth fuel outputs : ∀ tm tm',
  reachable (_cutEngine tm) [] →
  mapOutputs fuel tm outputs = OK tm' →
  depth_ok tm → 0 ≤ _mappingDelayCost tm →
  reachable (_cutEngine tm') []
  ∧ depth_ok tm'
  ∧ _mappingDelayCost tm'
    = Z.max (_mappingDelayCost tm)
            (maxDepth (outputDepth (_cutEngine tm') <$> outputs))
  ∧ _aig (_cutEngine tm') = _aig (_cutEngine tm)
  ∧ (∀ v, isAndVariable (_aig (_cutEngine tm)) v →
          cutSetOf (_cutEngine tm) v ≠ [] →
          cutSetOf (_cutEngine tm') v = cutSetOf (_cutEngine tm) v).
Proof.
  induction outputs as [|o outputs IH]; intros tm tm' Hreach H Hok HD.
  { injection H as <-. simpl. repeat split; try done. lia. }
  simpl in H. bind_as H tm1 Hone.
  destruct (mapOutput_depth _ _ _ _ Hreach Hone Hok HD)
    as (Hreach1 & Hok1 & HD1 & Haig1 & Hst1 & Hcs1).
  destruct (IH tm1 tm' Hreach1 H Hok1) as (Hreach' & Hok' & HD' & Haig' & Hst');
    [lia|].
  destruct (reachable_inv _ _ Hreach) as [Hinv _].
  destruct (reachable_inv _ _ Hreach1) as [Hinv1 _].
  destruct (reachable_inv _ _ Hreach') as [Hinv' _].
  pose proof (inv_aig _ Hinv) as Hvalid.
  split; [done|]. split; [done|]. rewrite Haig1 in *.
  assert (Ho : outputDepth (_cutEngine tm') o = outputDepth (_cutEngine tm1) o).
  { apply outputDepth_stable; try (by apply engine_inv_shape).
    - by rewrite Haig', Haig1.
    - rewrite Haig1. intros Hand. specialize (Hcs1 Hand).
      split; [done|]. apply Hst'; [|done].
      by apply (nodeIsAnd_spec _ Hvalid) in Hand as [_ ?]. }
  split; [|split; [by rewrite Haig'|]].
  - rewrite fmap_cons. simpl. rewrite HD', HD1, Ho. lia.
  - intros v Hv Hne. rewrite Hst'; [by apply Hst1|done|].
    by rewrite Hst1.
Qed.

Lemma TechMapper_new_depth e : depth_ok (TechMapper_new e).
Proof.
  intros key Hkey. unfold TechMapper_new in Hkey. simpl in Hkey.
  rewrite initial_map_lookup, lookup_empty in Hkey. by case_decide.
Qed.

(** X13. The levels [TechMapper::run] reports are the greatest depth of an
    output: the delay of the best cut for an output that is an and-node, 1
    for an output wired to an input or a constant. An output that [run]
    skips because an earlier output already marked it never has a deeper
    best cut than the levels counted so far. *)
Theorem levels_are_the_deepest_output (fuel : nat) (aig : AndInverterGraph)
    (mappingGoal : MappingGoal) (k c : Z) (tm : TechMapper) :
  integrityChecks aig = true →
  pipeline fuel aig mappingGoal k c = OK tm →
  _mappingDelayCost tm
  = maxDepth (outputDepth (_cutEngine tm) <$> _outputLiteralVector aig).
Proof.
  intros Hvalid H. unfold pipeline in H. bind_as H e Hnew.
  pose proof (reachable_new _ _ _ _ _ Hvalid Hnew) as Hreach.
  assert (Haig : _aig e = aig).
  { unfold CutEngine_new in Hnew. destruct (k <? 2); [discriminate|].
    by injection Hnew as <-. }
  unfold TechMapper_run in H. simpl in H. rewrite Haig in H.
  destruct (mapOutputs_depth fuel _ (TechMapper_new e) tm Hreach H
              (TechMapper_new_depth e)) as (_ & _ & HD & _); [simpl; lia|].
  rewrite HD. simpl.
  pose proof (maxDepth_nonneg (outputDepth (_cutEngine tm)
                                 <$> _outputLiteralVector aig)). lia.
Qed.

Lemma levels_are_the_deepest_output_witness :
  _mappingDelayCost
    (from_OK mapperShared (pipeline 24 aigChain MinimizeArea 2 0))
  = maxDepth
      (outputDepth
         (_cutEngine
            (from_OK mapperShared (pipeline 24 aigChain MinimizeArea 2 0)))
       <$> _outputLiteralVector aigChain).
Proof.
  apply (levels_are_the_deepest_output 24 aigChain MinimizeArea 2 0).
  - reflexivity.
  - vm_compute. reflexivity.
Defined.

Lemma elem_of_marked m key : key ∈ marked m ↔ m !! key = Some true.
Proof.
  unfold marked. rewrite elem_of_dom. split.
  - intros [b Hb]. apply map_lookup_filter_Some in Hb as [Hb Ht].
    simpl in Ht. by subst.
  - intros Hk. exists true. by apply map_lookup_filter_Some.
Qed.

Lemma marked_insert_true m key :
  m !! key ≠ Some true →
  size (marked (<[key := true]> m)) = S (size (marked m)).
Proof.
  intros Hk.
  assert (Heq : marked (<[key := true]> m) = {[ key ]} ∪ marked m).
  { apply set_eq. intros x. rewrite elem_of_union, elem_of_singleton.
    rewrite !elem_of_marked.
    destruct (decide (key = x)) as [<-|Hne].
    - rewrite lookup_insert_eq. split; [by left|done].
    - rewrite lookup_insert_ne by done. split; [by right|by intros [?|?]]. }
  rewrite Heq, size_union, size_singleton; [done|].
  intros x ->%elem_of_singleton Hx. by apply elem_of_marked in Hx.
Qed.

Lemma marked_subscript m key m' b :
  map_subscript m key = (m', b) →
  marked m' = marked m ∧ (b = false → m' !! key ≠ Some true).
Proof.
  unfold map_subscript. destruct (m !! key) as [b'|] eqn:Hk;
    intros [= <- <-].
  - split; [done|]. intros ->. by rewrite Hk.
  - split; [|by rewrite lookup_insert_eq].
    apply set_eq. intros x. rewrite !elem_of_marked.
    destruct (decide (key = x)) as [<-|Hne].
    + rewrite lookup_insert_eq, Hk. split; discriminate.
    + by rewrite lookup_insert_ne.
Qed.

Lemma visitNode_area tm nodeLiteral next tm' next' :
  visitNode tm nodeLiteral next = OK (tm', next') →
  wrap (_mappingAreaCost tm' - markedCount tm')
  = wrap (_mappingAreaCost tm - markedCount tm)
  ∧ (0 ≤ _mappingAreaCost tm < 4294967296 →
     0 ≤ _mappingAreaCost tm' < 4294967296).
Proof.
  unfold visitNode, markedCount.
  destruct (map_subscript _ nodeLiteral) as [m implemented] eqn:Hsub.
  apply marked_subscript in Hsub as [Hm Hfalse].
  destruct implemented; simpl.
  - intros [= <- <-]. simpl. by rewrite Hm.
  - intros H. bind_as H best Hbest. injection H as <- <-. simpl.
    rewrite marked_insert_true, Hm by auto.
    unfold wrap. split; lia.
Qed.

Lemma visitNodes_area nodes : ∀ tm next tm' next',
  visitNodes tm nodes next = OK (tm', next') →
  wrap (_mappingAreaCost tm' - markedCount tm')
  = wrap (_mappingAreaCost tm - markedCount tm)
  ∧ (0 ≤ _mappingAreaCost tm < 4294967296 →
     0 ≤ _mappingAreaCost tm' < 4294967296).
Proof.
  induction nodes as [|l nodes IH]; intros tm next tm' next' H.
  { by injection H as <- <-. }
  simpl in H. bind_as H [tm1 next1] Hv.
  apply visitNode_area in Hv as [Hv1 Hr1].
  apply IH in H as [Hv2 Hr2].
  split; [by rewrite Hv2|auto].
Qed.

Lemma frontierLoop_area fuel : ∀ tm current tm',
  frontierLoop fuel tm current = OK tm' →
  wrap (_mappingAreaCost tm' - markedCount tm')
  = wrap (_mappingAreaCost tm - markedCount tm)
  ∧ (0 ≤ _mappingAreaCost tm < 4294967296 →
     0 ≤ _mappingAreaCost tm' < 4294967296).
Proof.
  induction fuel as [|fuel IH]; intros tm current tm' H;
    simpl in H; case_bool_decide; try discriminate;
    try (by injection H as <-).
  bind_as H [tm1 next] Hv.
  apply visitNodes_area in Hv as [Hv1 Hr1].
  apply IH in H as [Hv2 Hr2].
  split; [by rewrite Hv2|auto].
Qed.

Lemma mapOutput_area fuel tm outputLiteral tm' :
  mapOutput fuel tm outputLiteral = OK tm' →
  wrap (_mappingAreaCost tm' - markedCount tm')
  = wrap (_mappingAreaCost tm - markedCount tm
          + directOutputs (_aig (_cutEngine tm)) [outputLiteral])
  ∧ (0 ≤ _mappingAreaCost tm < 4294967296 →
     0 ≤ _mappingAreaCost tm' < 4294967296).
Proof.
  unfold mapOutput.
  destruct (nodeIsAnd (_aig (_cutEngine tm)) outputLiteral) eqn:Hand.
  - rewrite (directOutputs_cons_False _ outputLiteral [])
      by (intros [? _]; congruence).
    change (directOutputs _ []) with 0. rewrite Z.add_0_r.
    destruct (map_subscript _ _) as [m implemented] eqn:Hsub.
    apply marked_subscript in Hsub as [Hm Hfalse].
    destruct implemented; simpl.
    + intros [= <-]. unfold markedCount. simpl. by rewrite Hm.
    + intros H. bind_as H [e' cutSet] Hfind. bind_as H best Hbest.
      apply frontierLoop_area in H as [Hv Hr].
      unfold markedCount in *. simpl in Hv, Hr.
      rewrite marked_insert_true, Hm in Hv by auto.
      split; [rewrite Hv; unfold wrap; lia|].
      intros _. apply Hr. unfold wrap. lia.
  - destruct (_ || _) eqn:Hdirect.
    + rewrite (directOutputs_cons_True _ outputLiteral []) by done.
      change (directOutputs _ []) with 0.
      intros [= <-]. unfold markedCount. simpl. unfold wrap. split; lia.
    + rewrite (directOutputs_cons_False _ outputLiteral [])
        by (intros [_ ?]; congruence).
      change (directOutputs _ []) with 0. rewrite Z.add_0_r.
      by intros [= <-].
Qed.

Lemma directOutputs_cons aig o rest :
  directOutputs aig (o :: rest)
  = directOutputs aig [o] + directOutputs aig rest.
Proof.
  destruct (decide (nodeIsAnd aig o = false
                    ∧ (nodeIsInput aig o || (o <? 2)) = true)) as [Hd|Hd].
  - rewrite !(directOutputs_cons_True _ o) by done.
    change (directOutputs _ []) with 0. lia.
  - rewrite !(directOutputs_cons_False _ o) by done.
    change (directOutputs _ []) with 0. lia.
Qed.

Lemma mapOutputs_area fuel outputs : ∀ tm tm',
  mapOutputs fuel tm outputs = OK tm' →
  wrap (_mappingAreaCost tm' - markedCount tm')
  = wrap (_mappingAreaCost tm - markedCount tm
          + directOutputs (_aig (_cutEngine tm)) outputs)
  ∧ (0 ≤ _mappingAreaCost tm < 4294967296 →
     0 ≤ _mappingAreaCost tm' < 4294967296).
Proof.
  induction outputs as [|o outputs IH]; intros tm tm' H.
  { injection H as <-. change (directOutputs _ []) with 0.
    by rewrite Z.add_0_r. }
  simpl in H. bind_as H tm1 Hone.
  pose proof (mapOutput_post _ _ _ _ Hone) as ((Haig & _) & _).
  apply mapOutput_area in Hone as [Hv1 Hr1].
  apply IH in H as [Hv2 Hr2].
  split; [|auto].
  rewrite Hv2, Haig, (directOutputs_cons _ o outputs).
  unfold wrap in *. lia.
Qed.

Lemma evenLiteral_even l : evenLiteral l mod 2 = 0.
Proof.
  unfold evenLiteral, wrap. destruct (Z.eqb_spec (l mod 2) 1); lia.
Qed.

Lemma andLiteralsOf_even aig cut l :
  l ∈ andLiteralsOf aig cut → l mod 2 = 0.
Proof.
  intros (x & -> & _)%andLiteralsOf_elem. apply literalFromIndex_even.
Qed.

Lemma visitNode_even tm nodeLiteral next tm' next' :
  visitNode tm nodeLiteral next = OK (tm', next') →
  even_marks tm → nodeLiteral mod 2 = 0 →
  (∀ l, l ∈ next → l mod 2 = 0) →
  even_marks tm' ∧ (∀ l, l ∈ next' → l mod 2 = 0).
Proof.
  intros H Hok Hl Hnext. unfold visitNode in H.
  destruct (map_subscript _ nodeLiteral) as [m implemented] eqn:Hsub.
  destruct implemented; simpl in H.
  - injection H as <- <-. split; [|done].
    intros key Hkey. simpl in *. by eapply Hok, map_subscript_lookup.
  - bind_as H best Hbest. injection H as <- <-. split.
    + intros key Hkey. simpl in *.
      destruct (decide (nodeLiteral = key)) as [<-|Hne]; [done|].
      rewrite lookup_insert_ne in Hkey by done.
      by eapply Hok, map_subscript_lookup.
    + intros l [?|?]%elem_of_union; [by apply Hnext|].
      by eapply andLiteralsOf_even.
Qed.

Lemma visitNodes_even nodes : ∀ tm next tm' next',
  visitNodes tm nodes next = OK (tm', next') →
  even_marks tm → (∀ l, l ∈ nodes → l mod 2 = 0) →
  (∀ l, l ∈ next → l mod 2 = 0) →
  even_marks tm' ∧ (∀ l, l ∈ next' → l mod 2 = 0).
Proof.
  induction nodes as [|l nodes IH]; intros tm next tm' next' H Hok Hn Hnext.
  { by injection H as <- <-. }
  simpl in H. bind_as H [tm1 next1] Hv.
  apply visitNode_even in Hv as [Hok1 Hnext1];
    [|done|apply Hn; by left|done].
  eapply IH; [exact H|done| |done].
  intros l' Hl'. apply Hn. by right.
Qed.

Lemma frontierLoop_even fuel : ∀ tm current tm',
  frontierLoop fuel tm current = OK tm' →
  even_marks tm → (∀ l, l ∈ current → l mod 2 = 0) → even_marks tm'.
Proof.
  induction fuel as [|fuel IH]; intros tm current tm' H Hok Hcur;
    simpl in H; case_bool_decide; try discriminate;
    try (by injection H as <-).
  bind_as H [tm1 next] Hv.
  apply visitNodes_even in Hv as [Hok1 Hnext]; [by eapply IH|done| |].
  - intros l Hl%elem_of_ascending. by apply Hcur.
  - intros l Hl. by apply elem_of_empty in Hl.
Qed.

Lemma mapOutput_even fuel tm outputLiteral tm' :
  mapOutput fuel tm outputLiteral = OK tm' → even_marks tm → even_marks tm'.
Proof.
  intros H Hok. unfold mapOutput in H.
  destruct (nodeIsAnd (_aig (_cutEngine tm)) outputLiteral).
  2:{ destruct (_ || _); by injection H as <-. }
  destruct (map_subscript _ _) as [m implemented] eqn:Hsub.
  destruct implemented; simpl in H.
  { injection H as <-. intros key Hkey. simpl in *.
    by eapply Hok, map_subscript_lookup. }
  bind_as H [e' cutSet] Hfind. bind_as H best Hbest.
  apply frontierLoop_even in H; [done| |].
  - intros key Hkey. simpl in *.
    destruct (decide (evenLiteral outputLiteral = key)) as [<-|Hne];
      [apply evenLiteral_even|].
    rewrite lookup_insert_ne in Hkey by done.
    by eapply Hok, map_subscript_lookup.
  - intros l Hl. by eapply andLiteralsOf_even.
Qed.

Lemma mapOutputs_even fuel outputs : ∀ tm tm',
  mapOutputs fuel tm outputs = OK tm' → even_marks tm → even_marks tm'.
Proof.
  induction outputs as [|o outputs IH]; intros tm tm' H Hok.
  { by injection H as <-. }
  simpl in H. bind_as H tm1 Hone.
  apply mapOutput_even in Hone; [|done]. by eapply IH.
Qed.

Lemma marked_bound (X : gset Z) (a n : Z) :
  0 ≤ n →
  (∀ key, key ∈ X → key mod 2 = 0 ∧ a ≤ key / 2 < a + n) →
  Z.of_nat (size X) ≤ n.
Proof.
  intros Hn HX.
  assert (Hsub : X ⊆ list_to_set ((λ v, 2 * v) <$> seqZ a n)).
  { intros key Hkey. destruct (HX key Hkey) as [Heven Hr].
    apply elem_of_list_to_set, list_elem_of_fmap.
    exists (key / 2). split; [lia|]. apply elem_of_seqZ. lia. }
  apply subseteq_size in Hsub.
  rewrite size_list_to_set in Hsub.
  - rewrite length_fmap, length_seqZ in Hsub. lia.
  - apply NoDup_fmap_2; [|apply NoDup_seqZ]. intros x y Hxy. lia.
Qed.

(** X14. The LUT count [TechMapper::run] reports is, modulo 2^32, the
    number of nodes it marked implemented plus the number of output
    literals that are primary inputs or constants; the marked nodes are
    and-nodes under their even literals, so there are at most as many as
    the design has and-nodes. *)
Theorem lut_count_is_marked_nodes_plus_direct_outputs (fuel : nat)
    (aig : AndInverterGraph) (mappingGoal : MappingGoal) (k c : Z)
    (tm : TechMapper) :
  integrityChecks aig = true →
  pipeline fuel aig mappingGoal k c = OK tm →
  _mappingAreaCost tm
  = wrap (markedCount tm + directOutputs aig (_outputLiteralVector aig))
  ∧ markedCount tm ≤ _numAnds aig.
Proof.
  intros Hvalid H. unfold pipeline in H. bind_as H e Hnew.
  pose proof (reachable_new _ _ _ _ _ Hvalid Hnew) as Hreach.
  assert (Haig : _aig e = aig).
  { unfold CutEngine_new in Hnew. destruct (k <? 2); [discriminate|].
    by injection Hnew as <-. }
  unfold TechMapper_run in H. simpl in H. rewrite Haig in H.
  pose proof (integrityChecks_bounds _ Hvalid) as (HI & HL & HA & HM & Hfit).
  assert (Hfresh : ∀ key, _mapperImplementationMap (TechMapper_new e) !! key
                          ≠ Some true).
  { intros key. unfold TechMapper_new. simpl.
    rewrite initial_map_lookup, lookup_empty. by case_decide. }
  split.
  - apply mapOutputs_area in H as [Hv Hr].
    assert (Hzero : markedCount (TechMapper_new e) = 0).
    { unfold markedCount.
      replace (marked (_mapperImplementationMap (TechMapper_new e)))
        with (∅ : gset Z); [by rewrite size_empty|].
      symmetry. apply set_eq. intros key. rewrite elem_of_marked.
      split; [by intros ?%Hfresh|by intros ?%elem_of_empty]. }
    rewrite Hzero in Hv. simpl in Hv, Hr. rewrite Haig in Hv.
    specialize (Hr ltac:(lia)). unfold wrap in *. lia.
  - pose proof (mapOutputs_even _ _ _ _ H) as Heven.
    destruct (mapOutputs_marks fuel _ (TechMapper_new e) tm Hreach H
                (TechMapper_new_marks e))
      as [Hreach' Hmarks].
    pose proof (mapOutputs_post _ _ _ _ H) as ((Haig' & _) & _).
    simpl in Haig'. rewrite Haig in Haig'.
    unfold markedCount.
    apply (marked_bound _ (_numInputs aig + _numLatches aig + 1)); [lia|].
    intros key Hkey%elem_of_marked.
    split; [apply Heven; [|done]; by intros ? ?%Hfresh|].
    destruct (Hmarks key Hkey) as [Hand _]. rewrite Haig' in Hand.
    apply (nodeIsAnd_spec _ Hvalid) in Hand as [_ Hv].
    unfold isAndVariable in Hv. lia.
Qed.

Lemma lut_count_is_marked_nodes_plus_direct_outputs_witness :
  _mappingAreaCost
    (from_OK mapperShared (pipeline 24 aigChain MinimizeArea 2 0))
  = wrap (markedCount
            (from_OK mapperShared (pipeline 24 aigChain MinimizeArea 2 0))
          + directOutputs aigChain (_outputLiteralVector aigChain))
  ∧ markedCount (from_OK mapperShared (pipeline 24 aigChain MinimizeArea 2 0))
    ≤ _numAnds aigChain.
Proof.
  apply (lut_count_is_marked_nodes_plus_direct_outputs 24 aigChain
           MinimizeArea 2 0).
  - reflexivity.
  - vm_compute. reflexivity.
Defined.

(** X15. After a call of [TechMapper::run] that returned, every node the
    mapper marked implemented is an and-literal with a best cut in the
    engine, so [TechMapper::printImplementation] never raises in
    [getBestCut]. *)
Theorem mapper_marks_have_best_cuts (fuel : nat) (aig : AndInverterGraph)
    (mappingGoal : MappingGoal) (k c : Z) (tm : TechMapper) (key : Z) :
  integrityChecks aig = true →
  pipeline fuel aig mappingGoal k c = OK tm →
  _mapperImplementationMap tm !! key = Some true →
  nodeIsAnd aig key = true
  ∧ ∃ bestCut, getBestCut (_cutEngine tm) key = OK bestCut.
Proof.
  intros Hvalid H Hkey. unfold pipeline in H. bind_as H e Hnew.
  pose proof (reachable_new _ _ _ _ _ Hvalid Hnew) as Hreach.
  assert (Haig : _aig e = aig).
  { unfold CutEngine_new in Hnew. destruct (k <? 2); [discriminate|].
    by injection Hnew as <-. }
  unfold TechMapper_run in H. simpl in H. rewrite Haig in H.
  destruct (mapOutputs_marks fuel _ (TechMapper_new e) tm Hreach H
                (TechMapper_new_marks e))
    as [Hreach' Hmarks].
  pose proof (mapOutputs_post _ _ _ _ H) as ((Haig' & _) & _).
  simpl in Haig'. rewrite Haig in Haig'.
  destruct (Hmarks key Hkey) as [Hand Hcs].
  destruct (reachable_inv _ _ Hreach') as [Hinv' _].
  split; [by rewrite <- Haig'|].
  rewrite getBestCut_spec by (by try apply engine_inv_shape).
  destruct (cutSetOf (_cutEngine tm) (key / 2)); [done|eauto].
Qed.

Lemma mapper_marks_have_best_cuts_witness :
  nodeIsAnd aigChain 12 = true
  ∧ ∃ bestCut,
      getBestCut
        (_cutEngine
           (from_OK mapperShared (pipeline 24 aigChain MinimizeArea 2 0)))
        12 = OK bestCut.
Proof.
  apply (mapper_marks_have_best_cuts 24 aigChain MinimizeArea 2 0).
  - reflexivity.
  - vm_compute. reflexivity.
  - vm_compute. reflexivity.
Defined.

Lemma phiOperation_guards_witness :
  phiOperation engineChain 12 = Err ChildCutSetUndefined.
Proof.
  apply (proj2 (proj2 (phiOperation_guards engineChain [] 12
           (reachable_new aigChain MinimizeArea 3 0 engineChain
              eq_refl eq_refl))) (mkAndNode 10 2)).
  - reflexivity.
  - reflexivity.
  - left. reflexivity.
Defined.



Lemma absorbChild_eq e bestCut childLiteral :
  engine_shape e →
  (nodeIsAnd (_aig e) childLiteral = true →
   cutSetOf e (childLiteral / 2) ≠ []) →
  absorbChild e bestCut childLiteral
  = OK (set_implementationMap e
          (absorbMap e bestCut childLiteral (_implementationMap e))).
Proof.
  intros Hshape Hcs. unfold absorbChild, absorbMap, absorbs.
  destruct (nodeIsAnd (_aig e) childLiteral) eqn:Hand; simpl.
  - rewrite getBestCut_spec by done.
    destruct (cutSetOf e (childLiteral / 2)); [by destruct Hcs|].
    simpl. case_bool_decide; [done|by destruct e].
  - by destruct e.
Qed.

Lemma absorbs_ext e e' bestCut childLiteral :
  engine_shape e → engine_shape e' → _aig e' = _aig e →
  (nodeIsAnd (_aig e) childLiteral = true →
   cutSetOf e' (childLiteral / 2) = cutSetOf e (childLiteral / 2)) →
  absorbs e' bestCut childLiteral = absorbs e bestCut childLiteral.
Proof.
  intros Hshape Hshape' Haig Hcs. unfold absorbs. rewrite Haig.
  destruct (nodeIsAnd (_aig e) childLiteral) eqn:Hand; [|done].
  rewrite !getBestCut_spec by (by rewrite ?Haig). by rewrite Hcs.
Qed.

Lemma absorbMap_ext e e' bestCut childLiteral m :
  engine_shape e → engine_shape e' → _aig e' = _aig e →
  (nodeIsAnd (_aig e) childLiteral = true →
   cutSetOf e' (childLiteral / 2) = cutSetOf e (childLiteral / 2)) →
  absorbMap e' bestCut childLiteral m = absorbMap e bestCut childLiteral m.
Proof.
  intros. unfold absorbMap. by rewrite (absorbs_ext e e').
Qed.

(** X17. What processing a node does to the engine's implementation map.
    When the best cut stored for the node has a non-zero area the map is
    left as it is. When it has area 0 the literal on top of the stack gets
    the entry [true], and then every child that is an and-node whose best
    cut has its leaves among those of the node's best cut gets the entry
    [false] under its even literal; nothing else changes. *)
Theorem processing_updates_implementation_map (e e' : CutEngine) (t : Z)
    (rest : list Z) (an : AndNode) :
  reachable e (t :: rest) →
  getAndNodeFromLiteral (_aig e) t = OK an →
  findCutsStep e t rest = OK (e', rest) →
  ∃ bestCut,
    getBestCut e' t = OK bestCut
    ∧ _implementationMap e'
      = if getAreaCost bestCut =? 0
        then absorbMap e bestCut (_secondChild an)
               (absorbMap e bestCut (_firstChild an)
                  (<[t := true]> (_implementationMap e)))
        else _implementationMap e.
Proof.
  intros Hreach Han Hstep.
  destruct (reachable_inv _ _ Hreach) as [Hinv Hstack].
  pose proof (inv_aig e Hinv) as Hvalid.
  pose proof (engine_inv_shape e Hinv) as Hshape.
  destruct (findCutsStep_outcomes e t rest Hinv Hstack)
    as (an' & Han' & Hand & Hempty
        & [(c & _ & _ & _ & _ & Heq)|(H0 & H1 & Heq)]).
  { rewrite Heq in Hstep. injection Hstep as _ Hs.
    apply (f_equal length) in Hs. simpl in Hs. lia. }
  assert (an' = an) as -> by congruence.
  rewrite Heq in Hstep. bind_as Hstep e2 Hproc. injection Hstep as ->.
  pose proof (getAndNodeFromLiteral_children _ Hvalid _ _ Han)
    as (_ & Hc1 & Hc0).
  pose proof (proj1 (nodeIsAnd_spec _ Hvalid _) Hand) as [_ Ht].
  pose proof Hproc as Hproc'.
  unfold processNode in Hproc'. bind_as Hproc' cutSet Hphi.
  destruct (phiOperation_OK_children e Hinv t Hand Hempty an Han H0 H1
              _ Hphi) as [Hl0 Hl1].
  destruct (processNode_cuts e t an e' Hinv Hand Hempty Han H0 H1 Hl0 Hl1
              Hproc) as ((Haig & _) & Hstored & Hne & Hsame & _).
  destruct (vectorIndexFromAndLiteral_spec e Hshape t Hand) as [Hidx _].
  rewrite Hidx in Hproc'. simpl in Hproc'.
  bind_as Hproc' bestCut Hbest.
  set (e1 := set_cutSetVector e _) in *.
  assert (Hshape1 : engine_shape e1).
  { destruct Hshape as [? Hlen]. split; [done|]. simpl.
    by rewrite length_insert. }
  assert (Hchild : ∀ c, c < 2 * (t / 2) → isUnprocessedAnd e c = OK false →
            nodeIsAnd (_aig e) c = true →
            cutSetOf e1 (c / 2) = cutSetOf e (c / 2)
            ∧ cutSetOf e (c / 2) ≠ []).
  { intros c Hlt Hunp Hc. split.
    - pose proof (proj1 (nodeIsAnd_spec _ Hvalid _) Hc) as [_ Hcv].
      unfold e1. rewrite cutSetOf_store by done.
      rewrite decide_False by lia. done.
    - rewrite isUnprocessedAnd_spec, Hc in Hunp by done.
      by destruct (cutSetOf e (c / 2)). }
  assert (Hlt0 : _firstChild an < 2 * (t / 2)) by lia.
  assert (Hlt1 : _secondChild an < 2 * (t / 2)) by lia.
  assert (Hb : getBestCut e' t = OK bestCut).
  { destruct (processNode_inv e Hinv t Hand Hempty _ _ Hlt0 Hlt1 _ Hproc)
      as (Hinv' & _).
    rewrite getBestCut_spec;
      [|by apply engine_inv_shape|by rewrite Haig].
    rewrite Hstored.
    destruct (phiOperation_eq e Hinv t Hand Hempty an Han H0 H1 Hl0 Hl1)
      as [Hphi' _].
    rewrite Hphi in Hphi'. injection Hphi' as <-.
    apply vector_at_OK in Hbest as [_ Hbest].
    unfold storedCuts.
    by destruct (if _c e >? 0 then _ else _) as [|b r];
      [|injection Hbest as ->]. }
  exists bestCut. split; [done|].
  destruct (getAreaCost bestCut =? 0); [|by injection Hproc' as <-].
  set (e2 := set_implementationMap e1 _) in *.
  assert (Hshape2 : engine_shape e2) by done.
  rewrite (absorbChild_eq e2) in Hproc'; [|done|].
  2:{ intros Hc. unfold e2.
      rewrite (cutSetOf_ext e1) by done.
      destruct (Hchild _ Hlt0 H0 Hc) as [-> ?]. done. }
  simpl in Hproc'.
  set (e3 := set_implementationMap e2 _) in *.
  assert (Hshape3 : engine_shape e3) by done.
  rewrite (absorbChild_eq e3) in Hproc'; [|done|].
  2:{ intros Hc. unfold e3, e2.
      rewrite (cutSetOf_ext e1) by done.
      destruct (Hchild _ Hlt1 H1 Hc) as [-> ?]. done. }
  injection Hproc' as <-. simpl.
  rewrite (absorbMap_ext e e3), (absorbMap_ext e e2); try done.
  - intros Hc. unfold e2. rewrite (cutSetOf_ext e1) by done.
    by destruct (Hchild _ Hlt0 H0 Hc) as [-> ?].
  - intros Hc. unfold e3, e2. rewrite (cutSetOf_ext e1) by done.
    by destruct (Hchild _ Hlt1 H1 Hc) as [-> ?].
Qed.

(** X18. Literals and variable indexes: the literal of a variable index
    below 2^31 has that index; an index of 2^31 or more loses its top bit;
    the literal of the index of a literal is the literal with its polarity
    bit cleared. *)
Theorem literal_index_round_trip (i l : Z) :
  0 ≤ i < 2147483648 →
  0 ≤ l < 4294967296 →
  indexFromLiteral (literalFromIndex i) = i
  ∧ literalFromIndex i = 2 * i
  ∧ indexFromLiteral (literalFromIndex (i + 2147483648)) = i
  ∧ literalFromIndex (indexFromLiteral l) = evenLiteral l
  ∧ evenLiteral l = l - l mod 2
  ∧ indexFromLiteral (evenLiteral l) = indexFromLiteral l.
Proof.
  intros Hi Hl. rewrite !indexFromLiteral_div.
  unfold literalFromIndex, evenLiteral, wrap. rewrite !Z.shiftl_mul_pow2 by lia.
  change (2 ^ 1) with 2.
  destruct (Z.eqb_spec (l mod 2) 1); repeat split; lia.
Qed.

Lemma literal_index_round_trip_witness :
  indexFromLiteral (literalFromIndex 3) = 3
  ∧ literalFromIndex 3 = 2 * 3
  ∧ indexFromLiteral (literalFromIndex (3 + 2147483648)) = 3
  ∧ literalFromIndex (indexFromLiteral 7) = evenLiteral 7
  ∧ evenLiteral 7 = 7 - 7 mod 2
  ∧ indexFromLiteral (evenLiteral 7) = indexFromLiteral 7.
Proof. apply (literal_index_round_trip 3 7); lia. Defined.

Lemma nodeIsLatch_spec aig l :
  integrityChecks aig = true →
  nodeIsLatch aig l = true
  ↔ 1 < l ∧ _numInputs aig < l / 2 ≤ _numInputs aig + _numLatches aig.
Proof.
  intros Hvalid.
  pose proof (integrityChecks_bounds _ Hvalid) as (HI & HL & HA & HM & Hfit).
  unfold nodeIsLatch. rewrite indexFromLiteral_div.
  replace (wrap (_numInputs aig + _numLatches aig))
    with (_numInputs aig + _numLatches aig) by (unfold wrap; lia).
  destruct (Z.leb_spec l 1); [split; [done|lia]|].
  destruct (Z.leb_spec (l / 2) (_numInputs aig + _numLatches aig));
    destruct (Z.gtb_spec (l / 2) (_numInputs aig)); simpl;
    split; try done; lia.
Qed.

(** X19. On a design that passed the integrity checks the three node
    tests split the literals by their variable: inputs up to I, latches up
    to I + L, and-nodes up to M; the constants 0 and 1 and the literals
    beyond 2M + 1 are none of the three, every other literal is exactly
    one. A design is combinational exactly when it is not sequential, and
    then no literal is a latch. *)
Theorem node_kinds_partition (aig : AndInverterGraph) (l : Z) :
  integrityChecks aig = true →
  (nodeIsInput aig l = true ↔ 1 < l ∧ l / 2 ≤ _numInputs aig)
  ∧ (nodeIsLatch aig l = true
     ↔ 1 < l ∧ _numInputs aig < l / 2 ≤ _numInputs aig + _numLatches aig)
  ∧ (nodeIsAnd aig l = true
     ↔ 1 < l ∧ _numInputs aig + _numLatches aig < l / 2
                ≤ _maxVariableIndex aig)
  ∧ (2 ≤ l ≤ 2 * _maxVariableIndex aig + 1 →
     nodeIsInput aig l = true ∨ nodeIsLatch aig l = true
     ∨ nodeIsAnd aig l = true)
  ∧ ¬ (nodeIsInput aig l = true ∧ nodeIsLatch aig l = true)
  ∧ ¬ (nodeIsInput aig l = true ∧ nodeIsAnd aig l = true)
  ∧ ¬ (nodeIsLatch aig l = true ∧ nodeIsAnd aig l = true)
  ∧ isCombinational aig = negb (isSequential aig)
  ∧ (isCombinational aig = true → nodeIsLatch aig l = false).
Proof.
  intros Hvalid.
  pose proof (integrityChecks_bounds _ Hvalid) as (HI & HL & HA & HM & Hfit).
  pose proof (nodeIsInput_spec aig l) as Hin.
  pose proof (nodeIsLatch_spec aig l Hvalid) as Hlatch.
  pose proof (nodeIsAnd_spec aig Hvalid l) as Hand.
  unfold isAndVariable in Hand.
  split; [done|]. split; [done|]. split; [rewrite Hand; lia|].
  split; [rewrite Hin, Hlatch, Hand; lia|].
  split; [rewrite Hin, Hlatch; lia|].
  split; [rewrite Hin, Hand; lia|].
  split; [rewrite Hlatch, Hand; lia|].
  split.
  - unfold isCombinational, isSequential.
    destruct (Z.eqb_spec (_numLatches aig) 0);
      destruct (Z.gtb_spec (_numLatches aig) 0); try done; lia.
  - intros Hcomb. by apply combinational_no_latch.
Qed.

Lemma node_kinds_partition_witness :
  (nodeIsInput aigLatchChild 4 = true ↔ 1 < 4 ∧ 4 / 2 ≤ _numInputs aigLatchChild)
  ∧ (nodeIsLatch aigLatchChild 4 = true
     ↔ 1 < 4 ∧ _numInputs aigLatchChild < 4 / 2
                ≤ _numInputs aigLatchChild + _numLatches aigLatchChild)
  ∧ (nodeIsAnd aigLatchChild 4 = true
     ↔ 1 < 4 ∧ _numInputs aigLatchChild + _numLatches aigLatchChild < 4 / 2
                ≤ _maxVariableIndex aigLatchChild)
  ∧ (2 ≤ 4 ≤ 2 * _maxVariableIndex aigLatchChild + 1 →
     nodeIsInput aigLatchChild 4 = true ∨ nodeIsLatch aigLatchChild 4 = true
     ∨ nodeIsAnd aigLatchChild 4 = true)
  ∧ ¬ (nodeIsInput aigLatchChild 4 = true ∧ nodeIsLatch aigLatchChild 4 = true)
  ∧ ¬ (nodeIsInput aigLatchChild 4 = true ∧ nodeIsAnd aigLatchChild 4 = true)
  ∧ ¬ (nodeIsLatch aigLatchChild 4 = true ∧ nodeIsAnd aigLatchChild 4 = true)
  ∧ isCombinational aigLatchChild = negb (isSequential aigLatchChild)
  ∧ (isCombinational aigLatchChild = true →
     nodeIsLatch aigLatchChild 4 = false).
Proof. apply (node_kinds_partition aigLatchChild 4). reflexivity. Defined.



(** X21. [literalFromLatchVectorIndex] returns for the first latch only:
    the literal it computes for the latch of index i is compared with the
    literal of the first latch, so every index of 1 or more raises. *)
Theorem literalFromLatchVectorIndex_first_only (aig : AndInverterGraph)
    (i : Z) :
  integrityChecks aig = true →
  0 ≤ i < _numLatches aig →
  literalFromLatchVectorIndex aig i
  = (if i =? 0 then Some (getFirstLatchLiteral aig) else None)
  ∧ nodeIsLatch aig (getFirstLatchLiteral aig) = true
  ∧ getFirstLatchLiteral aig = 2 * (_numInputs aig + 1).
Proof.
  intros Hvalid Hi.
  pose proof (integrityChecks_bounds _ Hvalid) as (HI & HL & HA & HM & Hfit).
  assert (Hfirst : getFirstLatchLiteral aig = 2 * (_numInputs aig + 1)).
  { unfold getFirstLatchLiteral.
    replace (wrap (wrap (0 + _numInputs aig) + 1)) with (_numInputs aig + 1)
      by (unfold wrap; lia).
    by rewrite literalFromIndex_small by lia. }
  split; [|split; [|done]].
  - unfold literalFromLatchVectorIndex.
    replace (wrap (wrap (i + _numInputs aig) + 1)) with (i + _numInputs aig + 1)
      by (unfold wrap; lia).
    replace (wrap (_numInputs aig + 1)) with (_numInputs aig + 1)
      by (unfold wrap; lia).
    rewrite !literalFromIndex_small by lia.
    destruct (Z.eqb_spec i 0) as [->|Hne].
    + destruct (Z.gtb_spec (2 * (0 + _numInputs aig + 1))
                  (2 * (_numInputs aig + 1))); [lia|].
      rewrite Hfirst. f_equal; lia.
    + destruct (Z.gtb_spec (2 * (i + _numInputs aig + 1))
                  (2 * (_numInputs aig + 1))); [done|lia].
  - rewrite Hfirst. apply (nodeIsLatch_spec _ _ Hvalid). lia.
Qed.

Lemma literalFromLatchVectorIndex_first_only_witness :
  literalFromLatchVectorIndex aigTwoLatches 1
  = (if 1 =? 0 then Some (getFirstLatchLiteral aigTwoLatches) else None)
  ∧ nodeIsLatch aigTwoLatches (getFirstLatchLiteral aigTwoLatches) = true
  ∧ getFirstLatchLiteral aigTwoLatches = 2 * (_numInputs aigTwoLatches + 1).
Proof.
  apply (literalFromLatchVectorIndex_first_only aigTwoLatches 1).
  - reflexivity.
  - vm_compute. split; [discriminate|reflexivity].
Defined.

Lemma CutSet_find_Some newCut cutSet it :
  CutSet_find newCut cutSet = Some it →
  (∃ cut, cutSet !! it = Some cut
          ∧ _nodeVariables cut = _nodeVariables newCut)
  ∧ ∀ j cut, (j < it)%nat → cutSet !! j = Some cut →
             _nodeVariables cut ≠ _nodeVariables newCut.
Proof.
  revert it. induction cutSet as [|x rest IH]; intros it H; [done|].
  simpl in H. unfold Cut_eqb in H.
  case_bool_decide as Heq.
  - injection H as <-. split; [by exists x|]. intros j cut Hj. lia.
  - destruct (CutSet_find newCut rest) as [it'|] eqn:Hfind; [|done].
    injection H as <-. destruct (IH it' eq_refl) as [Hat Hfirst].
    split; [done|]. intros [|j] cut Hj Hcut.
    + injection Hcut as <-. done.
    + apply (Hfirst j); [lia|done].
Qed.

Lemma CutSet_find_app newCut cutSet :
  CutSet_find newCut cutSet = None →
  CutSet_find newCut (cutSet ++ [newCut]) = Some (length cutSet).
Proof.
  induction cutSet as [|x rest IH]; simpl.
  - intros _. unfold Cut_eqb. by rewrite bool_decide_eq_true_2.
  - destruct (Cut_eqb newCut x); [done|].
    destruct (CutSet_find newCut rest); [done|].
    intros _. by rewrite IH.
Qed.

(** X22. [CutSet::emplace] keeps the cut set free of duplicates by leaf
    set. A cut whose leaves are new is appended and reported as inserted;
    otherwise the cut set is left as it is. In both cases the position
    returned holds a cut with the leaves of the argument, it is the first
    such position, and emplacing the same cut again changes nothing. *)
Theorem CutSet_emplace_properties (cutSet : CutSet) (newCut : Cut) :
  let '(cutSet', it, wasNotInTheSet) := CutSet_emplace cutSet newCut in
  (wasNotInTheSet = true
   ↔ _nodeVariables newCut ∉ (_nodeVariables <$> cutSet))
  ∧ cutSet' = (if wasNotInTheSet then cutSet ++ [newCut] else cutSet)
  ∧ (∃ cut, cutSet' !! it = Some cut
            ∧ _nodeVariables cut = _nodeVariables newCut)
  ∧ (∀ j cut, (j < it)%nat → cutSet' !! j = Some cut →
              _nodeVariables cut ≠ _nodeVariables newCut)
  ∧ (NoDup (_nodeVariables <$> cutSet) → NoDup (_nodeVariables <$> cutSet'))
  ∧ CutSet_emplace cutSet' newCut = (cutSet', it, false).
Proof.
  unfold CutSet_emplace.
  destruct (CutSet_find newCut cutSet) as [it|] eqn:Hfind.
  - destruct (CutSet_find_Some _ _ _ Hfind) as [Hat Hfirst].
    split.
    { split; [done|]. intros Hnot. apply CutSet_find_None in Hnot.
      congruence. }
    split; [done|]. split; [done|]. split; [done|]. split; [done|].
    by rewrite Hfind.
  - pose proof (proj1 (CutSet_find_None _ _) Hfind) as Hnot.
    split; [done|]. split; [done|].
    split.
    { exists newCut. split; [|done].
      by rewrite lookup_app_r, Nat.sub_diag by lia. }
    split.
    { intros j cut Hj Hcut Heq. rewrite lookup_app_l in Hcut by done.
      apply Hnot, list_elem_of_fmap. exists cut.
      split; [done|]. by eapply list_elem_of_lookup_2. }
    split.
    { intros Hnd. rewrite fmap_app. apply NoDup_app. split; [done|].
      split; [|apply NoDup_singleton].
      intros x Hx ->%list_elem_of_singleton. done. }
    by rewrite CutSet_find_app.
Qed.

(** X23. The two comparators are strict weak orders, which is what
    [std::sort] asks of its comparison: irreflexive, asymmetric,
    transitive, and with a transitive incomparability. *)
Theorem comparators_are_strict_weak_orders (mappingGoal : MappingGoal)
    (a b c : Cut) :
  goalComparision mappingGoal a a = false
  ∧ (goalComparision mappingGoal a b = true →
     goalComparision mappingGoal b a = false)
  ∧ (goalComparision mappingGoal a b = true →
     goalComparision mappingGoal b c = true →
     goalComparision mappingGoal a c = true)
  ∧ (goalComparision mappingGoal a b = false →
     goalComparision mappingGoal b a = false →
     goalComparision mappingGoal b c = false →
     goalComparision mappingGoal c b = false →
     goalComparision mappingGoal a c = false
     ∧ goalComparision mappingGoal c a = false)
  ∧ goalComparision MinimizeArea = cutAreaComparision
  ∧ goalComparision MinimizeDelay = cutDelayComparision.
Proof.
  split; [|split; [|split; [|split; [|done]]]].
  - destruct mappingGoal; simpl;
      unfold cutAreaComparision, cutDelayComparision, getAreaCost,
        getDelayCost;
      repeat match goal with
             | |- context [?x <? ?y] => destruct (Z.ltb_spec x y)
             | |- context [?x =? ?y] => destruct (Z.eqb_spec x y)
             end; try done; lia.
  - apply goalComparision_asym.
  - destruct mappingGoal; simpl;
      unfold cutAreaComparision, cutDelayComparision, getAreaCost,
        getDelayCost;
      repeat match goal with
             | |- context [?x <? ?y] => destruct (Z.ltb_spec x y)
             | |- context [?x =? ?y] => destruct (Z.eqb_spec x y)
             end; try done; lia.
  - intros Hab Hba Hbc Hcb. split.
    + by eapply goalComparision_negtrans.
    + by eapply goalComparision_negtrans.
Qed.

(** X24. The cost accessors of a cut. A setter rejects the reserved value
    2^32 - 1 and nothing else; a value it accepts is the value the getter
    returns, the cost counts as set, and the leaves and the other two
    costs are untouched. Unsetting a cost makes [allCostsSet] false, and
    [allCostsSet] is the conjunction of the three single tests. The
    default cut has no leaves and no cost set. *)
Theorem Cut_cost_accessors (cut : Cut) (cost : Z) :
  (setAreaCost cut cost
   = if cost =? UINT_MAX then Err CostOutOfRange
     else OK (mkCut (getVariableSet cut) cost (getDelayCost cut)
                    (getPowerCost cut)))
  ∧ (setDelayCost cut cost
     = if cost =? UINT_MAX then Err CostOutOfRange
       else OK (mkCut (getVariableSet cut) (getAreaCost cut) cost
                      (getPowerCost cut)))
  ∧ (setPowerCost cut cost
     = if cost =? UINT_MAX then Err CostOutOfRange
       else OK (mkCut (getVariableSet cut) (getAreaCost cut)
                      (getDelayCost cut) cost))
  ∧ (∀ cut', setAreaCost cut cost = OK cut' → areaCostsSet cut' = true)
  ∧ (∀ cut', setDelayCost cut cost = OK cut' → delayCostsSet cut' = true)
  ∧ (∀ cut', setPowerCost cut cost = OK cut' → powerCostsSet cut' = true)
  ∧ allCostsSet cut
    = areaCostsSet cut && delayCostsSet cut && powerCostsSet cut
  ∧ areaCostsSet (unsetAreaCost cut) = false
  ∧ delayCostsSet (unsetDelayCost cut) = false
  ∧ powerCostsSet (unsetPowerCost cut) = false
  ∧ allCostsSet (unsetAreaCost cut) = false
  ∧ allCostsSet (unsetDelayCost cut) = false
  ∧ allCostsSet (unsetPowerCost cut) = false
  ∧ isEmptyCut Cut_default = true
  ∧ allCostsSet Cut_default = false.
Proof.
  unfold setAreaCost, setDelayCost, setPowerCost, areaCostsSet,
    delayCostsSet, powerCostsSet, allCostsSet, unsetAreaCost, unsetDelayCost,
    unsetPowerCost, getVariableSet, getAreaCost, getDelayCost, getPowerCost.
  cbn [_nodeVariables _areaCost _delayCost _powerCost].
  repeat split; try done.
  - destruct (Z.eqb_spec cost UINT_MAX); [done|].
    intros cut' [= <-]. simpl. by destruct (Z.eqb_spec cost UINT_MAX).
  - destruct (Z.eqb_spec cost UINT_MAX); [done|].
    intros cut' [= <-]. simpl. by destruct (Z.eqb_spec cost UINT_MAX).
  - destruct (Z.eqb_spec cost UINT_MAX); [done|].
    intros cut' [= <-]. simpl. by destruct (Z.eqb_spec cost UINT_MAX).
  - by destruct (_areaCost cut =? UINT_MAX), (_delayCost cut =? UINT_MAX),
      (_powerCost cut =? UINT_MAX).
  - by destruct (_areaCost cut =? UINT_MAX), (_delayCost cut =? UINT_MAX).
  - by destruct (_areaCost cut =? UINT_MAX), (_delayCost cut =? UINT_MAX).
Qed.

Lemma constructor_map_lookup aig key :
  integrityChecks aig = true →
  foldl (λ m i, map_emplace (literalFromIndex i) false m) ∅
    (seqZ (indexFromLiteral (getFirstAndLiteral aig))
          (wrap (indexFromLiteral (getFirstAndLiteral aig) + _numAnds aig)
           - indexFromLiteral (getFirstAndLiteral aig))) !! key
  = if nodeIsAnd aig key && (key mod 2 =? 0) then Some false else None.
Proof.
  intros Hvalid.
  pose proof (integrityChecks_bounds _ Hvalid) as (HI & HL & HA & HM & Hfit).
  destruct (decide (_numAnds aig = 0)) as [Hzero|Hpos].
  { set (first := indexFromLiteral (getFirstAndLiteral aig)).
    assert (0 ≤ first < 4294967296).
    { unfold first, getFirstAndLiteral, literalFromIndex.
      rewrite indexFromLiteral_div. unfold wrap. lia. }
    rewrite Hzero.
    replace (wrap (first + 0) - first) with 0 by (unfold wrap; lia).
    simpl. rewrite lookup_empty.
    destruct (nodeIsAnd aig key) eqn:Hand; [|done].
    apply (nodeIsAnd_spec _ Hvalid) in Hand as [_ Hv].
    unfold isAndVariable in Hv. lia. }
  assert (Hfirst : indexFromLiteral (getFirstAndLiteral aig)
                   = _numInputs aig + _numLatches aig + 1).
  { unfold getFirstAndLiteral.
    replace (wrap (wrap (wrap (0 + _numInputs aig) + _numLatches aig) + 1))
      with (_numInputs aig + _numLatches aig + 1) by (unfold wrap; lia).
    rewrite literalFromIndex_small, indexFromLiteral_div by lia. lia. }
  rewrite Hfirst, initial_map_lookup, lookup_empty.
  replace (wrap (_numInputs aig + _numLatches aig + 1 + _numAnds aig)
           - (_numInputs aig + _numLatches aig + 1))
    with (_numAnds aig) by (unfold wrap; lia).
  destruct (nodeIsAnd aig key) eqn:Hand; simpl.
  - apply (nodeIsAnd_spec _ Hvalid) in Hand as [Hk Hv].
    unfold isAndVariable in Hv.
    destruct (Z.eqb_spec (key mod 2) 0) as [Heven|Hodd].
    + rewrite decide_True; [done|].
      apply list_elem_of_fmap. exists (key / 2).
      split; [rewrite literalFromIndex_small by lia; lia|].
      apply elem_of_seqZ. lia.
    + rewrite decide_False; [done|].
      intros (v & -> & _)%list_elem_of_fmap.
      pose proof (literalFromIndex_even v). lia.
  - rewrite decide_False; [done|].
    intros (v & -> & Hv%elem_of_seqZ)%list_elem_of_fmap.
    rewrite literalFromIndex_small in Hand by lia.
    assert (nodeIsAnd aig (2 * v) = true); [|congruence].
    apply (nodeIsAnd_spec _ Hvalid). unfold isAndVariable.
    replace (2 * v / 2) with v by lia. lia.
Qed.



(** X26. The three accessors of the stored cuts agree. On a literal that
    is not an and-node all three raise the same error. On an and-literal
    [getCutSet] returns the stored cut set, [hasBestCut] tells whether it
    is non-empty and [getBestCut] returns its first cut, or raises when
    there is none; the negated literal addresses the same cut set. *)
Theorem cut_set_accessors_agree (e : CutEngine) (stack : list Z) (l : Z) :
  reachable e stack →
  (nodeIsAnd (_aig e) l = false →
   getCutSet e l = Err NotAnAndLiteral
   ∧ hasBestCut e l = Err NotAnAndLiteral
   ∧ getBestCut e l = Err NotAnAndLiteral)
  ∧ (nodeIsAnd (_aig e) l = true →
     ∃ cutSet,
       getCutSet e l = OK cutSet
       ∧ hasBestCut e l = OK (match cutSet with [] => false | _ => true end)
       ∧ getBestCut e l = match cutSet with
                          | [] => Err BestCutUndefined
                          | bestCut :: _ => OK bestCut
                          end
       ∧ getCutSet e (Z.lxor l 1) = OK cutSet).
Proof.
  intros Hreach.
  destruct (reachable_inv _ _ Hreach) as [Hinv _].
  pose proof (inv_aig e Hinv) as Hvalid.
  pose proof (engine_inv_shape e Hinv) as Hshape.
  split.
  - intros Hna. unfold getCutSet, hasBestCut, getBestCut. by rewrite Hna.
  - intros Hand. exists (cutSetOf e (l / 2)).
    rewrite getCutSet_spec, hasBestCut_spec, getBestCut_spec by done.
    split; [done|]. split; [done|]. split; [done|].
    pose proof (proj1 (nodeIsAnd_spec _ Hvalid _) Hand) as [Hl Hv].
    assert (Hx : Z.lxor l 1 / 2 = l / 2).
    { change 2 with (2 ^ 1). rewrite <- !Z.shiftr_div_pow2 by lia.
      rewrite Z.shiftr_lxor. change (Z.shiftr 1 1) with 0.
      by rewrite Z.lxor_0_r. }
    assert (Hxl : 1 < Z.lxor l 1).
    { assert (0 ≤ Z.lxor l 1) by (apply Z.lxor_nonneg; lia). lia. }
    rewrite getCutSet_spec, Hx; [done..|].
    apply (nodeIsAnd_spec _ Hvalid). by rewrite Hx.
Qed.

Lemma cut_set_accessors_agree_witness :
  (nodeIsAnd aigChain 13 = false →
   getCutSet (engineAfter (findCuts 24 engineChain 12) engineChain) 13
   = Err NotAnAndLiteral
   ∧ hasBestCut (engineAfter (findCuts 24 engineChain 12) engineChain) 13
     = Err NotAnAndLiteral
   ∧ getBestCut (engineAfter (findCuts 24 engineChain 12) engineChain) 13
     = Err NotAnAndLiteral)
  ∧ (nodeIsAnd aigChain 13 = true →
     ∃ cutSet,
       getCutSet (engineAfter (findCuts 24 engineChain 12) engineChain) 13
       = OK cutSet
       ∧ hasBestCut (engineAfter (findCuts 24 engineChain 12) engineChain) 13
         = OK (match cutSet with [] => false | _ => true end)
       ∧ getBestCut (engineAfter (findCuts 24 engineChain 12) engineChain) 13
         = match cutSet with
           | [] => Err BestCutUndefined
           | bestCut :: _ => OK bestCut
           end
       ∧ getCutSet (engineAfter (findCuts 24 engineChain 12) engineChain)
                   (Z.lxor 13 1) = OK cutSet).
Proof.
  apply (cut_set_accessors_agree
           (engineAfter (findCuts 24 engineChain 12) engineChain) [] 13).
  apply engineChain_mapped_reachable.
Defined.

Lemma engineChain_node10_reachable :
  reachable (engineAfter (findCuts 24 engineChain 8) engineChain) [10].
Proof.
  apply reachable_call; [|vm_compute; reflexivity].
  eapply (reachable_findCuts 24 engineChain 8).
  - apply (reachable_new aigChain MinimizeArea 3 0); vm_compute; reflexivity.
  - vm_compute. reflexivity.
Qed.

Lemma processing_updates_implementation_map_witness :
  ∃ bestCut,
    getBestCut
      (engineAfter (findCuts 24 engineChain 10) engineChain) 10 = OK bestCut
    ∧ _implementationMap (engineAfter (findCuts 24 engineChain 10) engineChain)
      = if getAreaCost bestCut =? 0
        then absorbMap (engineAfter (findCuts 24 engineChain 8) engineChain)
               bestCut (_secondChild (mkAndNode 8 6))
               (absorbMap (engineAfter (findCuts 24 engineChain 8) engineChain)
                  bestCut (_firstChild (mkAndNode 8 6))
                  (<[10 := true]>
                     (_implementationMap
                        (engineAfter (findCuts 24 engineChain 8) engineChain))))
        else _implementationMap
               (engineAfter (findCuts 24 engineChain 8) engineChain).
Proof.
  apply (processing_updates_implementation_map
           (engineAfter (findCuts 24 engineChain 8) engineChain)
           (engineAfter (findCuts 24 engineChain 10) engineChain)
           10 [] (mkAndNode 8 6)).
  - apply engineChain_node10_reachable.
  - reflexivity.
  - vm_compute. reflexivity.
Defined.

Lemma map_subscript_present m key :
  is_Some (m !! key) → ∃ b, map_subscript m key = (m, b).
Proof. intros [b Hb]. exists b. unfold map_subscript. by rewrite Hb. Qed.

Lemma keys_kept_mark tm key area delay e' :
  _aig e' = _aig (_cutEngine tm) →
  keys_kept tm →
  nodeIsAnd (_aig (_cutEngine tm)) key = true → key mod 2 = 0 →
  keys_kept (mkTechMapper area delay (_mappingPowerCost tm)
               (<[key := true]> (_mapperImplementationMap tm)) e').
Proof.
  intros Haig Hok Hand Heven key'. simpl. rewrite Haig.
  destruct (decide (key = key')) as [<-|Hne].
  - rewrite lookup_insert_eq. split; [done|by eauto].
  - rewrite lookup_insert_ne by done. apply Hok.
Qed.

Lemma visitNode_keys tm nodeLiteral next tm' next' :
  visitNode tm nodeLiteral next = OK (tm', next') →
  keys_kept tm →
  nodeIsAnd (_aig (_cutEngine tm)) nodeLiteral = true →
  nodeLiteral mod 2 = 0 →
  (∀ l, l ∈ next → nodeIsAnd (_aig (_cutEngine tm)) l = true ∧ l mod 2 = 0) →
  _cutEngine tm' = _cutEngine tm
  ∧ keys_kept tm'
  ∧ (∀ l, l ∈ next' →
          nodeIsAnd (_aig (_cutEngine tm)) l = true ∧ l mod 2 = 0).
Proof.
  intros H Hok Hand Heven Hnext. unfold visitNode in H.
  destruct (map_subscript_present (_mapperImplementationMap tm) nodeLiteral)
    as [b Hsub]; [by apply Hok|].
  rewrite Hsub in H. destruct b; simpl in H.
  - injection H as <- <-. split; [done|]. split; [|done]. by destruct tm.
  - bind_as H best Hbest. injection H as <- <-.
    split; [done|]. split; [by apply keys_kept_mark|].
    intros l [?|Hl]%elem_of_union; [by apply Hnext|].
    split; [|by eapply andLiteralsOf_even].
    by apply andLiteralsOf_elem in Hl as (x & -> & _ & ?).
Qed.

Lemma visitNodes_keys nodes : ∀ tm next tm' next',
  visitNodes tm nodes next = OK (tm', next') →
  keys_kept tm →
  (∀ l, l ∈ nodes → nodeIsAnd (_aig (_cutEngine tm)) l = true ∧ l mod 2 = 0) →
  (∀ l, l ∈ next → nodeIsAnd (_aig (_cutEngine tm)) l = true ∧ l mod 2 = 0) →
  _cutEngine tm' = _cutEngine tm
  ∧ keys_kept tm'
  ∧ (∀ l, l ∈ next' →
          nodeIsAnd (_aig (_cutEngine tm)) l = true ∧ l mod 2 = 0).
Proof.
  induction nodes as [|l nodes IH]; intros tm next tm' next' H Hok Hn Hnext.
  { by injection H as <- <-. }
  simpl in H. bind_as H [tm1 next1] Hv.
  destruct (Hn l) as [Hand Heven]; [by left|].
  apply visitNode_keys in Hv as (He1 & Hok1 & Hnext1); [|done..].
  apply IH in H as (He' & Hok' & Hnext'); [|done|rewrite He1..].
  - rewrite He', He1. rewrite He1 in Hnext'. done.
  - intros l' Hl'. apply Hn. by right.
  - done.
Qed.

Lemma frontierLoop_keys fuel : ∀ tm current tm',
  frontierLoop fuel tm current = OK tm' →
  keys_kept tm →
  (∀ l, l ∈ current →
        nodeIsAnd (_aig (_cutEngine tm)) l = true ∧ l mod 2 = 0) →
  _cutEngine tm' = _cutEngine tm ∧ keys_kept tm'.
Proof.
  induction fuel as [|fuel IH]; intros tm current tm' H Hok Hcur;
    simpl in H; case_bool_decide; try discriminate;
    try (by injection H as <-).
  bind_as H [tm1 next] Hv.
  apply visitNodes_keys in Hv as (He1 & Hok1 & Hnext1); [|done| |].
  - apply IH in H as [He' Hok']; [|done|by rewrite He1].
    by rewrite He', He1.
  - intros l Hl%elem_of_ascending. by apply Hcur.
  - intros l Hl. by apply elem_of_empty in Hl.
Qed.

Lemma mapOutput_keys fuel tm outputLiteral tm' :
  integrityChecks (_aig (_cutEngine tm)) = true →
  mapOutput fuel tm outputLiteral = OK tm' →
  keys_kept tm →
  _aig (_cutEngine tm') = _aig (_cutEngine tm) ∧ keys_kept tm'.
Proof.
  intros Hvalid H Hok. unfold mapOutput in H.
  destruct (nodeIsAnd (_aig (_cutEngine tm)) outputLiteral) eqn:Hand.
  2:{ destruct (_ || _); by injection H as <-. }
  pose proof (proj1 (nodeIsAnd_spec _ Hvalid _) Hand) as [Hl Hv].
  assert (Heven : nodeIsAnd (_aig (_cutEngine tm)) (evenLiteral outputLiteral)
                  = true).
  { rewrite (evenLiteral_and _ _ Hvalid Hand).
    apply (nodeIsAnd_spec _ Hvalid). split; [lia|].
    by replace (2 * (outputLiteral / 2) / 2) with (outputLiteral / 2) by lia. }
  destruct (map_subscript_present (_mapperImplementationMap tm)
              (evenLiteral outputLiteral)) as [b Hsub].
  { apply Hok. split; [done|apply evenLiteral_even]. }
  rewrite Hsub in H. destruct b; simpl in H.
  { injection H as <-. by destruct tm. }
  bind_as H [e' cutSet] Hfind. bind_as H best Hbest.
  pose proof (findCuts_config _ _ _ _ _ Hfind) as (Haig & _).
  apply frontierLoop_keys in H as [He' Hok']; simpl in *.
  - by rewrite He'.
  - apply keys_kept_mark; [done..|apply evenLiteral_even].
  - intros l' Hl'. rewrite Haig.
    split; [|by eapply andLiteralsOf_even].
    by apply andLiteralsOf_elem in Hl' as (x & -> & _ & ?).
Qed.

Lemma mapOutputs_keys fuel outputs : ∀ tm tm',
  integrityChecks (_aig (_cutEngine tm)) = true →
  mapOutputs fuel tm outputs = OK tm' →
  keys_kept tm →
  _aig (_cutEngine tm') = _aig (_cutEngine tm) ∧ keys_kept tm'.
Proof.
  induction outputs as [|o outputs IH]; intros tm tm' Hvalid H Hok.
  { by injection H as <-. }
  simpl in H. bind_as H tm1 Hone.
  apply mapOutput_keys in Hone as [Haig1 Hok1]; [|done..].
  apply IH in H as [Haig' Hok']; [|by rewrite Haig1|done].
  by rewrite Haig', Haig1.
Qed.

(** X27. [TechMapper::run] never adds a key to the mapper's
    implementation map: after a run the keys are, as after the
    constructor, the even literals of the and-nodes (the engine's own map,
    in contrast, gets keys for odd literals). *)
Theorem mapper_map_keeps_its_keys (fuel : nat) (aig : AndInverterGraph)
    (mappingGoal : MappingGoal) (k c : Z) (tm : TechMapper) (key : Z) :
  integrityChecks aig = true →
  pipeline fuel aig mappingGoal k c = OK tm →
  is_Some (_mapperImplementationMap tm !! key)
  ↔ nodeIsAnd aig key = true ∧ key mod 2 = 0.
Proof.
  intros Hvalid H. unfold pipeline in H. bind_as H e Hnew.
  assert (Haig : _aig e = aig).
  { unfold CutEngine_new in Hnew. destruct (k <? 2); [discriminate|].
    by injection Hnew as <-. }
  unfold TechMapper_run in H.
  apply mapOutputs_keys in H as [Haig' Hok'].
  - simpl in Haig'. rewrite <- Haig, <- Haig'. apply Hok'.
  - simpl. by rewrite Haig.
  - intros key'. unfold TechMapper_new. simpl.
    rewrite Haig, constructor_map_lookup by done.
    destruct (nodeIsAnd aig key'); simpl;
      [|split; [by intros [? ?]|by intros [? _]]].
    destruct (Z.eqb_spec (key' mod 2) 0).
    + split; [done|by eauto].
    + split; [by intros [? ?]|by intros [_ ?]].
Qed.

Lemma mapper_map_keeps_its_keys_witness :
  is_Some (_mapperImplementationMap
             (from_OK mapperShared
                (pipeline 8 aigNegatedOutput MinimizeArea 2 0)) !! 7)
  ↔ nodeIsAnd aigNegatedOutput 7 = true ∧ 7 mod 2 = 0.
Proof.
  apply (mapper_map_keeps_its_keys 8 aigNegatedOutput MinimizeArea 2 0).
  - reflexivity.
  - vm_compute. reflexivity.
Defined.

(** ** The area of a stored cut *)

Lemma reachable_area_bound e stack :
  reachable e stack →
  ∀ v cut, isAndVariable (_aig e) v → cut ∈ cutSetOf e v →
           _areaCost cut ≤ Z.of_nat (size (andLeaves (_aig e) cut)).
Proof.
  intros Hreach. pattern e.
  eapply reachable_processed_ind; [| |exact Hreach].
  - intros aig mg k c e0 _ He0 v cut _ Hcut.
    rewrite (CutEngine_new_cutSetOf _ _ _ _ _ _ He0) in Hcut.
    by apply elem_of_nil in Hcut.
  - clear e stack Hreach.
    intros e t an e' Hinv IH Hand Hempty Han H0 H1 Hl0 Hl1 Hproc.
    destruct (processNode_cuts e t an e' Hinv Hand Hempty Han H0 H1 Hl0 Hl1
                Hproc) as ((Haig & _) & _ & _ & Hsame & Helem).
    rewrite Haig. intros v cut Hv Hcut.
    destruct (decide (v = t / 2)) as [->|Hne];
      [|rewrite Hsame in Hcut by done; by apply (IH v cut)].
    destruct (Helem cut Hcut) as (x & y & _ & _ & ->).
    unfold unionCutOf, andLeaves, unimplementedLeaves.
    cbn [_areaCost _nodeVariables].
    apply inj_le, subseteq_size.
    intros z Hz. apply elem_of_filter in Hz as [[Hz _] Hzin].
    by apply elem_of_filter.
Qed.

(** X28. The area cost of a stored cut never exceeds the number of its
    leaves that are and-nodes; a cut over primary inputs only has area
    0. The power cost of every stored cut is 0. *)
Theorem stored_cut_area_bound (e : CutEngine) (stack : list Z) (a : Z)
    (cutSet : CutSet) (cut : Cut) :
  reachable e stack →
  getCutSet e a = OK cutSet →
  cut ∈ cutSet →
  0 ≤ getAreaCost cut ≤ Z.of_nat (size (andLeaves (_aig e) cut))
  ∧ (andLeaves (_aig e) cut = ∅ → getAreaCost cut = 0)
  ∧ Z.of_nat (size (andLeaves (_aig e) cut)) ≤ _k e
  ∧ getPowerCost cut = 0.
Proof.
  intros Hreach Hget Hcut.
  destruct (reachable_inv _ _ Hreach) as [Hinv _].
  apply (getCutSet_OK e (engine_inv_shape e Hinv)) in Hget as [Hand ->].
  apply (nodeIsAnd_spec _ (inv_aig e Hinv)) in Hand as [_ Hv].
  pose proof (reachable_area_bound e stack Hreach _ _ Hv Hcut) as Hle.
  destruct (inv_cuts e Hinv _ _ Hv Hcut) as (_ & _ & Hk & Harea & _ & Hp).
  unfold getAreaCost, getPowerCost.
  split; [lia|]. split; [|split; [|done]].
  - intros Hnone. rewrite Hnone, size_empty in Hle. lia.
  - assert (size (andLeaves (_aig e) cut) ≤ size (_nodeVariables cut))%nat;
      [|lia].
    apply subseteq_size. intros z [_ ?]%elem_of_filter. done.
Qed.

Lemma stored_cut_area_bound_witness :
  0 ≤ getAreaCost (mkCut {[ 1; 3; 4 ]} 1 2 0)
    ≤ Z.of_nat (size (andLeaves aigChain (mkCut {[ 1; 3; 4 ]} 1 2 0)))
  ∧ (andLeaves aigChain (mkCut {[ 1; 3; 4 ]} 1 2 0) = ∅ →
     getAreaCost (mkCut {[ 1; 3; 4 ]} 1 2 0) = 0)
  ∧ Z.of_nat (size (andLeaves aigChain (mkCut {[ 1; 3; 4 ]} 1 2 0))) ≤ 3
  ∧ getPowerCost (mkCut {[ 1; 3; 4 ]} 1 2 0) = 0.
Proof.
  apply (stored_cut_area_bound
           (engineAfter (findCuts 24 engineChain 12) engineChain) [] 12
           cutsOfNode12).
  - apply engineChain_mapped_reachable.
  - vm_compute. reflexivity.
  - right. right. by left.
Defined.








(** X30. The two sorting functions. [sortCutSet] returns a rearrangement
    of its argument in the order of the mapping goal;
    [sortAndChooseBestCuts] returns the first c cuts of that, so all of
    them when c is the length or more and none when c = 0 (which is why
    [findCuts] calls it for c > 0 only). *)
Theorem sorting_functions (cutSet : CutSet) (c : Z)
    (mappingGoal : MappingGoal) :
  0 ≤ c →
  sortCutSet cutSet mappingGoal ≡ₚ cutSet
  ∧ StronglySorted (costsNotAfter mappingGoal) (sortCutSet cutSet mappingGoal)
  ∧ sortAndChooseBestCuts cutSet c mappingGoal
    = take (Z.to_nat c) (sortCutSet cutSet mappingGoal)
  ∧ Z.of_nat (length (sortAndChooseBestCuts cutSet c mappingGoal))
    = Z.min c (Z.of_nat (length cutSet))
  ∧ sortAndChooseBestCuts cutSet 0 mappingGoal = []
  ∧ (Z.of_nat (length cutSet) ≤ c →
     sortAndChooseBestCuts cutSet c mappingGoal
     = sortCutSet cutSet mappingGoal).
Proof.
  intros Hc. unfold sortCutSet, sortAndChooseBestCuts.
  pose proof (std_sort_Permutation (goalComparision mappingGoal) cutSet)
    as Hperm.
  pose proof (std_sort_sorted mappingGoal cutSet) as Hsorted.
  set (sorted := std_sort _ _) in *.
  assert (Hlen : length sorted = length cutSet) by by rewrite Hperm.
  split; [done|]. split.
  { clear Hperm Hlen. induction Hsorted as [|x l _ IH Hall];
      constructor; [done|].
    eapply Forall_impl; [exact Hall|]. intros y. apply notAfter_costs. }
  assert (Htake : (if Z.of_nat (length sorted) >? c
                   then take (Z.to_nat c) sorted else sorted)
                  = take (Z.to_nat c) sorted).
  { destruct (Z.gtb_spec (Z.of_nat (length sorted)) c); [done|].
    rewrite take_ge; [done|lia]. }
  split; [done|]. split.
  { rewrite Htake, length_take. lia. }
  split.
  { destruct (Z.gtb_spec (Z.of_nat (length sorted)) 0); [done|].
    destruct sorted; [done|simpl in *; lia]. }
  intros Hge. destruct (Z.gtb_spec (Z.of_nat (length sorted)) c); [lia|done].
Qed.

Lemma sorting_functions_witness :
  sortCutSet cutsOfNode12 MinimizeDelay ≡ₚ cutsOfNode12
  ∧ StronglySorted (costsNotAfter MinimizeDelay)
      (sortCutSet cutsOfNode12 MinimizeDelay)
  ∧ sortAndChooseBestCuts cutsOfNode12 2 MinimizeDelay
    = take (Z.to_nat 2) (sortCutSet cutsOfNode12 MinimizeDelay)
  ∧ Z.of_nat (length (sortAndChooseBestCuts cutsOfNode12 2 MinimizeDelay))
    = Z.min 2 (Z.of_nat (length cutsOfNode12))
  ∧ sortAndChooseBestCuts cutsOfNode12 0 MinimizeDelay = []
  ∧ (Z.of_nat (length cutsOfNode12) ≤ 2 →
     sortAndChooseBestCuts cutsOfNode12 2 MinimizeDelay
     = sortCutSet cutsOfNode12 MinimizeDelay).
Proof. apply (sorting_functions cutsOfNode12 2 MinimizeDelay). lia. Defined.
